(** * Antigravity Quota Watcher: polling engine, token vault, token bridge

    A shallow embedding of the TypeScript sources of the quota watcher
    (quotaService.ts, auth/tokenStorage.ts, auth/googleAuthService.ts,
    auth/antigravityTokenExtractor.ts) and the properties of its polling /
    retry state machine, its expiry arithmetic, its login guards and its
    protobuf field scanner.

    Conventions of the embedding:
    - JavaScript numbers that hold millisecond timestamps, counters, buffer
      positions and lengths are integers far below 2^53 and are modelled
      as [Z]; the 32-bit bitwise operators are written out with their
      wrap-around ([toInt32]).
    - A [Buffer] is a [list Z] of bytes; an out-of-range read is
      [undefined] ([None]).
    - An [async] method is modelled by what it does to the object's fields
      and which callbacks / timers it triggers; every awaited upstream call
      is an explicit input (an oracle value) of the modelled method.
    - Error messages are ASCII strings; [toLowerCase] is the ASCII one. *)

From Stdlib Require Import ZArith List Bool String Ascii Lia DecimalString.
Import ListNotations.

Local Open Scope Z_scope.

(* ================================================================== *)
(** * Time-until-reset formatting (QuotaService.formatTimeUntilReset)   *)
(* ================================================================== *)

Module Format.

(** Template-literal interpolation of an integer-valued number. *)
Definition num (z : Z) : string := NilZero.string_of_int (Z.to_int z).

(** [Math.floor(a / b)] on integers, [b > 0]. *)
Definition floorDiv (a b : Z) : Z := a / b.

(** The [%] operator of JavaScript (sign of the dividend). *)
Definition jsRem (a b : Z) : Z := Z.rem a b.

Definition formatTimeUntilReset (ms : Z) : string :=
  if ms <=? 0 then "Expired"%string
  else
    let seconds := floorDiv ms 1000 in
    let minutes := floorDiv seconds 60 in
    let hours := floorDiv minutes 60 in
    let days := floorDiv hours 24 in
    if days >? 0 then
      (num days ++ "d" ++ num (jsRem hours 24) ++ "h from now")%string
    else if hours >? 0 then
      (num hours ++ "h " ++ num (jsRem minutes 60) ++ "m from now")%string
    else if minutes >? 0 then
      (num minutes ++ "m " ++ num (jsRem seconds 60) ++ "s from now")%string
    else (num seconds ++ "s from now")%string.

Example format_expired_1s_ago : formatTimeUntilReset (-1000) = "Expired"%string.
Proof. reflexivity. Qed.

Example format_2d3h :
  formatTimeUntilReset ((2 * 86400 + 3 * 3600) * 1000) = "2d3h from now"%string.
Proof. reflexivity. Qed.

Example format_3h5m :
  formatTimeUntilReset ((3 * 3600 + 5 * 60) * 1000) = "3h 5m from now"%string.
Proof. reflexivity. Qed.

Example format_42s : formatTimeUntilReset 42999 = "42s from now"%string.
Proof. reflexivity. Qed.

Lemma formatTimeUntilReset_expired (ms : Z) :
  ms <= 0 -> formatTimeUntilReset ms = "Expired"%string.
Proof.
  intros Hms. unfold formatTimeUntilReset.
  destruct (Z.leb_spec ms 0) as [_ | Hgt]; [reflexivity | lia].
Qed.

(** Decomposition of a sub-hour duration into its buckets. *)
Lemma subhour_buckets (m s r : Z) :
  0 <= m < 60 -> 0 <= s < 60 -> 0 <= r < 1000 ->
  let ms := (m * 60 + s) * 1000 + r in
  floorDiv ms 1000 = m * 60 + s /\
  floorDiv (floorDiv ms 1000) 60 = m /\
  floorDiv (floorDiv (floorDiv ms 1000) 60) 60 = 0 /\
  jsRem (floorDiv ms 1000) 60 = s.
Proof.
  intros Hm Hs Hr ms. unfold floorDiv, jsRem.
  assert (E1 : ms / 1000 = m * 60 + s).
  { unfold ms. rewrite Z.div_add_l by lia. rewrite Z.div_small by lia. lia. }
  assert (E2 : (m * 60 + s) / 60 = m).
  { rewrite Z.div_add_l by lia. rewrite Z.div_small by lia. lia. }
  rewrite E1, E2. repeat split.
  - apply Z.div_small; lia.
  - rewrite Z.rem_mod_nonneg by lia.
    rewrite Z.add_comm, Z.mod_add by lia. apply Z.mod_small; lia.
Qed.

Lemma formatTimeUntilReset_minutes (m s r : Z) :
  1 <= m < 60 -> 0 <= s < 60 -> 0 <= r < 1000 ->
  formatTimeUntilReset ((m * 60 + s) * 1000 + r)
  = (num m ++ "m " ++ num s ++ "s from now")%string.
Proof.
  intros Hm Hs Hr.
  destruct (subhour_buckets m s r) as (E1 & E2 & E3 & E4); try lia.
  cbv zeta in E1, E2, E3, E4.
  unfold formatTimeUntilReset.
  destruct (Z.leb_spec ((m * 60 + s) * 1000 + r) 0) as [Hle | _]; [lia |].
  cbv zeta. rewrite E4, E3, E2.
  change (floorDiv 0 24) with 0. cbn [Z.gtb Z.compare].
  destruct (Z.gtb_spec m 0) as [_ | Hle]; [reflexivity | lia].
Qed.

(** C9 (as stated, fails): for 5 minutes 12 seconds the formatter yields
    the pair separated by a space, not the string "5m12s from now". *)
Lemma C9_counterexample_5m12s :
  formatTimeUntilReset ((5 * 60 + 12) * 1000) = "5m 12s from now"%string /\
  formatTimeUntilReset ((5 * 60 + 12) * 1000) <> "5m12s from now"%string.
Proof. split; [reflexivity | discriminate]. Qed.

(** C9 (amended): every remaining time that is zero or negative formats as
    "Expired"; exactly 2 days plus 3 hours formats as "2d3h from now"; and
    a remaining time of m minutes (1..59) and s seconds formats as
    "<m>m <s>s from now", minutes then seconds with a space between the
    pair, so 5 minutes 12 seconds gives "5m 12s from now". *)
Theorem C9_formatTimeUntilReset_buckets :
  (forall ms, ms <= 0 -> formatTimeUntilReset ms = "Expired"%string) /\
  formatTimeUntilReset ((2 * 86400 + 3 * 3600) * 1000) = "2d3h from now"%string /\
  (forall m s r, 1 <= m < 60 -> 0 <= s < 60 -> 0 <= r < 1000 ->
     formatTimeUntilReset ((m * 60 + s) * 1000 + r)
     = (num m ++ "m " ++ num s ++ "s from now")%string) /\
  formatTimeUntilReset ((5 * 60 + 12) * 1000) = "5m 12s from now"%string.
Proof.
  split; [exact formatTimeUntilReset_expired |].
  split; [reflexivity |].
  split; [exact formatTimeUntilReset_minutes | reflexivity].
Qed.

Lemma C9_formatTimeUntilReset_buckets_witness :
  formatTimeUntilReset (-1000) = "Expired"%string /\
  formatTimeUntilReset ((5 * 60 + 12) * 1000 + 0)
  = (num 5 ++ "m " ++ num 12 ++ "s from now")%string.
Proof.
  split.
  - apply (proj1 C9_formatTimeUntilReset_buckets). lia.
  - apply (proj1 (proj2 (proj2 C9_formatTimeUntilReset_buckets))); lia.
Defined.

(** Decomposition of any positive duration into the four quantities the
    formatter computes. *)
Lemma buckets_of_hours (hh rest : Z) :
  0 <= hh -> 0 <= rest < 3600000 ->
  let ms := hh * 3600000 + rest in
  floorDiv (floorDiv (floorDiv ms 1000) 60) 60 = hh /\
  floorDiv (floorDiv ms 1000) 60 = hh * 60 + rest / 60000.
Proof.
  intros Hh Hr ms. unfold floorDiv.
  assert (Em : ms / 1000 / 60 = hh * 60 + rest / 60000).
  { rewrite Z.div_div by lia. change (1000 * 60) with 60000.
    unfold ms. replace (hh * 3600000) with (hh * 60 * 60000) by lia.
    rewrite Z.div_add_l by lia. reflexivity. }
  split; [| exact Em].
  rewrite Em.
  assert (0 <= rest / 60000 < 60).
  { split; [apply Z.div_pos; lia | apply Z.div_lt_upper_bound; lia]. }
  rewrite Z.div_add_l by lia. rewrite (Z.div_small (rest / 60000)) by lia. lia.
Qed.

(** X1: From one day on the formatter shows whole days and whole hours only
    ("<d>d<h>h from now", without a space), and between one hour and one
    day whole hours and whole minutes only ("<h>h <m>m from now"): the
    finer units are dropped, never rounded up. *)
Theorem formatTimeUntilReset_coarse_buckets :
  (forall d h rest, 1 <= d -> 0 <= h < 24 -> 0 <= rest < 3600000 ->
     formatTimeUntilReset ((d * 24 + h) * 3600000 + rest)
     = (num d ++ "d" ++ num h ++ "h from now")%string) /\
  (forall h m rest, 1 <= h < 24 -> 0 <= m < 60 -> 0 <= rest < 60000 ->
     formatTimeUntilReset (h * 3600000 + (m * 60000 + rest))
     = (num h ++ "h " ++ num m ++ "m from now")%string).
Proof.
  split.
  - intros d h rest Hd Hh Hr.
    destruct (buckets_of_hours (d * 24 + h) rest) as (Eh & _); try lia.
    cbv zeta in Eh. unfold formatTimeUntilReset.
    destruct (Z.leb_spec ((d * 24 + h) * 3600000 + rest) 0) as [Hle | _]; [lia |].
    cbv zeta. rewrite Eh.
    assert (Ed : floorDiv (d * 24 + h) 24 = d).
    { unfold floorDiv. rewrite Z.div_add_l by lia. rewrite Z.div_small by lia. lia. }
    assert (Er : jsRem (d * 24 + h) 24 = h).
    { unfold jsRem. rewrite Z.rem_mod_nonneg by lia.
      rewrite Z.add_comm, Z.mod_add by lia. apply Z.mod_small; lia. }
    rewrite Ed, Er.
    destruct (Z.gtb_spec d 0) as [_ | Hle]; [reflexivity | lia].
  - intros h m rest Hh Hm Hr.
    destruct (buckets_of_hours h (m * 60000 + rest)) as (Eh & Em); try lia.
    cbv zeta in Eh, Em. unfold formatTimeUntilReset.
    destruct (Z.leb_spec (h * 3600000 + (m * 60000 + rest)) 0) as [Hle | _]; [lia |].
    cbv zeta. rewrite Eh, Em.
    assert (Eq : (m * 60000 + rest) / 60000 = m).
    { rewrite Z.div_add_l by lia. rewrite Z.div_small by lia. lia. }
    rewrite Eq.
    assert (Ed : floorDiv h 24 = 0) by (apply Z.div_small; lia).
    assert (Er : jsRem (h * 60 + m) 60 = m).
    { unfold jsRem. rewrite Z.rem_mod_nonneg by lia.
      rewrite Z.add_comm, Z.mod_add by lia. apply Z.mod_small; lia. }
    rewrite Ed, Er. cbn [Z.gtb Z.compare].
    destruct (Z.gtb_spec h 0) as [_ | Hle]; [reflexivity | lia].
Qed.

Lemma formatTimeUntilReset_coarse_buckets_witness :
  formatTimeUntilReset ((1 * 24 + 23) * 3600000 + 3599999)
  = "1d23h from now"%string /\
  formatTimeUntilReset (23 * 3600000 + (59 * 60000 + 59999))
  = "23h 59m from now"%string.
Proof.
  split.
  - apply (proj1 formatTimeUntilReset_coarse_buckets 1 23 3599999); lia.
  - apply (proj2 formatTimeUntilReset_coarse_buckets 23 59 59999); lia.
Defined.

Lemma append_length (a b : string) :
  String.length (a ++ b) = (String.length a + String.length b)%nat.
Proof. induction a as [| c a IH]; cbn; [reflexivity | rewrite IH; reflexivity]. Qed.

(** X2: The formatter answers "Expired" exactly for zero and negative
    durations.  Below one minute it shows whole seconds, so a positive
    remaining time below one second is shown as "0s from now". *)
Theorem formatTimeUntilReset_expired_iff :
  (forall ms, formatTimeUntilReset ms = "Expired"%string <-> ms <= 0) /\
  (forall ms, 0 < ms < 60000 ->
     formatTimeUntilReset ms = (num (ms / 1000) ++ "s from now")%string) /\
  (forall ms, 0 < ms < 1000 -> formatTimeUntilReset ms = "0s from now"%string).
Proof.
  assert (Hsec : forall ms, 0 < ms < 60000 ->
            formatTimeUntilReset ms = (num (ms / 1000) ++ "s from now")%string).
  { intros ms Hms.
    assert (Hs : 0 <= ms / 1000 < 60).
    { split; [apply Z.div_pos; lia | apply Z.div_lt_upper_bound; lia]. }
    unfold formatTimeUntilReset.
    destruct (Z.leb_spec ms 0) as [Hle | _]; [lia |].
    cbv zeta. unfold floorDiv. rewrite (Z.div_small (ms / 1000) 60) by lia.
    reflexivity. }
  split; [| split; [exact Hsec |]].
  - intros ms. split; [| apply formatTimeUntilReset_expired].
    unfold formatTimeUntilReset.
    destruct (Z.leb_spec ms 0) as [Hle | Hpos]; [intros _; exact Hle |].
    cbv zeta. intros Habs. exfalso.
    repeat match type of Habs with
           | (if ?c then _ else _) = _ => destruct c
           end;
      apply (f_equal String.length) in Habs;
      rewrite !append_length in Habs; cbn [String.length] in Habs; lia.
  - intros ms Hms. rewrite Hsec by lia. rewrite Z.div_small by lia. reflexivity.
Qed.

Lemma formatTimeUntilReset_expired_iff_witness :
  formatTimeUntilReset 59999 = (num (59999 / 1000) ++ "s from now")%string /\
  formatTimeUntilReset 999 = "0s from now"%string.
Proof.
  split.
  - apply (proj1 (proj2 formatTimeUntilReset_expired_iff) 59999). lia.
  - apply (proj2 (proj2 formatTimeUntilReset_expired_iff) 999). lia.
Defined.

End Format.

(* ================================================================== *)
(** * Token vault (auth/tokenStorage.ts)                                *)
(* ================================================================== *)

Module TokenStorage.

Inductive TokenSource := manual | imported.

Record TokenData := {
  accessToken : string;
  refreshToken : string;
  expiresAt : Z;                    (* Unix timestamp, milliseconds *)
  tokenType : string;
  scope : string;
  source : option TokenSource
}.

(** What the secret store holds under TOKEN_STORAGE_KEY, seen through
    [JSON.parse]: text that does not parse, or a serialised [TokenData]. *)
Inductive Secret :=
| Unparseable
| Serialized (token : TokenData).

(** [secretStorage] is [null] until [initialize] is called; once set, the
    single key is either absent or bound to a secret. *)
Record t := { secretStorage : option (option Secret) }.

(** Outcome of a method that may throw. *)
Inductive outcome (A : Type) :=
| Returns (a : A)
| Throws (msg : string).
Arguments Returns {A} a.
Arguments Throws {A} msg.

Definition bind {A B} (m : outcome A) (k : A -> outcome B) : outcome B :=
  match m with
  | Returns a => k a
  | Throws msg => Throws msg
  end.

Definition initialize (secrets : option Secret) (_ : t) : t :=
  {| secretStorage := Some secrets |}.

Definition ensureInitialized (st : t) : outcome unit :=
  match secretStorage st with
  | None => Throws "TokenStorage not initialized. Call initialize() first."
  | Some _ => Returns tt
  end.

Definition saveToken (token : TokenData) (st : t) : outcome t :=
  bind (ensureInitialized st) (fun _ =>
    Returns {| secretStorage := Some (Some (Serialized token)) |}).

Definition getToken (st : t) : outcome (option TokenData) :=
  bind (ensureInitialized st) (fun _ =>
    match secretStorage st with
    | Some (Some (Serialized token)) => Returns (Some token)
    | Some (Some Unparseable) => Returns None
    | _ => Returns None
    end).

Definition clearToken (st : t) : outcome t :=
  bind (ensureInitialized st) (fun _ => Returns {| secretStorage := Some None |}).

Definition defaultBufferMs : Z := 5 * 60 * 1000.

(** [isTokenExpired(bufferMs = 5 * 60 * 1000)]; [now] is [Date.now()],
    [bufferMs = None] is a call without argument. *)
Definition isTokenExpired (st : t) (now : Z) (bufferMs : option Z)
  : outcome bool :=
  let bufferMs := match bufferMs with Some b => b | None => defaultBufferMs end in
  bind (getToken st) (fun token =>
    match token with
    | None => Returns true
    | Some token => Returns (now + bufferMs >=? expiresAt token)
    end).

Definition getAccessToken (st : t) (now : Z) : outcome (option string) :=
  bind (getToken st) (fun token =>
    match token with
    | None => Returns None
    | Some token =>
        bind (isTokenExpired st now None) (fun expired =>
          if expired then Returns None else Returns (Some (accessToken token)))
    end).

Definition updateAccessToken (newToken : string) (expiresIn : Z) (now : Z)
  (st : t) : outcome t :=
  bind (getToken st) (fun token =>
    match token with
    | None => Throws "No existing token to update"
    | Some token =>
        saveToken {| accessToken := newToken;
                     refreshToken := refreshToken token;
                     expiresAt := now + expiresIn * 1000;
                     tokenType := tokenType token;
                     scope := scope token;
                     source := source token |} st
    end).

Definition sampleToken (expiry : Z) : TokenData :=
  {| accessToken := "at"; refreshToken := "rt"; expiresAt := expiry;
     tokenType := "Bearer"; scope := "openid"; source := Some manual |}.

Definition hasToken (st : t) : outcome bool :=
  bind (getToken st) (fun token =>
    Returns match token with Some _ => true | None => false end).

(** [token?.refreshToken ?? null] *)
Definition getRefreshToken (st : t) : outcome (option string) :=
  bind (getToken st) (fun token => Returns (option_map refreshToken token)).

(** [token?.source ?? 'manual'] *)
Definition getTokenSource (st : t) : outcome TokenSource :=
  bind (getToken st) (fun token =>
    Returns match token with
            | Some token =>
                match source token with Some src => src | None => manual end
            | None => manual
            end).

Definition updateTokenSource (src : TokenSource) (st : t) : outcome t :=
  bind (getToken st) (fun token =>
    match token with
    | None => Throws "No existing token to update"
    | Some token =>
        saveToken {| accessToken := accessToken token;
                     refreshToken := refreshToken token;
                     expiresAt := expiresAt token;
                     tokenType := tokenType token;
                     scope := scope token;
                     source := Some src |} st
    end).

Definition notInitialized : string :=
  "TokenStorage not initialized. Call initialize() first.".

Definition holding (tk : TokenData) : t :=
  {| secretStorage := Some (Some (Serialized tk)) |}.

Example expired_on_boundary :
  isTokenExpired {| secretStorage := Some (Some (Serialized (sampleToken 1000))) |}
    1000 (Some 0) = Returns true.
Proof. reflexivity. Qed.

Example fresh_just_before_boundary :
  isTokenExpired {| secretStorage := Some (Some (Serialized (sampleToken 1001))) |}
    1000 (Some 0) = Returns false.
Proof. reflexivity. Qed.

Lemma getToken_initialized (secrets : option Secret) :
  exists token, getToken {| secretStorage := Some secrets |} = Returns token.
Proof. destruct secrets as [[|token]|]; eexists; reflexivity. Qed.

Lemma isTokenExpired_of_getToken (st : t) (now : Z) (b : option Z)
  (token : option TokenData) :
  getToken st = Returns token ->
  isTokenExpired st now b
  = Returns match token with
            | None => true
            | Some tk =>
                now + match b with Some b => b | None => defaultBufferMs end
                >=? expiresAt tk
            end.
Proof.
  intros Hget. unfold isTokenExpired. rewrite Hget. cbn.
  destruct token; reflexivity.
Qed.

(** C5: for every content of an initialised vault and every buffer
    [bufferMs >= 0], [isTokenExpired bufferMs] returns (never throws) and
    returns [true] exactly when the vault holds no credential (nothing,
    or text that does not parse) or the credential it holds has
    [now + bufferMs >= expiresAt]; so a stored credential with
    [now + bufferMs < expiresAt] is reported as not expired.  The same
    holds of the credential that [saveToken] has just stored, whatever
    the vault held before, and after [clearToken] the answer is [true].
    The default buffer is 300000 ms, and with [bufferMs = 0] and
    [expiresAt = now] the credential is reported as expired. *)
Theorem C5_isTokenExpired_iff :
  (forall secrets now bufferMs, 0 <= bufferMs ->
     exists expired,
       isTokenExpired {| secretStorage := Some secrets |} now (Some bufferMs)
       = Returns expired /\
       (expired = true <->
          (forall tk, secrets <> Some (Serialized tk)) \/
          exists tk, secrets = Some (Serialized tk) /\
                     now + bufferMs >= expiresAt tk)) /\
  (forall tk now bufferMs, 0 <= bufferMs ->
     (now + bufferMs < expiresAt tk ->
      isTokenExpired (holding tk) now (Some bufferMs) = Returns false) /\
     (now + bufferMs >= expiresAt tk ->
      isTokenExpired (holding tk) now (Some bufferMs) = Returns true)) /\
  (forall secrets tk now bufferMs, 0 <= bufferMs ->
     exists stored cleared,
       saveToken tk {| secretStorage := Some secrets |} = Returns stored /\
       isTokenExpired stored now (Some bufferMs)
       = Returns (now + bufferMs >=? expiresAt tk) /\
       clearToken stored = Returns cleared /\
       isTokenExpired cleared now (Some bufferMs) = Returns true) /\
  (forall st now,
     isTokenExpired st now None = isTokenExpired st now (Some 300000)) /\
  (forall tk now, expiresAt tk = now ->
     isTokenExpired (holding tk) now (Some 0) = Returns true).
Proof.
  split; [| split; [| split; [| split]]].
  - intros secrets now bufferMs _.
    destruct secrets as [[| tk] |]; cbn.
    + exists true. split; [reflexivity |].
      split; [intros _; left; intros tk; discriminate | reflexivity].
    + exists (now + bufferMs >=? expiresAt tk). split; [reflexivity |].
      rewrite Z.geb_le. split.
      * intros Hle. right. exists tk. split; [reflexivity | lia].
      * intros [Hnone | (tk' & Heq & Hge)].
        -- exfalso. apply (Hnone tk). reflexivity.
        -- injection Heq as <-. lia.
    + exists true. split; [reflexivity |].
      split; [intros _; left; intros tk; discriminate | reflexivity].
  - intros tk now bufferMs _. cbn. split; intros Hcmp; f_equal.
    + destruct (Z.geb_spec (now + bufferMs) (expiresAt tk)); [lia | reflexivity].
    + apply Z.geb_le. lia.
  - intros secrets tk now bufferMs _.
    do 2 eexists. repeat split.
  - intros st now. reflexivity.
  - intros tk now Hexp. cbn. rewrite Hexp, Z.add_0_r.
    f_equal. apply Z.geb_le. lia.
Qed.

Lemma C5_isTokenExpired_iff_witness :
  isTokenExpired (holding (sampleToken 1001)) 700 (Some 300) = Returns false /\
  isTokenExpired (holding (sampleToken 1000)) 700 (Some 300) = Returns true /\
  isTokenExpired (holding (sampleToken 1000)) 1000 (Some 0) = Returns true.
Proof.
  pose proof C5_isTokenExpired_iff as (_ & Hheld & _ & _ & Hboundary).
  split; [| split].
  - apply (proj1 (Hheld (sampleToken 1001) 700 300 ltac:(lia))). cbn. lia.
  - apply (proj2 (Hheld (sampleToken 1000) 700 300 ltac:(lia))). cbn. lia.
  - apply (Hboundary (sampleToken 1000) 1000). reflexivity.
Defined.

Lemma getAccessToken_fresh_bound (secrets : option Secret) (now : Z) (a : string) :
  getAccessToken {| secretStorage := Some secrets |} now = Returns (Some a) ->
  exists tk, secrets = Some (Serialized tk) /\
             a = accessToken tk /\ now + 300000 < expiresAt tk.
Proof.
  destruct secrets as [[| tk] |]; cbn; try discriminate.
  destruct (Z.geb_spec (now + 300000) (expiresAt tk)) as [Hge | Hlt];
    [discriminate |].
  intros [= <-]. exists tk. repeat split. lia.
Qed.

(** X3: [getAccessToken] on an initialised vault never throws, and hands out
    an access token only when a credential is stored and it is still
    more than five minutes away from its expiry; the token handed out is
    the stored one. *)
Theorem getAccessToken_fresh_only (secrets : option Secret) (now : Z) :
  exists r,
    getAccessToken {| secretStorage := Some secrets |} now = Returns r /\
    forall a,
      r = Some a <->
      exists tk, secrets = Some (Serialized tk) /\
                 a = accessToken tk /\ now + 300000 < expiresAt tk.
Proof.
  destruct secrets as [[| tk] |]; cbn.
  - exists None. split; [reflexivity |].
    intros a. split; [discriminate | intros (tk & Heq & _); discriminate].
  - destruct (Z.geb_spec (now + 300000) (expiresAt tk)) as [Hge | Hlt].
    + exists None. split; [reflexivity |].
      intros a. split; [discriminate |].
      intros (tk' & Heq & _ & Hfresh). injection Heq as <-. lia.
    + exists (Some (accessToken tk)). split; [reflexivity |].
      intros a. split.
      * intros Heq. injection Heq as <-. exists tk. repeat split. lia.
      * intros (tk' & Heq & -> & _). injection Heq as <-. reflexivity.
  - exists None. split; [reflexivity |].
    intros a. split; [discriminate | intros (tk & Heq & _); discriminate].
Qed.

(** X4: [updateAccessToken] replaces the access token and the expiry and
    keeps the refresh token and the source.  The new access token is
    handed out at a later time exactly while more than five minutes of
    its lifetime remain: one granted for 300 seconds or less is never
    handed out at all. *)
Theorem updateAccessToken_usable_iff_outlives_buffer
  (tk : TokenData) (newToken : string) (expiresIn now later : Z) :
  now <= later ->
  exists st',
    updateAccessToken newToken expiresIn now (holding tk) = Returns st' /\
    getRefreshToken st' = Returns (Some (refreshToken tk)) /\
    getTokenSource st' = getTokenSource (holding tk) /\
    (getAccessToken st' later = Returns (Some newToken) <->
       later + 300000 < now + expiresIn * 1000) /\
    (expiresIn <= 300 -> getAccessToken st' later = Returns None).
Proof.
  intros Hlater. eexists. split; [reflexivity |].
  split; [reflexivity |]. split; [reflexivity |].
  cbn.
  destruct (Z.geb_spec (later + 300000) (now + expiresIn * 1000))
    as [Hge | Hlt].
  - split; [split; [discriminate | lia] | reflexivity].
  - split; [split; [lia | reflexivity] | lia].
Qed.

Lemma updateAccessToken_usable_iff_outlives_buffer_witness :
  exists st',
    updateAccessToken "fresh" 300 1000 (holding (sampleToken 0)) = Returns st' /\
    getRefreshToken st' = Returns (Some "rt"%string) /\
    getTokenSource st' = getTokenSource (holding (sampleToken 0)) /\
    (getAccessToken st' 1000 = Returns (Some "fresh"%string) <->
       1000 + 300000 < 1000 + 300 * 1000) /\
    (300 <= 300 -> getAccessToken st' 1000 = Returns None).
Proof.
  apply (updateAccessToken_usable_iff_outlives_buffer
           (sampleToken 0) "fresh" 300 1000 1000).
  lia.
Defined.

(** Before [initialize], every operation of the vault throws the same
    error and none returns a value. *)
Theorem uninitialized_vault_throws
  (tk : TokenData) (a : string) (n now : Z) (b : option Z) (src : TokenSource) :
  let st := {| secretStorage := None |} in
  saveToken tk st = Throws notInitialized /\
  getToken st = Throws notInitialized /\
  clearToken st = Throws notInitialized /\
  hasToken st = Throws notInitialized /\
  isTokenExpired st now b = Throws notInitialized /\
  getAccessToken st now = Throws notInitialized /\
  getRefreshToken st = Throws notInitialized /\
  updateAccessToken a n now st = Throws notInitialized /\
  getTokenSource st = Throws notInitialized /\
  updateTokenSource src st = Throws notInitialized.
Proof. repeat split. Qed.

(** After [clearToken] the vault answers as if nothing had ever been
    stored, whatever it held before (a credential, text that does not
    parse, or nothing), and both update operations refuse to run. *)
Theorem clearToken_forgets
  (secrets : option Secret) (a : string) (n now : Z) (b : option Z)
  (src : TokenSource) :
  exists st',
    clearToken {| secretStorage := Some secrets |} = Returns st' /\
    getToken st' = Returns None /\
    hasToken st' = Returns false /\
    isTokenExpired st' now b = Returns true /\
    getAccessToken st' now = Returns None /\
    getRefreshToken st' = Returns None /\
    getTokenSource st' = Returns manual /\
    updateAccessToken a n now st' = Throws "No existing token to update" /\
    updateTokenSource src st' = Throws "No existing token to update".
Proof. eexists. repeat split. Qed.

(** [updateTokenSource] changes the recorded source and nothing else:
    the refresh token, the access token handed out and the expiry
    verdict are the same before and after, for every clock value and
    buffer. *)
Theorem updateTokenSource_keeps_credentials
  (tk : TokenData) (src : TokenSource) (now : Z) (b : option Z) :
  exists st',
    updateTokenSource src (holding tk) = Returns st' /\
    getTokenSource st' = Returns src /\
    getRefreshToken st' = getRefreshToken (holding tk) /\
    getAccessToken st' now = getAccessToken (holding tk) now /\
    isTokenExpired st' now b = isTokenExpired (holding tk) now b.
Proof. eexists. repeat split. Qed.

End TokenStorage.

(* ================================================================== *)
(** * Local token bridge: protobuf scanner                              *)
(**   (auth/antigravityTokenExtractor.ts)                               *)
(* ================================================================== *)

Module Protobuf.

(** ** JavaScript 32-bit integer operators *)

Definition toInt32 (z : Z) : Z :=
  let m := z mod 2 ^ 32 in
  if m >=? 2 ^ 31 then m - 2 ^ 32 else m.

(** [a & b] *)
Definition and32 (a b : Z) : Z := toInt32 (Z.land (toInt32 a) (toInt32 b)).
(** [a | b] *)
Definition or32 (a b : Z) : Z := toInt32 (Z.lor (toInt32 a) (toInt32 b)).
(** [a << n]: the shift count is taken modulo 32. *)
Definition shl32 (a n : Z) : Z := toInt32 (Z.shiftl (toInt32 a) (n mod 32)).
(** [a >> n]: sign-propagating. *)
Definition sar32 (a n : Z) : Z := toInt32 (Z.shiftr (toInt32 a) (n mod 32)).

(** ** Buffers *)

Definition Buffer := list Z.

Definition len (buffer : Buffer) : Z := Z.of_nat (List.length buffer).

(** [buffer[pos]]: [undefined] outside [0 .. length-1]. *)
Definition byteAt (buffer : Buffer) (pos : Z) : option Z :=
  if pos <? 0 then None else nth_error buffer (Z.to_nat pos).

(** An operand of a bitwise operator: [undefined] converts to 0. *)
Definition operand (byte : option Z) : Z :=
  match byte with Some b => b | None => 0 end.

(** Index adjustment of [Buffer.prototype.slice]: a negative index counts
    from the end, everything is clamped to [0 .. length]. *)
Definition adjustOffset (offset length : Z) : Z :=
  if offset <? 0 then Z.max (offset + length) 0 else Z.min offset length.

Definition slice (buffer : Buffer) (start stop : Z) : Buffer :=
  let s := adjustOffset start (len buffer) in
  let e := adjustOffset stop (len buffer) in
  firstn (Z.to_nat (e - s)) (skipn (Z.to_nat s) buffer).

(** ** readVarint *)

(** The body of the [while (pos < buffer.length)] loop of [readVarint];
    [fuel] bounds the number of iterations. *)
Fixpoint readVarint_loop (fuel : nat) (buffer : Buffer) (result shift pos : Z)
  : Z * Z :=
  match fuel with
  | O => (result, pos)
  | S fuel' =>
      if pos <? len buffer then
        let byte := byteAt buffer pos in
        let result := or32 result (shl32 (and32 (operand byte) 127) shift) in
        let pos := pos + 1 in
        if and32 (operand byte) 128 =? 0 then (result, pos)
        else readVarint_loop fuel' buffer result (shift + 7) pos
      else (result, pos)
  end.

(** [readVarint(buffer, pos)] returns [{ value, newPos }].  The loop leaves
    after at most [buffer.length + 1] iterations (see
    [readVarint_loop_enough_fuel]). *)
Definition readVarint (buffer : Buffer) (pos : Z) : Z * Z :=
  readVarint_loop (S (List.length buffer)) buffer 0 0 pos.

(** ** findProtobufField *)

(** What one iteration of the scanning loop does. *)
Inductive Step :=
| Return (r : option Buffer)      (* [return ...] or [break] then [return null] *)
| Continue (pos : Z).             (* next iteration at [pos] *)

Definition findProtobufField_body (buffer : Buffer) (fieldNumber pos : Z) : Step :=
  let '(tag, tagEndPos) := readVarint buffer pos in
  if tagEndPos >=? len buffer then Return None
  else
    let wireType := and32 tag 7 in
    let field := sar32 tag 3 in
    let pos := tagEndPos in
    if wireType =? 2 then
      let '(length, lenEndPos) := readVarint buffer pos in
      let pos := lenEndPos in
      if field =? fieldNumber then Return (Some (slice buffer pos (pos + length)))
      else Continue (pos + length)
    else if wireType =? 0 then
      let '(_, newPos) := readVarint buffer pos in
      Continue newPos
    else if wireType =? 1 then Continue (pos + 8)
    else if wireType =? 5 then Continue (pos + 4)
    else Return None.

(** The [while (pos < buffer.length)] loop; [None] means that [fuel]
    iterations were not enough for the loop to leave. *)
Fixpoint findProtobufField_loop (fuel : nat) (buffer : Buffer)
  (fieldNumber pos : Z) : option (option Buffer) :=
  match fuel with
  | O => None
  | S fuel' =>
      if pos <? len buffer then
        match findProtobufField_body buffer fieldNumber pos with
        | Return r => Some r
        | Continue pos' => findProtobufField_loop fuel' buffer fieldNumber pos'
        end
      else Some None
  end.

Definition findProtobufField (fuel : nat) (buffer : Buffer) (fieldNumber : Z)
  : option (option Buffer) :=
  findProtobufField_loop fuel buffer fieldNumber 0.

(** ** parseProtobufForRefreshToken *)

Section Parse.

(** [Buffer.prototype.toString('utf-8')], a function of the runtime. *)
Variable toStringUtf8 : Buffer -> string.

(** A [Buffer] object is truthy, so [!oauthData] holds for [null] only.
    No operation of the [try] block raises, so the [catch] is never
    entered.  [None]: the scan has not left within [fuel] iterations. *)
Definition parseProtobufForRefreshToken (fuel : nat) (buffer : Buffer)
  : option (option string) :=
  match findProtobufField fuel buffer 6 with
  | None => None
  | Some None => Some None
  | Some (Some oauthData) =>
      match findProtobufField fuel oauthData 3 with
      | None => None
      | Some None => Some None
      | Some (Some refreshTokenBytes) => Some (Some (toStringUtf8 refreshTokenBytes))
      end
  end.

End Parse.

(** Decoder for buffers of ASCII bytes (on which UTF-8 decoding is the
    identity on code points). *)
Definition asciiToString (bytes : Buffer) : string :=
  string_of_list_ascii (map (fun b => ascii_of_N (Z.to_N b)) bytes).

Definition asciiBytes (s : string) : Buffer :=
  map (fun c => Z.of_N (N_of_ascii c)) (list_ascii_of_string s).

(** Outer field 6 (tag 0x32) wrapping inner field 3 (tag 0x1a) that holds
    "sample-refresh-token". *)
Definition sampleBuffer : Buffer :=
  [50; 22; 26; 20] ++ asciiBytes "sample-refresh-token".

(** Field 1, wire type 2, with a five-byte length varint whose bits 28..31
    are set: under 32-bit arithmetic the length is -6. *)
Definition hangBuffer : Buffer := [10; 250; 255; 255; 255; 15].

(** ** Well-formed inputs: the Protocol Buffers wire format *)

(** [varint bytes n]: [bytes] is a base-128 varint (continuation bit on
    every byte but the last) of the natural number [n]. *)
Inductive varint : Buffer -> Z -> Prop :=
| varint_last (b : Z) : 0 <= b < 128 -> varint [b] b
| varint_more (b : Z) (rest : Buffer) (n : Z) :
    128 <= b < 256 -> varint rest n ->
    varint (b :: rest) (b - 128 + 128 * n).

(** Payload of a field, by wire type. *)
Inductive Payload :=
| PVarint (n : Z)              (* wire type 0 *)
| PFixed64 (bytes : Buffer)    (* wire type 1 *)
| PBytes (bytes : Buffer)      (* wire type 2: string, bytes, embedded message *)
| PFixed32 (bytes : Buffer).   (* wire type 5 *)

Record Field := { number : Z; payload : Payload }.

(** [field_wire fld bytes]: [bytes] is a tag-length-value record of [fld],
    with tag [(number << 3) | wireType]. *)
Inductive field_wire : Field -> Buffer -> Prop :=
| wire_varint (f n : Z) (tag value : Buffer) :
    varint tag (f * 8 + 0) -> varint value n ->
    field_wire {| number := f; payload := PVarint n |} (tag ++ value)
| wire_fixed64 (f : Z) (bytes tag : Buffer) :
    varint tag (f * 8 + 1) -> len bytes = 8 ->
    field_wire {| number := f; payload := PFixed64 bytes |} (tag ++ bytes)
| wire_bytes (f : Z) (bytes tag length : Buffer) :
    varint tag (f * 8 + 2) -> varint length (len bytes) ->
    field_wire {| number := f; payload := PBytes bytes |} (tag ++ length ++ bytes)
| wire_fixed32 (f : Z) (bytes tag : Buffer) :
    varint tag (f * 8 + 5) -> len bytes = 4 ->
    field_wire {| number := f; payload := PFixed32 bytes |} (tag ++ bytes).

Inductive message_wire : list Field -> Buffer -> Prop :=
| wire_nil : message_wire [] []
| wire_cons (fld : Field) (flds : list Field) (bytes more : Buffer) :
    field_wire fld bytes -> message_wire flds more ->
    message_wire (fld :: flds) (bytes ++ more).

(** Field numbers and lengths that 32-bit arithmetic represents. *)
Definition scannable (fld : Field) : Prop :=
  number fld < 2 ^ 28 /\
  match payload fld with
  | PBytes bytes => len bytes < 2 ^ 31
  | _ => True
  end.

(** The record the scanner stops at: length-delimited, number [target]. *)
Definition is_target (target : Z) (fld : Field) : bool :=
  match payload fld with
  | PBytes _ => number fld =? target
  | _ => false
  end.

(** No varint that starts inside the buffer decodes, under the 32-bit
    arithmetic of [readVarint], to a negative number. *)
Definition nonnegativeVarints (buffer : Buffer) : Prop :=
  forall pos, 0 <= pos < len buffer -> 0 <= fst (readVarint buffer pos).

(** Wire types the scanner does not know: groups (3, 4) and the two
    unassigned values. *)
Definition unknownWireType (wt : Z) : Prop := wt = 3 \/ wt = 4 \/ wt = 6 \/ wt = 7.

Definition segment (part whole : Buffer) : Prop :=
  exists before after, whole = before ++ part ++ after.

Example parse_sample :
  parseProtobufForRefreshToken asciiToString 10 sampleBuffer
  = Some (Some "sample-refresh-token"%string).
Proof. vm_compute. reflexivity. Qed.

(** A varint field 1, a fixed64 field 2 and a fixed32 field 4 before the
    target, and a string field 7 after it. *)
Example parse_sample_among_other_fields :
  parseProtobufForRefreshToken asciiToString 10
    ([8; 172; 2] ++ [17; 1; 2; 3; 4; 5; 6; 7; 8] ++ [37; 9; 9; 9; 9]
     ++ sampleBuffer ++ [58; 1; 120])
  = Some (Some "sample-refresh-token"%string).
Proof. vm_compute. reflexivity. Qed.

Example parse_no_field_6 :
  parseProtobufForRefreshToken asciiToString 10 [8; 172; 2; 58; 1; 120]
  = Some None.
Proof. vm_compute. reflexivity. Qed.

Example parse_empty : parseProtobufForRefreshToken asciiToString 10 [] = Some None.
Proof. vm_compute. reflexivity. Qed.

Example hang_length_is_negative : readVarint hangBuffer 1 = (-6, 6).
Proof. vm_compute. reflexivity. Qed.

Example hang_body_returns_to_start :
  findProtobufField_body hangBuffer 6 0 = Continue 0.
Proof. vm_compute. reflexivity. Qed.

(** ** Totality of [readVarint], fuel of the scanning loop *)

Lemma len_nonneg (buffer : Buffer) : 0 <= len buffer.
Proof. unfold len. lia. Qed.

Lemma len_app (a b : Buffer) : len (a ++ b) = len a + len b.
Proof. unfold len. rewrite length_app. lia. Qed.

Lemma len_cons (x : Z) (b : Buffer) : len (x :: b) = 1 + len b.
Proof. unfold len. cbn [List.length]. lia. Qed.

Lemma byteAt_defined_nonneg (buffer : Buffer) (pos b : Z) :
  byteAt buffer pos = Some b -> 0 <= pos < len buffer.
Proof.
  unfold byteAt, len. destruct (Z.ltb_spec pos 0) as [Hneg | Hpos]; [discriminate |].
  intros Hnth. assert (Hlt : (Z.to_nat pos < List.length buffer)%nat).
  { apply nth_error_Some. congruence. }
  lia.
Qed.

(** Any two amounts of fuel above the number of bytes left give the same
    result: the loop of [readVarint] always leaves by itself. *)
Lemma readVarint_loop_enough_fuel (buffer : Buffer) :
  forall fuel1 fuel2 result shift pos,
    (Z.to_nat (len buffer - Z.max pos 0) < fuel1)%nat ->
    (Z.to_nat (len buffer - Z.max pos 0) < fuel2)%nat ->
    readVarint_loop fuel1 buffer result shift pos
    = readVarint_loop fuel2 buffer result shift pos.
Proof.
  induction fuel1 as [| fuel1 IH]; intros fuel2 result shift pos H1 H2; [lia |].
  destruct fuel2 as [| fuel2]; [lia |].
  cbn [readVarint_loop].
  destruct (Z.ltb_spec pos (len buffer)) as [Hin | Hout]; [| reflexivity].
  destruct (byteAt buffer pos) as [b |] eqn:Hb.
  - destruct (and32 (operand (Some b)) 128 =? 0); [reflexivity |].
    apply byteAt_defined_nonneg in Hb. apply IH; lia.
  - reflexivity.
Qed.

Lemma readVarint_fuel_irrelevant (buffer : Buffer) (pos : Z) (fuel : nat) :
  (List.length buffer < fuel)%nat ->
  readVarint buffer pos = readVarint_loop fuel buffer 0 0 pos.
Proof.
  intros Hfuel. unfold readVarint.
  apply readVarint_loop_enough_fuel; unfold len; lia.
Qed.

(** More fuel never changes a result that the scanning loop has reached. *)
Lemma findProtobufField_loop_more_fuel (buffer : Buffer) (fieldNumber : Z) :
  forall fuel pos r extra,
    findProtobufField_loop fuel buffer fieldNumber pos = Some r ->
    findProtobufField_loop (fuel + extra) buffer fieldNumber pos = Some r.
Proof.
  induction fuel as [| fuel IH]; intros pos r extra Hrun; [discriminate |].
  cbn [findProtobufField_loop Nat.add] in *.
  destruct (pos <? len buffer); [| exact Hrun].
  destruct (findProtobufField_body buffer fieldNumber pos) as [r' | pos'];
    [exact Hrun | apply IH; exact Hrun].
Qed.

(** ** The scanner can loop forever *)

Lemma hangBuffer_never_leaves :
  forall fuel, findProtobufField_loop fuel hangBuffer 6 0 = None.
Proof.
  induction fuel as [| fuel IH]; [reflexivity |].
  cbn [findProtobufField_loop].
  change (0 <? len hangBuffer) with true. cbv iota.
  rewrite hang_body_returns_to_start. exact IH.
Qed.

(** C10 (fails on the code): on the six-byte buffer
    [0a fa ff ff ff 0f] (field 1, length-delimited, length varint
    0xFFFFFFFA) the 32-bit arithmetic of [readVarint] yields the length -6,
    [pos += length] moves the read position from 6 back to 0, and the
    iteration at position 0 repeats: for every number of iterations the
    scanner, and with it the token parser, is still running. *)
Theorem C10_scanner_diverges_on_negative_length :
  readVarint hangBuffer 1 = (-6, 6) /\
  findProtobufField_body hangBuffer 6 0 = Continue 0 /\
  (forall fuel, findProtobufField fuel hangBuffer 6 = None) /\
  (forall decode fuel, parseProtobufForRefreshToken decode fuel hangBuffer = None).
Proof.
  split; [vm_compute; reflexivity |].
  split; [exact hang_body_returns_to_start |].
  split.
  - intros fuel. apply hangBuffer_never_leaves.
  - intros decode fuel. unfold parseProtobufForRefreshToken, findProtobufField.
    rewrite hangBuffer_never_leaves. reflexivity.
Qed.

(** ** 32-bit arithmetic on the values the scanner meets *)

Lemma toInt32_small (z : Z) : - 2 ^ 31 <= z < 2 ^ 31 -> toInt32 z = z.
Proof.
  intros Hz. unfold toInt32. cbv zeta.
  destruct (Z_lt_le_dec z 0) as [Hneg | Hpos].
  - assert (E : z mod 2 ^ 32 = z + 2 ^ 32).
    { symmetry. apply (Z.mod_unique _ _ (-1)); lia. }
    rewrite E. destruct (Z.geb_spec (z + 2 ^ 32) (2 ^ 31)); lia.
  - rewrite Z.mod_small by lia.
    destruct (Z.geb_spec z (2 ^ 31)); lia.
Qed.

Lemma byte_cases (P : Z -> bool) :
  forallb P (map Z.of_nat (seq 0 256)) = true ->
  forall b, 0 <= b < 256 -> P b = true.
Proof.
  intros Hall b Hb. rewrite forallb_forall in Hall. apply Hall.
  replace b with (Z.of_nat (Z.to_nat b)) by lia.
  apply in_map, in_seq. lia.
Qed.

Lemma and32_continuation_bit (b : Z) :
  0 <= b < 256 -> (and32 b 128 =? 0) = (b <? 128).
Proof.
  intros Hb. apply Bool.eqb_prop.
  apply (byte_cases (fun b => Bool.eqb (and32 b 128 =? 0) (b <? 128)));
    [vm_compute; reflexivity | exact Hb].
Qed.

Lemma and32_payload_bits (b : Z) : 0 <= b < 256 -> and32 b 127 = b mod 128.
Proof.
  intros Hb. apply Z.eqb_eq.
  apply (byte_cases (fun b => and32 b 127 =? b mod 128));
    [vm_compute; reflexivity | exact Hb].
Qed.

Lemma shl32_zero (n : Z) : shl32 0 n = 0.
Proof. unfold shl32. change (toInt32 0) with 0. rewrite Z.shiftl_0_l. reflexivity. Qed.

Lemma shl32_small (p s : Z) :
  0 <= p -> 0 <= s -> p * 2 ^ s < 2 ^ 31 -> 0 < p -> shl32 p s = p * 2 ^ s.
Proof.
  intros Hp Hs Hlt Hpos. unfold shl32.
  assert (Hs31 : s < 31).
  { destruct (Z_lt_le_dec s 31) as [H | H]; [exact H |].
    assert (2 ^ 31 <= 2 ^ s) by (apply Z.pow_le_mono_r; lia). nia. }
  assert (Hp31 : p < 2 ^ 31).
  { assert (1 <= 2 ^ s) by (apply Z.pow_le_mono_r with (b := 0) (c := s) (a := 2) in Hs; lia). nia. }
  rewrite (toInt32_small p) by lia.
  rewrite Z.mod_small by lia.
  rewrite Z.shiftl_mul_pow2 by lia.
  apply toInt32_small. assert (0 <= 2 ^ s) by (apply Z.pow_nonneg; lia). nia.
Qed.

Lemma land_below_shifted (r q s : Z) :
  0 <= s -> 0 <= r < 2 ^ s -> Z.land r (q * 2 ^ s) = 0.
Proof.
  intros Hs Hr. apply Z.bits_inj'. intros i Hi.
  rewrite Z.land_spec, Z.bits_0.
  destruct (Z_lt_le_dec i s) as [Hlow | Hhigh].
  - rewrite Z.mul_pow2_bits_low by lia. apply andb_false_r.
  - assert (Z.testbit r i = false).
    { destruct (Z.eq_dec r 0) as [-> | Hnz]; [apply Z.bits_0 |].
      apply Z.bits_above_log2; [lia |].
      apply Z.lt_le_trans with s; [| exact Hhigh].
      apply Z.log2_lt_pow2; lia. }
    rewrite H. reflexivity.
Qed.

Lemma or32_disjoint (r q s : Z) :
  0 <= s -> 0 <= r < 2 ^ s -> 0 <= q -> r + q * 2 ^ s < 2 ^ 31 ->
  or32 r (q * 2 ^ s) = r + q * 2 ^ s.
Proof.
  intros Hs Hr Hq Hlt. unfold or32.
  assert (0 <= 2 ^ s) by (apply Z.pow_nonneg; lia).
  rewrite (toInt32_small r) by nia.
  rewrite (toInt32_small (q * 2 ^ s)) by nia.
  pose proof (Z.add_lor_land r (q * 2 ^ s)) as Hadd.
  rewrite land_below_shifted in Hadd by assumption.
  rewrite Z.add_0_r in Hadd. rewrite Hadd.
  apply toInt32_small. nia.
Qed.

Lemma or32_zero (r : Z) : - 2 ^ 31 <= r < 2 ^ 31 -> or32 r 0 = r.
Proof.
  intros Hr. unfold or32. change (toInt32 0) with 0.
  rewrite (toInt32_small r) by lia. rewrite Z.lor_0_r.
  apply toInt32_small. lia.
Qed.

(** Splitting a tag into wire type and field number. *)
Lemma tag_split (field wt : Z) :
  0 <= field -> 0 <= wt < 8 -> field * 8 + wt < 2 ^ 31 ->
  and32 (field * 8 + wt) 7 = wt /\ sar32 (field * 8 + wt) 3 = field.
Proof.
  intros Hf Hw Hlt. unfold and32, sar32.
  rewrite (toInt32_small (field * 8 + wt)) by lia.
  change (toInt32 7) with (Z.ones 3). change (3 mod 32) with 3.
  rewrite Z.land_ones by lia. rewrite Z.shiftr_div_pow2 by lia.
  change (2 ^ 3) with 8.
  assert (E1 : (field * 8 + wt) mod 8 = wt).
  { rewrite Z.add_comm, Z.mod_add by lia. apply Z.mod_small. lia. }
  assert (E2 : (field * 8 + wt) / 8 = field).
  { rewrite Z.add_comm, Z.div_add by lia. rewrite Z.div_small by lia. lia. }
  rewrite E1, E2. split; apply toInt32_small; lia.
Qed.

Lemma varint_nonneg (bytes : Buffer) (n : Z) : varint bytes n -> 0 <= n.
Proof. induction 1; lia. Qed.

Lemma varint_nonempty (bytes : Buffer) (n : Z) : varint bytes n -> 1 <= len bytes.
Proof.
  destruct 1 as [b Hb | b more n Hb Hmore]; rewrite len_cons.
  - change (len []) with 0. lia.
  - pose proof (len_nonneg more). lia.
Qed.

Lemma byteAt_middle (done rest : Buffer) (b : Z) :
  byteAt (done ++ b :: rest) (len done) = Some b.
Proof.
  unfold byteAt, len.
  destruct (Z.ltb_spec (Z.of_nat (List.length done)) 0) as [Hneg | _]; [lia |].
  rewrite Nat2Z.id, nth_error_app2 by lia.
  rewrite Nat.sub_diag. reflexivity.
Qed.

Lemma pow2_shift7 (s : Z) : 0 <= s -> 2 ^ (s + 7) = 128 * 2 ^ s.
Proof. intros Hs. rewrite Z.pow_add_r by lia. change (2 ^ 7) with 128. lia. Qed.

(** One iteration of the loop of [readVarint] on a byte in range. *)
Lemma readVarint_loop_step (fuel : nat) (done rest : Buffer) (b result shift : Z) :
  0 <= b < 256 ->
  readVarint_loop (S fuel) (done ++ b :: rest) result shift (len done)
  = let result' := or32 result (shl32 (b mod 128) shift) in
    if b <? 128 then (result', len done + 1)
    else readVarint_loop fuel ((done ++ [b]) ++ rest) result' (shift + 7)
           (len (done ++ [b])).
Proof.
  intros Hb. cbn [readVarint_loop].
  assert (Hin : len done < len (done ++ b :: rest)).
  { rewrite len_app, len_cons. pose proof (len_nonneg rest). lia. }
  destruct (Z.ltb_spec (len done) (len (done ++ b :: rest))) as [_ | Hge]; [| lia].
  rewrite byteAt_middle. cbn [operand].
  rewrite and32_payload_bits, and32_continuation_bit by exact Hb.
  cbv zeta. destruct (b <? 128); [reflexivity |].
  rewrite <- app_assoc. cbn [app].
  rewrite len_app. reflexivity.
Qed.

(** Where [readVarint] stops on an embedded varint, whatever its value. *)
Lemma readVarint_loop_varint_pos (bytes : Buffer) (n : Z) :
  varint bytes n ->
  forall fuel done rest result shift,
    (List.length bytes <= fuel)%nat ->
    snd (readVarint_loop fuel (done ++ bytes ++ rest) result shift (len done))
    = len done + len bytes.
Proof.
  induction 1 as [b Hb | b more n Hb Hmore IH];
    intros fuel done rest result shift Hfuel;
    (destruct fuel as [| fuel]; [cbn [List.length] in Hfuel; lia |]);
    cbn [app]; rewrite readVarint_loop_step by lia; cbv zeta.
  - destruct (Z.ltb_spec b 128) as [_ | Hge]; [| lia]. reflexivity.
  - destruct (Z.ltb_spec b 128) as [Hlt | _]; [lia |].
    rewrite IH by (cbn [List.length] in Hfuel; lia).
    rewrite len_app, !len_cons. unfold len. cbn [List.length]. lia.
Qed.

(** The value [readVarint] computes for a varint below 2^31. *)
Lemma readVarint_loop_varint (bytes : Buffer) (n : Z) :
  varint bytes n ->
  forall fuel done rest result shift,
    (List.length bytes <= fuel)%nat ->
    0 <= shift -> 0 <= result < 2 ^ shift ->
    result + n * 2 ^ shift < 2 ^ 31 ->
    readVarint_loop fuel (done ++ bytes ++ rest) result shift (len done)
    = (result + n * 2 ^ shift, len done + len bytes).
Proof.
  induction 1 as [b Hb | b more n Hb Hmore IH];
    intros fuel done rest result shift Hfuel Hs Hr Hlt;
    (destruct fuel as [| fuel]; [cbn [List.length] in Hfuel; lia |]);
    cbn [app]; rewrite readVarint_loop_step by lia; cbv zeta;
    assert (Hpow : 0 < 2 ^ shift) by (apply Z.pow_pos_nonneg; lia).
  - destruct (Z.ltb_spec b 128) as [_ | Hge]; [| lia].
    rewrite Z.mod_small by lia. f_equal.
    destruct (Z.eq_dec b 0) as [-> | Hnz].
    + rewrite shl32_zero, or32_zero by nia. lia.
    + rewrite shl32_small by nia. apply or32_disjoint; lia.
  - destruct (Z.ltb_spec b 128) as [Hlt' | _]; [lia |].
    pose proof (varint_nonneg _ _ Hmore) as Hn.
    assert (Hp : b mod 128 = b - 128).
    { symmetry. apply (Z.mod_unique _ _ 1); lia. }
    rewrite Hp.
    assert (Hstep : or32 result (shl32 (b - 128) shift)
                    = result + (b - 128) * 2 ^ shift).
    { destruct (Z.eq_dec b 128) as [-> | Hnz].
      - change (128 - 128) with 0. rewrite shl32_zero, or32_zero by nia. lia.
      - rewrite shl32_small by nia. apply or32_disjoint; nia. }
    rewrite Hstep.
    rewrite IH; try (cbn [List.length] in Hfuel; lia);
      rewrite ?pow2_shift7 by lia; try nia.
    f_equal; [nia |].
    rewrite len_app, !len_cons. unfold len. cbn [List.length]. lia.
Qed.

Lemma readVarint_varint (bytes done rest : Buffer) (n : Z) :
  varint bytes n -> n < 2 ^ 31 ->
  readVarint (done ++ bytes ++ rest) (len done) = (n, len done + len bytes).
Proof.
  intros Hv Hn. unfold readVarint.
  rewrite (readVarint_loop_varint bytes n Hv).
  - f_equal. change (2 ^ 0) with 1. lia.
  - rewrite !length_app. lia.
  - lia.
  - change (2 ^ 0) with 1. lia.
  - change (2 ^ 0) with 1. lia.
Qed.

Lemma readVarint_varint_pos (bytes done rest : Buffer) (n : Z) :
  varint bytes n ->
  snd (readVarint (done ++ bytes ++ rest) (len done)) = len done + len bytes.
Proof.
  intros Hv. unfold readVarint.
  apply (readVarint_loop_varint_pos bytes n Hv).
  rewrite !length_app. lia.
Qed.

Lemma field_wire_nonempty (fld : Field) (bytes : Buffer) :
  field_wire fld bytes -> 2 <= len bytes.
Proof.
  destruct 1 as [f n tag value Ht Hv | f body tag Ht Hb
                | f body tag length Ht Hl | f body tag Ht Hb];
    rewrite ?len_app; apply varint_nonempty in Ht.
  - apply varint_nonempty in Hv. lia.
  - lia.
  - apply varint_nonempty in Hl. pose proof (len_nonneg body). lia.
  - lia.
Qed.

Lemma slice_middle (done bytes rest : Buffer) :
  slice (done ++ bytes ++ rest) (len done) (len done + len bytes) = bytes.
Proof.
  unfold slice, adjustOffset. cbv zeta.
  pose proof (len_nonneg done). pose proof (len_nonneg bytes).
  pose proof (len_nonneg rest).
  rewrite !len_app.
  destruct (Z.ltb_spec (len done) 0) as [Hn | _]; [lia |].
  destruct (Z.ltb_spec (len done + len bytes) 0) as [Hn | _]; [lia |].
  rewrite !Z.min_l by lia.
  replace (Z.to_nat (len done)) with (List.length done) by (unfold len; lia).
  replace (Z.to_nat (len done + len bytes - len done))
    with (List.length bytes) by (unfold len; lia).
  rewrite skipn_app, skipn_all, Nat.sub_diag. cbn [skipn app].
  rewrite firstn_app, firstn_all, Nat.sub_diag. cbn [firstn]. apply app_nil_r.
Qed.

(** The tag of a record, as the scanner reads it. *)
Lemma read_tag (done tag rest : Buffer) (f wt : Z) :
  varint tag (f * 8 + wt) -> 0 <= wt < 8 -> f < 2 ^ 28 ->
  exists tagValue,
    readVarint (done ++ tag ++ rest) (len done) = (tagValue, len (done ++ tag)) /\
    and32 tagValue 7 = wt /\ sar32 tagValue 3 = f.
Proof.
  intros Ht Hw Hf. pose proof (varint_nonneg _ _ Ht) as Hnn.
  exists (f * 8 + wt). rewrite len_app. split.
  - apply readVarint_varint; [exact Ht | lia].
  - apply tag_split; lia.
Qed.

(** The iteration on a record that is not the target moves to the next
    record. *)
Lemma body_skips (target : Z) (fld : Field) (bytes : Buffer) :
  field_wire fld bytes -> scannable fld -> is_target target fld = false ->
  forall done rest,
    findProtobufField_body (done ++ bytes ++ rest) target (len done)
    = Continue (len done + len bytes).
Proof.
  intros Hw [Hnum Hlen] Hnot done rest.
  destruct Hw as [f n tag value Ht Hv | f bytes tag Ht Hb
                 | f bytes tag length Ht Hl | f bytes tag Ht Hb];
    cbn [number payload] in *; unfold findProtobufField_body;
    rewrite <- !app_assoc.
  - destruct (read_tag done tag (value ++ rest) f 0 Ht) as (tv & Hread & Hwt & Hfn);
      [lia | exact Hnum |].
    rewrite Hread, Hwt, Hfn.
    pose proof (varint_nonempty _ _ Hv). pose proof (len_nonneg rest).
    destruct (Z.geb_spec (len (done ++ tag)) (len (done ++ tag ++ value ++ rest)))
      as [Hge | _]; [rewrite !len_app in Hge; lia |].
    change (0 =? 2) with false. change (0 =? 0) with true. cbv iota.
    pose proof (readVarint_varint_pos value (done ++ tag) rest n Hv) as Hpos.
    rewrite <- app_assoc in Hpos.
    destruct (readVarint (done ++ tag ++ value ++ rest) (len (done ++ tag)))
      as [v newPos]. cbn [snd] in Hpos. rewrite Hpos, !len_app. f_equal. lia.
  - destruct (read_tag done tag (bytes ++ rest) f 1 Ht) as (tv & Hread & Hwt & Hfn);
      [lia | exact Hnum |].
    rewrite Hread, Hwt, Hfn. pose proof (len_nonneg rest).
    destruct (Z.geb_spec (len (done ++ tag)) (len (done ++ tag ++ bytes ++ rest)))
      as [Hge | _]; [rewrite !len_app in Hge; lia |].
    change (1 =? 2) with false. change (1 =? 0) with false.
    change (1 =? 1) with true. cbv iota.
    rewrite !len_app. f_equal. lia.
  - destruct (read_tag done tag (length ++ bytes ++ rest) f 2 Ht)
      as (tv & Hread & Hwt & Hfn); [lia | exact Hnum |].
    rewrite Hread, Hwt, Hfn.
    pose proof (varint_nonempty _ _ Hl). pose proof (len_nonneg rest).
    pose proof (len_nonneg bytes).
    destruct (Z.geb_spec (len (done ++ tag))
                (len (done ++ tag ++ length ++ bytes ++ rest)))
      as [Hge | _]; [rewrite !len_app in Hge; lia |].
    change (2 =? 2) with true. cbv iota.
    pose proof (readVarint_varint length (done ++ tag) (bytes ++ rest)
                  (len bytes) Hl Hlen) as Hread2.
    rewrite <- app_assoc in Hread2. rewrite Hread2.
    unfold is_target in Hnot. cbn [payload number] in Hnot. rewrite Hnot.
    rewrite !len_app. f_equal. lia.
  - destruct (read_tag done tag (bytes ++ rest) f 5 Ht) as (tv & Hread & Hwt & Hfn);
      [lia | exact Hnum |].
    rewrite Hread, Hwt, Hfn. pose proof (len_nonneg rest).
    destruct (Z.geb_spec (len (done ++ tag)) (len (done ++ tag ++ bytes ++ rest)))
      as [Hge | _]; [rewrite !len_app in Hge; lia |].
    change (5 =? 2) with false. change (5 =? 0) with false.
    change (5 =? 1) with false. change (5 =? 5) with true. cbv iota.
    rewrite !len_app. f_equal. lia.
Qed.

(** The iteration on the target record returns its payload. *)
Lemma body_finds (target : Z) (bytes fb : Buffer) :
  field_wire {| number := target; payload := PBytes bytes |} fb ->
  target < 2 ^ 28 -> len bytes < 2 ^ 31 ->
  forall done rest,
    findProtobufField_body (done ++ fb ++ rest) target (len done)
    = Return (Some bytes).
Proof.
  intros Hw Hnum Hlen done rest.
  inversion Hw as [| | f body tag length Ht Hl Hf Hfb |]; subst f body.
  unfold findProtobufField_body. rewrite <- !app_assoc.
  destruct (read_tag done tag (length ++ bytes ++ rest) target 2 Ht)
    as (tv & Hread & Hwt & Hfn); [lia | exact Hnum |].
  rewrite Hread, Hwt, Hfn.
  pose proof (varint_nonempty _ _ Hl). pose proof (len_nonneg rest).
  pose proof (len_nonneg bytes).
  destruct (Z.geb_spec (len (done ++ tag))
              (len (done ++ tag ++ length ++ bytes ++ rest)))
    as [Hge | _]; [rewrite !len_app in Hge; lia |].
  change (2 =? 2) with true. cbv iota.
  pose proof (readVarint_varint length (done ++ tag) (bytes ++ rest)
                (len bytes) Hl Hlen) as Hread2.
  rewrite <- app_assoc in Hread2. rewrite Hread2.
  rewrite Z.eqb_refl. do 2 f_equal.
  pose proof (slice_middle ((done ++ tag) ++ length) bytes rest) as Hs.
  rewrite <- !app_assoc in Hs. rewrite !len_app in *.
  rewrite !Z.add_assoc in Hs. exact Hs.
Qed.

(** [slice] clamps an announced length to the bytes that are there. *)
Lemma slice_clamped (done avail : Buffer) (n : Z) :
  len avail <= n ->
  slice (done ++ avail) (len done) (len done + n) = avail.
Proof.
  intros Hn. unfold slice, adjustOffset. cbv zeta.
  pose proof (len_nonneg done). pose proof (len_nonneg avail).
  rewrite !len_app.
  destruct (Z.ltb_spec (len done) 0) as [Hneg | _]; [lia |].
  destruct (Z.ltb_spec (len done + n) 0) as [Hneg | _]; [lia |].
  rewrite (Z.min_l (len done)) by lia.
  rewrite (Z.min_r (len done + n)) by lia.
  replace (Z.to_nat (len done)) with (List.length done) by (unfold len; lia).
  replace (Z.to_nat (len done + len avail - len done))
    with (List.length avail) by (unfold len; lia).
  rewrite skipn_app, skipn_all, Nat.sub_diag. cbn [skipn app].
  apply firstn_all.
Qed.

(** The iteration on a target record at the end of the buffer whose
    announced length exceeds the bytes left returns the bytes left. *)
Lemma body_finds_clamped (target n : Z) (tag length avail : Buffer) :
  varint tag (target * 8 + 2) -> varint length n ->
  target < 2 ^ 28 -> len avail <= n < 2 ^ 31 ->
  forall done,
    findProtobufField_body (done ++ tag ++ length ++ avail) target (len done)
    = Return (Some avail).
Proof.
  intros Ht Hl Hnum Hn done. unfold findProtobufField_body.
  destruct (read_tag done tag (length ++ avail) target 2 Ht)
    as (tv & Hread & Hwt & Hfn); [lia | exact Hnum |].
  rewrite Hread, Hwt, Hfn.
  pose proof (varint_nonempty _ _ Hl). pose proof (len_nonneg avail).
  destruct (Z.geb_spec (len (done ++ tag)) (len (done ++ tag ++ length ++ avail)))
    as [Hge | _]; [rewrite !len_app in Hge; lia |].
  change (2 =? 2) with true. cbv iota.
  pose proof (readVarint_varint length (done ++ tag) avail n Hl (proj2 Hn))
    as Hread2.
  rewrite <- app_assoc in Hread2. rewrite Hread2.
  rewrite Z.eqb_refl. do 2 f_equal.
  pose proof (slice_clamped ((done ++ tag) ++ length) avail n (proj1 Hn)) as Hs.
  rewrite <- !app_assoc in Hs. rewrite !len_app in *.
  rewrite !Z.add_assoc in Hs. exact Hs.
Qed.

(** The loop walks over a run of records none of which is the target. *)
Lemma loop_skips (target : Z) (flds : list Field) (bytes : Buffer) :
  message_wire flds bytes ->
  Forall scannable flds ->
  existsb (is_target target) flds = false ->
  forall fuel done rest,
    findProtobufField_loop (List.length flds + fuel) (done ++ bytes ++ rest)
      target (len done)
    = findProtobufField_loop fuel (done ++ bytes ++ rest) target
        (len done + len bytes).
Proof.
  intros Hm Hscan Hnone.
  induction Hm as [| fld flds fb more Hfld Hmore IH]; intros fuel done rest.
  - cbn [List.length Nat.add]. change (len []) with 0. f_equal. lia.
  - cbn [existsb] in Hnone. apply orb_false_iff in Hnone as [Hnot Hnone].
    inversion Hscan as [| ? ? Hs Hss]; subst.
    cbn [List.length Nat.add findProtobufField_loop].
    pose proof (field_wire_nonempty _ _ Hfld) as Hlen.
    pose proof (len_nonneg more). pose proof (len_nonneg rest).
    destruct (Z.ltb_spec (len done) (len (done ++ (fb ++ more) ++ rest)))
      as [_ | Hge]; [| rewrite !len_app in Hge; lia].
    rewrite <- (app_assoc fb more rest).
    rewrite (body_skips target fld fb Hfld Hs Hnot done (more ++ rest)).
    specialize (IH Hss Hnone fuel (done ++ fb) rest).
    rewrite <- app_assoc, len_app in IH. rewrite IH.
    f_equal. rewrite len_app. lia.
Qed.

(** The first length-delimited record numbered [target] is found, whatever
    follows it. *)
Lemma findProtobufField_first (target : Z) (before : list Field)
  (bb bytes fb rest : Buffer) (fuel : nat) :
  message_wire before bb -> Forall scannable before ->
  existsb (is_target target) before = false ->
  field_wire {| number := target; payload := PBytes bytes |} fb ->
  target < 2 ^ 28 -> len bytes < 2 ^ 31 ->
  (List.length before < fuel)%nat ->
  findProtobufField fuel (bb ++ fb ++ rest) target = Some (Some bytes).
Proof.
  intros Hm Hscan Hnone Hw Hnum Hlen Hfuel. unfold findProtobufField.
  replace fuel with (List.length before + (fuel - List.length before))%nat by lia.
  pose proof (loop_skips target before bb Hm Hscan Hnone
                (fuel - List.length before)%nat [] (fb ++ rest)) as Hskip.
  cbn [app] in Hskip. change (len []) with 0 in Hskip.
  rewrite Hskip.
  destruct (fuel - List.length before)%nat as [| fuel'] eqn:Hf; [lia |].
  cbn [findProtobufField_loop].
  pose proof (field_wire_nonempty _ _ Hw). pose proof (len_nonneg rest).
  pose proof (len_nonneg bb).
  destruct (Z.ltb_spec (0 + len bb) (len (bb ++ fb ++ rest)))
    as [_ | Hge]; [| rewrite !len_app in Hge; lia].
  rewrite Z.add_0_l.
  rewrite (body_finds target bytes fb Hw Hnum Hlen bb rest). reflexivity.
Qed.

Lemma findProtobufField_last_clamped (target n : Z) (before : list Field)
  (bb tag length avail : Buffer) (fuel : nat) :
  message_wire before bb -> Forall scannable before ->
  existsb (is_target target) before = false ->
  varint tag (target * 8 + 2) -> varint length n ->
  target < 2 ^ 28 -> len avail <= n < 2 ^ 31 ->
  (List.length before < fuel)%nat ->
  findProtobufField fuel (bb ++ tag ++ length ++ avail) target = Some (Some avail).
Proof.
  intros Hm Hscan Hnone Ht Hl Hnum Hn Hfuel. unfold findProtobufField.
  replace fuel with (List.length before + (fuel - List.length before))%nat by lia.
  pose proof (loop_skips target before bb Hm Hscan Hnone
                (fuel - List.length before)%nat [] (tag ++ length ++ avail))
    as Hskip.
  cbn [app] in Hskip. change (len []) with 0 in Hskip.
  rewrite Hskip.
  destruct (fuel - List.length before)%nat as [| fuel'] eqn:Hf; [lia |].
  cbn [findProtobufField_loop].
  pose proof (varint_nonempty _ _ Ht). pose proof (varint_nonempty _ _ Hl).
  pose proof (len_nonneg avail). pose proof (len_nonneg bb).
  destruct (Z.ltb_spec (0 + len bb) (len (bb ++ tag ++ length ++ avail)))
    as [_ | Hge]; [| rewrite !len_app in Hge; lia].
  rewrite Z.add_0_l.
  rewrite (body_finds_clamped target n tag length avail Ht Hl Hnum Hn bb).
  reflexivity.
Qed.

(** A message without a length-delimited record numbered [target] is
    scanned to its end and yields [null]. *)
Lemma findProtobufField_absent (target : Z) (flds : list Field)
  (bytes : Buffer) (fuel : nat) :
  message_wire flds bytes -> Forall scannable flds ->
  existsb (is_target target) flds = false ->
  (List.length flds < fuel)%nat ->
  findProtobufField fuel bytes target = Some None.
Proof.
  intros Hm Hscan Hnone Hfuel. unfold findProtobufField.
  replace fuel with (List.length flds + (fuel - List.length flds))%nat by lia.
  pose proof (loop_skips target flds bytes Hm Hscan Hnone
                (fuel - List.length flds)%nat [] []) as Hskip.
  cbn [app] in Hskip. rewrite app_nil_r in Hskip. change (len []) with 0 in Hskip.
  rewrite Hskip.
  destruct (fuel - List.length flds)%nat as [| fuel'] eqn:Hf; [lia |].
  cbn [findProtobufField_loop].
  destruct (Z.ltb_spec (0 + len bytes) (len bytes)) as [Hlt | _]; [lia |].
  reflexivity.
Qed.

Lemma parseProtobufForRefreshToken_more_fuel (decode : Buffer -> string)
  (fuel extra : nat) (buffer : Buffer) (r : option string) :
  parseProtobufForRefreshToken decode fuel buffer = Some r ->
  parseProtobufForRefreshToken decode (fuel + extra) buffer = Some r.
Proof.
  unfold parseProtobufForRefreshToken, findProtobufField.
  destruct (findProtobufField_loop fuel buffer 6 0) as [[oauthData |] |] eqn:Houter;
    try discriminate.
  - rewrite (findProtobufField_loop_more_fuel _ _ _ _ _ extra Houter).
    destruct (findProtobufField_loop fuel oauthData 3 0) as [[token |] |] eqn:Hinner;
      try discriminate;
      rewrite (findProtobufField_loop_more_fuel _ _ _ _ _ extra Hinner);
      intros H; exact H.
  - rewrite (findProtobufField_loop_more_fuel _ _ _ _ _ extra Houter).
    intros H; exact H.
Qed.

(** The well-formed sample buffer cut after the first two bytes of its
    token is a truncated buffer, and the parser returns the string "sa"
    for it instead of absent: [slice] clamps the announced lengths to the
    bytes that are there. *)
Lemma truncated_sample_yields_partial_token :
  firstn 6 sampleBuffer = [50; 22; 26; 20; 115; 97] /\
  parseProtobufForRefreshToken asciiToString 10 (firstn 6 sampleBuffer)
  = Some (Some "sa"%string) /\
  parseProtobufForRefreshToken asciiToString 10 (firstn 6 sampleBuffer)
  <> Some None.
Proof. vm_compute. repeat split; discriminate. Qed.

(** C4 (fails on the code for truncated buffers).  What holds: let the
    buffer begin with tag-length-value records (wire types 0, 1, 2, 5;
    field numbers below 2^28, lengths below 2^31) none of which is a
    length-delimited field 6, followed by a length-delimited field 6 whose
    payload in turn begins with such records, none a length-delimited
    field 3, followed by a length-delimited field 3 that holds the token
    bytes; then the parser returns exactly the token bytes decoded as a
    string, whatever bytes follow (on the sample buffer,
    "sample-refresh-token"); for a message of such records without a
    length-delimited field 6 the parser returns absent; and the parser has
    no raising operation, its outcome is a string or absent.  What fails:
    when the buffer ends inside the token (the lengths announced for
    field 6 and field 3 exceed the bytes that are left), the parser
    returns the token bytes that are present, decoded, instead of
    absent. *)
Theorem C4_parse_refresh_token (decode : Buffer -> string) :
  (forall (before inner_before : list Field)
          (bb ibb token ifb irest fb rest : Buffer) (fuel : nat),
     message_wire before bb -> Forall scannable before ->
     existsb (is_target 6) before = false ->
     message_wire inner_before ibb -> Forall scannable inner_before ->
     existsb (is_target 3) inner_before = false ->
     field_wire {| number := 3; payload := PBytes token |} ifb ->
     len token < 2 ^ 31 ->
     field_wire {| number := 6; payload := PBytes (ibb ++ ifb ++ irest) |} fb ->
     len (ibb ++ ifb ++ irest) < 2 ^ 31 ->
     (List.length before < fuel)%nat -> (List.length inner_before < fuel)%nat ->
     parseProtobufForRefreshToken decode fuel (bb ++ fb ++ rest)
     = Some (Some (decode token))) /\
  (forall (flds : list Field) (bytes : Buffer) (fuel : nat),
     message_wire flds bytes -> Forall scannable flds ->
     existsb (is_target 6) flds = false ->
     (List.length flds < fuel)%nat ->
     parseProtobufForRefreshToken decode fuel bytes = Some None) /\
  (forall (before inner_before : list Field)
          (bb ibb tag6 len6 tag3 len3 present : Buffer) (n6 n3 : Z) (fuel : nat),
     message_wire before bb -> Forall scannable before ->
     existsb (is_target 6) before = false ->
     message_wire inner_before ibb -> Forall scannable inner_before ->
     existsb (is_target 3) inner_before = false ->
     varint tag6 (6 * 8 + 2) -> varint len6 n6 ->
     varint tag3 (3 * 8 + 2) -> varint len3 n3 ->
     len present <= n3 < 2 ^ 31 ->
     len (ibb ++ tag3 ++ len3 ++ present) <= n6 < 2 ^ 31 ->
     (List.length before < fuel)%nat -> (List.length inner_before < fuel)%nat ->
     parseProtobufForRefreshToken decode fuel
       (bb ++ tag6 ++ len6 ++ ibb ++ tag3 ++ len3 ++ present)
     = Some (Some (decode present))) /\
  parseProtobufForRefreshToken asciiToString 10 sampleBuffer
  = Some (Some "sample-refresh-token"%string).
Proof.
  split; [| split; [| split]].
  - intros before inner_before bb ibb token ifb irest fb rest fuel
      Hm Hs Hn Him His Hin Hif Hlt Hof Hlo Hfuel Hifuel.
    unfold parseProtobufForRefreshToken.
    rewrite (findProtobufField_first 6 before bb _ fb rest fuel Hm Hs Hn Hof)
      by (assumption || (cbv; reflexivity)).
    rewrite (findProtobufField_first 3 inner_before ibb token ifb irest fuel
               Him His Hin Hif) by (assumption || (cbv; reflexivity)).
    reflexivity.
  - intros flds bytes fuel Hm Hs Hn Hfuel.
    unfold parseProtobufForRefreshToken.
    rewrite (findProtobufField_absent 6 flds bytes fuel Hm Hs Hn Hfuel).
    reflexivity.
  - intros before inner_before bb ibb tag6 len6 tag3 len3 present n6 n3 fuel
      Hm Hs Hn Him His Hin Ht6 Hl6 Ht3 Hl3 Hn3 Hn6 Hfuel Hifuel.
    unfold parseProtobufForRefreshToken.
    rewrite (findProtobufField_last_clamped 6 n6 before bb tag6 len6
               (ibb ++ tag3 ++ len3 ++ present) fuel Hm Hs Hn Ht6 Hl6)
      by (assumption || (cbv; reflexivity)).
    rewrite (findProtobufField_last_clamped 3 n3 inner_before ibb tag3 len3
               present fuel Him His Hin Ht3 Hl3)
      by (assumption || (cbv; reflexivity)).
    reflexivity.
  - vm_compute. reflexivity.
Qed.

Lemma C4_parse_refresh_token_witness :
  parseProtobufForRefreshToken asciiToString 10
    ([8; 172; 2]
     ++ ([50] ++ [22] ++ ([] ++ ([26] ++ [20] ++ asciiBytes "sample-refresh-token") ++ []))
     ++ [58; 1; 120])
  = Some (Some (asciiToString (asciiBytes "sample-refresh-token"))) /\
  parseProtobufForRefreshToken asciiToString 10 [8; 172; 2] = Some None /\
  parseProtobufForRefreshToken asciiToString 10
    ([] ++ [50] ++ [22] ++ [] ++ [26] ++ [20] ++ asciiBytes "sa")
  = Some (Some (asciiToString (asciiBytes "sa"))).
Proof.
  assert (Hfirst : message_wire [{| number := 1; payload := PVarint 300 |}]
                     [8; 172; 2]).
  { apply (wire_cons _ [] [8; 172; 2] []); [| apply wire_nil].
    apply (wire_varint 1 300 [8] [172; 2]).
    - apply (varint_last 8). lia.
    - apply (varint_more 172 [2] 2); [lia | apply varint_last; lia]. }
  assert (Hscan : Forall scannable [{| number := 1; payload := PVarint 300 |}]).
  { constructor; [| constructor]. split; [cbn; lia | exact I]. }
  split; [| split].
  - apply (proj1 (C4_parse_refresh_token asciiToString)
             [{| number := 1; payload := PVarint 300 |}] []
             [8; 172; 2] [] (asciiBytes "sample-refresh-token")
             ([26] ++ [20] ++ asciiBytes "sample-refresh-token") []
             ([50] ++ [22]
              ++ ([] ++ ([26] ++ [20] ++ asciiBytes "sample-refresh-token") ++ []))
             [58; 1; 120] 10%nat).
    + exact Hfirst.
    + exact Hscan.
    + reflexivity.
    + apply wire_nil.
    + constructor.
    + reflexivity.
    + apply (wire_bytes 3 (asciiBytes "sample-refresh-token") [26] [20]);
        [apply (varint_last 26) | apply (varint_last 20)]; lia.
    + vm_compute. reflexivity.
    + apply (wire_bytes 6 _ [50] [22]);
        [apply (varint_last 50) | apply (varint_last 22)]; lia.
    + vm_compute. reflexivity.
    + cbn. lia.
    + cbn. lia.
  - apply (proj1 (proj2 (C4_parse_refresh_token asciiToString))
             [{| number := 1; payload := PVarint 300 |}] [8; 172; 2] 10%nat).
    + exact Hfirst.
    + exact Hscan.
    + reflexivity.
    + cbn. lia.
  - apply (proj1 (proj2 (proj2 (C4_parse_refresh_token asciiToString)))
             [] [] [] [] [50] [22] [26] [20] (asciiBytes "sa") 22 20 10%nat).
    + apply wire_nil.
    + constructor.
    + reflexivity.
    + apply wire_nil.
    + constructor.
    + reflexivity.
    + apply (varint_last 50). lia.
    + apply (varint_last 22). lia.
    + apply (varint_last 26). lia.
    + apply (varint_last 20). lia.
    + vm_compute. split; [discriminate | reflexivity].
    + vm_compute. split; [discriminate | reflexivity].
    + cbn. lia.
    + cbn. lia.
Defined.

(** ** Progress and bounds of the two loops *)

Lemma toInt32_range (z : Z) : - 2 ^ 31 <= toInt32 z < 2 ^ 31.
Proof.
  unfold toInt32. cbv zeta.
  pose proof (Z.mod_pos_bound z (2 ^ 32) ltac:(lia)).
  destruct (Z.geb_spec (z mod 2 ^ 32) (2 ^ 31)); lia.
Qed.

Lemma readVarint_loop_bounds (buffer : Buffer) :
  forall fuel result shift pos,
    - 2 ^ 31 <= result < 2 ^ 31 ->
    pos <= snd (readVarint_loop fuel buffer result shift pos)
        <= Z.max pos (len buffer) /\
    ((0 < fuel)%nat -> pos < len buffer ->
     pos < snd (readVarint_loop fuel buffer result shift pos)) /\
    - 2 ^ 31 <= fst (readVarint_loop fuel buffer result shift pos) < 2 ^ 31.
Proof.
  induction fuel as [| fuel IH]; intros result shift pos Hres.
  - cbn [readVarint_loop fst snd]. repeat split; lia.
  - cbn [readVarint_loop].
    destruct (Z.ltb_spec pos (len buffer)) as [Hin | Hout];
      [| cbn [fst snd]; repeat split; lia].
    destruct (and32 (operand (byteAt buffer pos)) 128 =? 0).
    + cbn [fst snd]. repeat split; try lia; apply toInt32_range.
    + specialize (IH (or32 result (shl32 (and32 (operand (byteAt buffer pos)) 127) shift))
                    (shift + 7) (pos + 1) (toInt32_range _)).
      destruct IH as (Hpos & _ & Hval). repeat split; try lia.
Qed.

Lemma readVarint_inside (buffer : Buffer) (pos : Z) :
  pos < len buffer -> pos < snd (readVarint buffer pos) <= len buffer.
Proof.
  intros Hin. unfold readVarint.
  destruct (readVarint_loop_bounds buffer (S (List.length buffer)) 0 0 pos)
    as (Hpos & Hadv & _); [lia |].
  specialize (Hadv ltac:(lia) Hin). lia.
Qed.

(** X5: [readVarint] started inside the buffer consumes at least one byte
    and never runs past the end; started at or past the end it reads
    nothing and yields 0; its value always fits a signed 32-bit integer,
    whatever the bytes are. *)
Theorem readVarint_advances (buffer : Buffer) (pos : Z) :
  (pos < len buffer -> pos < snd (readVarint buffer pos) <= len buffer) /\
  (len buffer <= pos -> readVarint buffer pos = (0, pos)) /\
  - 2 ^ 31 <= fst (readVarint buffer pos) < 2 ^ 31.
Proof.
  split; [apply readVarint_inside |].
  unfold readVarint.
  destruct (readVarint_loop_bounds buffer (S (List.length buffer)) 0 0 pos)
    as (_ & _ & Hval); [lia |].
  split; [| exact Hval].
  intros Hout. cbn [readVarint_loop].
  destruct (Z.ltb_spec pos (len buffer)); [lia | reflexivity].
Qed.

Lemma body_progress (buffer : Buffer) (fieldNumber pos pos' : Z) :
  nonnegativeVarints buffer ->
  0 <= pos < len buffer ->
  findProtobufField_body buffer fieldNumber pos = Continue pos' ->
  pos < pos'.
Proof.
  intros Hnn Hpos. unfold findProtobufField_body.
  pose proof (readVarint_inside buffer pos ltac:(lia)) as Htag.
  destruct (readVarint buffer pos) as [tag tagEnd]. cbn [fst snd] in Htag.
  destruct (Z.geb_spec tagEnd (len buffer)) as [Hge | Hlt]; [discriminate |].
  pose proof (readVarint_inside buffer tagEnd Hlt) as Hnext.
  specialize (Hnn tagEnd ltac:(lia)).
  destruct (and32 tag 7 =? 2).
  - destruct (readVarint buffer tagEnd) as [length lenEnd]. cbn [fst snd] in *.
    destruct (sar32 tag 3 =? fieldNumber); [discriminate |].
    intros [= <-]. lia.
  - destruct (and32 tag 7 =? 0).
    + destruct (readVarint buffer tagEnd) as [v newPos]. cbn [fst snd] in *.
      intros [= <-]. lia.
    + destruct (and32 tag 7 =? 1); [intros [= <-]; lia |].
      destruct (and32 tag 7 =? 5); [intros [= <-]; lia | discriminate].
Qed.

Lemma loop_leaves (buffer : Buffer) (fieldNumber : Z) :
  nonnegativeVarints buffer ->
  forall fuel pos,
    0 <= pos -> (Z.to_nat (len buffer - pos) < fuel)%nat ->
    exists r, findProtobufField_loop fuel buffer fieldNumber pos = Some r.
Proof.
  intros Hnn. induction fuel as [| fuel IH]; intros pos Hpos Hfuel; [lia |].
  cbn [findProtobufField_loop].
  destruct (Z.ltb_spec pos (len buffer)) as [Hin | Hout];
    [| exists None; reflexivity].
  destruct (findProtobufField_body buffer fieldNumber pos) as [r | pos'] eqn:Hbody.
  - exists r. reflexivity.
  - pose proof (body_progress buffer fieldNumber pos pos' Hnn ltac:(lia) Hbody).
    apply IH; lia.
Qed.

Lemma range_cases (n : nat) (P : Z -> bool) :
  forallb P (map Z.of_nat (seq 0 n)) = true ->
  forall p, 0 <= p < Z.of_nat n -> P p = true.
Proof.
  intros Hall p Hp. rewrite forallb_forall in Hall. apply Hall.
  replace p with (Z.of_nat (Z.to_nat p)) by lia.
  apply in_map, in_seq. lia.
Qed.

(** X6: The scan of [findProtobufField] leaves after at most
    [buffer.length + 1] iterations on every buffer, well formed or not,
    in which no varint decodes to a negative number; more iterations do
    not change its result. *)
Theorem scan_leaves_without_negative_varints
  (buffer : Buffer) (fieldNumber : Z) :
  nonnegativeVarints buffer ->
  exists r,
    forall extra,
      findProtobufField (S (List.length buffer) + extra) buffer fieldNumber
      = Some r.
Proof.
  intros Hnn.
  destruct (loop_leaves buffer fieldNumber Hnn (S (List.length buffer)) 0)
    as [r Hr]; [lia | unfold len; lia |].
  exists r. intros extra. unfold findProtobufField.
  apply findProtobufField_loop_more_fuel. exact Hr.
Qed.

Lemma scan_leaves_without_negative_varints_witness :
  exists r,
    forall extra,
      findProtobufField (S (List.length sampleBuffer) + extra) sampleBuffer 6
      = Some r.
Proof.
  apply (scan_leaves_without_negative_varints sampleBuffer 6).
  intros pos Hpos. apply Z.leb_le.
  apply (range_cases 24 (fun p => 0 <=? fst (readVarint sampleBuffer p)));
    [vm_compute; reflexivity | exact Hpos].
Defined.

(** ** What the scanner can return *)

Lemma slice_is_segment (buffer : Buffer) (start stop : Z) :
  segment (slice buffer start stop) buffer.
Proof.
  unfold segment, slice. cbv zeta.
  set (s := Z.to_nat (adjustOffset start (len buffer))).
  set (n := Z.to_nat _).
  exists (firstn s buffer), (skipn n (skipn s buffer)).
  rewrite (firstn_skipn n (skipn s buffer)).
  symmetry. apply firstn_skipn.
Qed.

Lemma body_returns_slice (buffer : Buffer) (fieldNumber pos : Z) (r : Buffer) :
  findProtobufField_body buffer fieldNumber pos = Return (Some r) ->
  segment r buffer.
Proof.
  unfold findProtobufField_body.
  destruct (readVarint buffer pos) as [tag tagEnd].
  destruct (tagEnd >=? len buffer); [discriminate |].
  destruct (and32 tag 7 =? 2).
  - destruct (readVarint buffer tagEnd) as [length lenEnd].
    destruct (sar32 tag 3 =? fieldNumber); [| discriminate].
    intros [= <-]. apply slice_is_segment.
  - destruct (and32 tag 7 =? 0).
    + destruct (readVarint buffer tagEnd). discriminate.
    + destruct (and32 tag 7 =? 1); [discriminate |].
      destruct (and32 tag 7 =? 5); discriminate.
Qed.

Lemma loop_returns_segment (buffer : Buffer) (fieldNumber : Z) :
  forall fuel pos r,
    findProtobufField_loop fuel buffer fieldNumber pos = Some (Some r) ->
    segment r buffer.
Proof.
  induction fuel as [| fuel IH]; intros pos r; [discriminate |].
  cbn [findProtobufField_loop].
  destruct (pos <? len buffer); [| discriminate].
  destruct (findProtobufField_body buffer fieldNumber pos) as [r' | pos'] eqn:Hbody.
  - intros [= ->]. apply (body_returns_slice buffer fieldNumber pos r Hbody).
  - apply IH.
Qed.

Lemma segment_trans (a b c : Buffer) : segment a b -> segment b c -> segment a c.
Proof.
  intros (p1 & q1 & ->) (p2 & q2 & ->).
  exists (p2 ++ p1), (q1 ++ q2). rewrite <- !app_assoc. reflexivity.
Qed.

Lemma segment_len (part whole : Buffer) : segment part whole -> len part <= len whole.
Proof.
  intros (p & q & ->). rewrite !len_app.
  pose proof (len_nonneg p). pose proof (len_nonneg q). lia.
Qed.

(** X7: Whatever [parseProtobufForRefreshToken] returns as a token is the
    decoding of a run of consecutive bytes of the input, on every input,
    well formed or not: the scanner copies, it never makes bytes up, and
    the token is never longer than the input. *)
Theorem parsed_token_is_segment_of_input
  (decode : Buffer -> string) (fuel : nat) (buffer : Buffer) (token : string) :
  parseProtobufForRefreshToken decode fuel buffer = Some (Some token) ->
  exists bytes,
    segment bytes buffer /\ len bytes <= len buffer /\ token = decode bytes.
Proof.
  unfold parseProtobufForRefreshToken, findProtobufField.
  destruct (findProtobufField_loop fuel buffer 6 0) as [[oauthData |] |] eqn:Houter;
    try discriminate.
  destruct (findProtobufField_loop fuel oauthData 3 0) as [[bytes |] |] eqn:Hinner;
    try discriminate.
  intros [= <-]. exists bytes.
  assert (Hseg : segment bytes buffer).
  { apply (segment_trans bytes oauthData buffer).
    - apply (loop_returns_segment oauthData 3 fuel 0 bytes Hinner).
    - apply (loop_returns_segment buffer 6 fuel 0 oauthData Houter). }
  split; [exact Hseg |]. split; [apply segment_len; exact Hseg | reflexivity].
Qed.

Lemma parsed_token_is_segment_of_input_witness :
  exists bytes,
    segment bytes sampleBuffer /\ len bytes <= len sampleBuffer /\
    "sample-refresh-token"%string = asciiToString bytes.
Proof.
  apply (parsed_token_is_segment_of_input asciiToString 10 sampleBuffer).
  vm_compute. reflexivity.
Defined.

(** X8: A record with a wire type the scanner does not know (3, 4, 6 or 7)
    ends the scan with [null]: after any run of well-formed records that
    are not the target, such a tag makes the scanner give up whatever
    follows it, so a target record placed after it is never found. *)
Theorem unknown_wire_type_ends_scan
  (target : Z) (flds : list Field) (bytes tag rest : Buffer) (f wt : Z)
  (fuel : nat) :
  message_wire flds bytes -> Forall scannable flds ->
  existsb (is_target target) flds = false ->
  varint tag (f * 8 + wt) -> unknownWireType wt -> f < 2 ^ 28 ->
  rest <> [] ->
  findProtobufField (List.length flds + S fuel) (bytes ++ tag ++ rest) target
  = Some None.
Proof.
  intros Hm Hscan Hnone Htag Hwt Hf Hrest. unfold findProtobufField.
  pose proof (loop_skips target flds bytes Hm Hscan Hnone (S fuel) [] (tag ++ rest))
    as Hskip.
  cbn [app] in Hskip. change (len []) with 0 in Hskip. rewrite Hskip.
  cbn [findProtobufField_loop].
  assert (Hw : 0 <= wt < 8) by (unfold unknownWireType in Hwt; lia).
  assert (Hrl : 0 < len rest).
  { destruct rest; [congruence |]. rewrite len_cons. pose proof (len_nonneg rest). lia. }
  pose proof (varint_nonempty _ _ Htag) as Htl.
  pose proof (len_nonneg bytes).
  destruct (Z.ltb_spec (0 + len bytes) (len (bytes ++ tag ++ rest))) as [_ | Hge];
    [| rewrite !len_app in Hge; lia].
  unfold findProtobufField_body.
  destruct (read_tag bytes tag rest f wt Htag Hw Hf) as (tv & Hread & Hwire & _).
  rewrite Z.add_0_l, Hread, Hwire.
  destruct (Z.geb_spec (len (bytes ++ tag)) (len (bytes ++ tag ++ rest)))
    as [Hge | _]; [rewrite !len_app in Hge; lia |].
  destruct Hwt as [-> | [-> | [-> | ->]]]; reflexivity.
Qed.

(** A group-start tag for field 1 (byte 0x0b) in front of the sample
    message hides its field 6. *)
Lemma unknown_wire_type_ends_scan_witness :
  findProtobufField (0 + 1) ([] ++ [11] ++ sampleBuffer) 6 = Some None.
Proof.
  apply (unknown_wire_type_ends_scan 6 [] [] [11] sampleBuffer 1 3 0).
  - constructor.
  - constructor.
  - reflexivity.
  - apply (varint_last 11). lia.
  - left. reflexivity.
  - lia.
  - discriminate.
Defined.

End Protobuf.

(* ================================================================== *)
(** * Authentication state machine (auth/googleAuthService.ts)          *)
(* ================================================================== *)

Module Auth.

Inductive AuthState :=
| NOT_AUTHENTICATED
| AUTHENTICATING
| AUTHENTICATED
| TOKEN_EXPIRED
| REFRESHING
| ERROR.

Record GoogleAuthService := {
  tokenStorage : TokenStorage.t;
  callbackServer : bool;             (* [true]: a CallbackServer object is held *)
  currentState : AuthState;
  lastError : option string;
  userEmail : option string
}.

Inductive Grant := AuthorizationCode | RefreshTokenGrant.

(** What a method does to the outside, in order. *)
Inductive Effect :=
| StateChanged (previous next : AuthState)   (* [setState]: listeners notified *)
| CallbackServerCreated                      (* [new CallbackServer()] *)
| CallbackServerListening                    (* [startServer()] resolved *)
| CallbackServerStopped                      (* [callbackServer.stop()] *)
| BrowserOpened                              (* [vscode.env.openExternal] *)
| TokenRequest (grant : Grant)               (* POST to the token endpoint *)
| TokenSaved
| InformationMessage
| ErrorMessage (msg : string).

Definition setState (state : AuthState) (s : GoogleAuthService)
  : GoogleAuthService * list Effect :=
  ({| tokenStorage := tokenStorage s; callbackServer := callbackServer s;
      currentState := state; lastError := lastError s;
      userEmail := userEmail s |},
   [StateChanged (currentState s) state]).

Definition withCallbackServer (held : bool) (s : GoogleAuthService) :=
  {| tokenStorage := tokenStorage s; callbackServer := held;
     currentState := currentState s; lastError := lastError s;
     userEmail := userEmail s |}.

Definition withLastError (msg : string) (s : GoogleAuthService) :=
  {| tokenStorage := tokenStorage s; callbackServer := callbackServer s;
     currentState := currentState s; lastError := Some msg;
     userEmail := userEmail s |}.

Definition withTokenStorage (ts : TokenStorage.t) (s : GoogleAuthService) :=
  {| tokenStorage := ts; callbackServer := callbackServer s;
     currentState := currentState s; lastError := lastError s;
     userEmail := userEmail s |}.

(** How far the awaited steps of one interactive login get. *)
Inductive LoginRun :=
| ServerFails (msg : string)        (* [startServer()] rejects *)
| BrowserFails (msg : string)       (* [openExternal] rejects *)
| CallbackFails (msg : string)      (* timeout, state mismatch, denied *)
| ExchangeFails (msg : string)      (* token endpoint error, no refresh token *)
| Exchanged (token : TokenStorage.TokenData).

(** The [catch] and [finally] blocks of [login]. *)
Definition login_failed (msg : string) (s : GoogleAuthService)
  (done : list Effect) : bool * GoogleAuthService * list Effect :=
  let '(s1, e1) := setState ERROR (withLastError msg s) in
  (false, withCallbackServer false s1,
   done ++ e1 ++ [ErrorMessage msg; CallbackServerStopped]).

Definition login (run : LoginRun) (s : GoogleAuthService)
  : bool * GoogleAuthService * list Effect :=
  match currentState s with
  | AUTHENTICATING => (false, s, [])          (* already authenticating *)
  | _ =>
      let '(s1, e1) := setState AUTHENTICATING s in
      let s2 := withCallbackServer true s1 in
      let created := e1 ++ [CallbackServerCreated] in
      match run with
      | ServerFails msg => login_failed msg s2 created
      | BrowserFails msg =>
          login_failed msg s2 (created ++ [CallbackServerListening])
      | CallbackFails msg =>
          login_failed msg s2
            (created ++ [CallbackServerListening; BrowserOpened])
      | ExchangeFails msg =>
          login_failed msg s2
            (created ++ [CallbackServerListening; BrowserOpened;
                         TokenRequest AuthorizationCode])
      | Exchanged token =>
          let done := created ++ [CallbackServerListening; BrowserOpened;
                                  TokenRequest AuthorizationCode] in
          match TokenStorage.saveToken token (tokenStorage s2) with
          | TokenStorage.Throws msg => login_failed msg s2 done
          | TokenStorage.Returns ts =>
              let '(s3, e3) := setState AUTHENTICATED (withTokenStorage ts s2) in
              (true, withCallbackServer false s3,
               done ++ [TokenSaved] ++ e3
               ++ [InformationMessage; CallbackServerStopped])
          end
      end
  end.

(** Reply of the token endpoint to a refresh-token grant. *)
Record TokenResponse := {
  access_token : string;
  expires_in : Z;
  token_type : string;
  response_scope : string
}.

Definition loginWithRefreshToken (refreshToken : string)
  (reply : string + TokenResponse) (now : Z) (s : GoogleAuthService)
  : bool * GoogleAuthService * list Effect :=
  match currentState s with
  | AUTHENTICATING | REFRESHING => (false, s, [])
  | _ =>
      let '(s1, e1) := setState REFRESHING s in
      let requested := e1 ++ [TokenRequest RefreshTokenGrant] in
      let failed msg :=
        let '(s2, e2) := setState ERROR (withLastError msg s1) in
        (false, s2, requested ++ e2 ++ [ErrorMessage msg]) in
      match reply with
      | inl msg => failed msg
      | inr response =>
          let tokenData :=
            {| TokenStorage.accessToken := access_token response;
               TokenStorage.refreshToken := refreshToken;
               TokenStorage.expiresAt := now + expires_in response * 1000;
               TokenStorage.tokenType := token_type response;
               TokenStorage.scope := response_scope response;
               TokenStorage.source := Some TokenStorage.imported |} in
          match TokenStorage.saveToken tokenData (tokenStorage s1) with
          | TokenStorage.Throws msg => failed msg
          | TokenStorage.Returns ts =>
              let '(s2, e2) := setState AUTHENTICATED (withTokenStorage ts s1) in
              (true, s2, requested ++ [TokenSaved] ++ e2 ++ [InformationMessage])
          end
      end
  end.

(** A service with an initialised, empty vault in a given state. *)
Definition serviceIn (state : AuthState) : GoogleAuthService :=
  {| tokenStorage := {| TokenStorage.secretStorage := Some None |};
     callbackServer := false; currentState := state;
     lastError := None; userEmail := None |}.

(** ** Token refresh and the operations built on it *)

(** How an [async] method that may throw completes. *)
Inductive Completion (A : Type) :=
| Fulfilled (a : A)
| Rejected (msg : string).
Arguments Fulfilled {A} a.
Arguments Rejected {A} msg.

(** The [catch] block of [refreshToken]: record the message, move to
    TOKEN_EXPIRED and rethrow. *)
Definition refresh_failed {A} (msg : string) (s : GoogleAuthService)
  (done : list Effect) : Completion A * GoogleAuthService * list Effect :=
  let '(s1, e1) := setState TOKEN_EXPIRED (withLastError msg s) in
  (Rejected msg, s1, done ++ e1).

(** [refreshToken()]; [reply] is what the token endpoint answers and
    [now] is [Date.now()] when the answer is stored. *)
Definition refreshToken (reply : string + TokenResponse) (now : Z)
  (s : GoogleAuthService) : Completion unit * GoogleAuthService * list Effect :=
  let '(s1, e1) := setState REFRESHING s in
  match TokenStorage.getRefreshToken (tokenStorage s1) with
  | TokenStorage.Throws msg => refresh_failed msg s1 e1
  | TokenStorage.Returns None => refresh_failed "No refresh token available" s1 e1
  | TokenStorage.Returns (Some stored) =>
      if (stored =? "")%string
      then refresh_failed "No refresh token available" s1 e1
      else
        let requested := e1 ++ [TokenRequest RefreshTokenGrant] in
        match reply with
        | inl msg => refresh_failed msg s1 requested
        | inr response =>
            match TokenStorage.updateAccessToken (access_token response)
                    (expires_in response) now (tokenStorage s1) with
            | TokenStorage.Throws msg => refresh_failed msg s1 requested
            | TokenStorage.Returns ts =>
                let '(s2, e2) := setState AUTHENTICATED (withTokenStorage ts s1) in
                (Fulfilled tt, s2, requested ++ [TokenSaved] ++ e2)
            end
        end
  end.

(** [getValidAccessToken()]; the three clock readings are those of the
    expiry check on entry, of the refresh and of the final
    [getAccessToken]. *)
Definition getValidAccessToken (reply : string + TokenResponse)
  (onEntry onRefresh onReturn : Z) (s : GoogleAuthService)
  : Completion string * GoogleAuthService * list Effect :=
  match TokenStorage.getToken (tokenStorage s) with
  | TokenStorage.Throws msg => (Rejected msg, s, [])
  | TokenStorage.Returns None =>
      let '(s1, e1) := setState NOT_AUTHENTICATED s in
      (Rejected "Not authenticated", s1, e1)
  | TokenStorage.Returns (Some _) =>
      match TokenStorage.isTokenExpired (tokenStorage s) onEntry None with
      | TokenStorage.Throws msg => (Rejected msg, s, [])
      | TokenStorage.Returns isExpired =>
          let '(refreshed, s1, e1) :=
            if isExpired then refreshToken reply onRefresh s
            else (Fulfilled tt, s, []) in
          match refreshed with
          | Rejected msg => (Rejected msg, s1, e1)
          | Fulfilled _ =>
              match TokenStorage.getAccessToken (tokenStorage s1) onReturn with
              | TokenStorage.Throws msg => (Rejected msg, s1, e1)
              | TokenStorage.Returns None =>
                  (Rejected "Failed to get access token", s1, e1)
              | TokenStorage.Returns (Some accessToken) =>
                  if (accessToken =? "")%string
                  then (Rejected "Failed to get access token", s1, e1)
                  else (Fulfilled accessToken, s1, e1)
              end
          end
      end
  end.

(** [initialize(context)]; [secrets] is what [context.secrets] holds
    under the storage key. *)
Definition initialize (secrets : option TokenStorage.Secret)
  (reply : string + TokenResponse) (onEntry onRefresh : Z)
  (s : GoogleAuthService) : Completion unit * GoogleAuthService * list Effect :=
  let s0 := withTokenStorage
              (TokenStorage.initialize secrets (tokenStorage s)) s in
  match TokenStorage.hasToken (tokenStorage s0) with
  | TokenStorage.Throws msg => (Rejected msg, s0, [])
  | TokenStorage.Returns false =>
      let '(s1, e1) := setState NOT_AUTHENTICATED s0 in (Fulfilled tt, s1, e1)
  | TokenStorage.Returns true =>
      match TokenStorage.isTokenExpired (tokenStorage s0) onEntry None with
      | TokenStorage.Throws msg => (Rejected msg, s0, [])
      | TokenStorage.Returns isExpired =>
          let '(_, s1, e1) :=
            if isExpired then refreshToken reply onRefresh s0
            else (Fulfilled tt, s0, []) in
          let '(s2, e2) := setState AUTHENTICATED s1 in
          (Fulfilled tt, s2, e1 ++ e2)
      end
  end.

Definition isAuthenticated (s : GoogleAuthService) : bool :=
  match currentState s with AUTHENTICATED => true | _ => false end.

Definition logout (s : GoogleAuthService)
  : Completion bool * GoogleAuthService * list Effect :=
  let wasAuthenticated :=
    match currentState s with
    | AUTHENTICATED | TOKEN_EXPIRED | REFRESHING => true
    | _ => false
    end in
  match TokenStorage.clearToken (tokenStorage s) with
  | TokenStorage.Throws msg => (Rejected msg, s, [])
  | TokenStorage.Returns ts =>
      let '(s1, e1) :=
        setState NOT_AUTHENTICATED
          {| tokenStorage := ts; callbackServer := callbackServer s;
             currentState := currentState s; lastError := None;
             userEmail := None |} in
      (Fulfilled wasAuthenticated, s1, e1)
  end.

(** [convertToManualSource()]: a failure of the vault is logged and
    swallowed. *)
Definition convertToManualSource (s : GoogleAuthService)
  : GoogleAuthService * list Effect :=
  match TokenStorage.updateTokenSource TokenStorage.manual (tokenStorage s) with
  | TokenStorage.Throws _ => (s, [])
  | TokenStorage.Returns ts => (withTokenStorage ts s, [TokenSaved])
  end.

(** [maskToken(token)]: the first six and the last four characters. *)
Definition maskToken (token : string) : string :=
  if (String.length token <=? 14)%nat then "***"%string
  else (substring 0 6 token ++ "***"
        ++ substring (String.length token - 4) 4 token)%string.

(** ** Reading effect lists *)

Definition isTokenRequest (e : Effect) : bool :=
  match e with TokenRequest _ => true | _ => false end.

Definition isServerCreated (e : Effect) : bool :=
  match e with CallbackServerCreated => true | _ => false end.

Definition isServerStopped (e : Effect) : bool :=
  match e with CallbackServerStopped => true | _ => false end.

Definition count (p : Effect -> bool) (es : list Effect) : nat :=
  List.length (filter p es).

(** A service whose initialised vault holds [tk]. *)
Definition serviceHolding (tk : TokenStorage.TokenData) (state : AuthState)
  : GoogleAuthService :=
  {| tokenStorage := TokenStorage.holding tk;
     callbackServer := false; currentState := state;
     lastError := None; userEmail := None |}.

Example login_from_scratch :
  login (Exchanged (TokenStorage.sampleToken 5000)) (serviceIn NOT_AUTHENTICATED)
  = (true,
     {| tokenStorage :=
          {| TokenStorage.secretStorage :=
               Some (Some (TokenStorage.Serialized (TokenStorage.sampleToken 5000))) |};
        callbackServer := false; currentState := AUTHENTICATED;
        lastError := None; userEmail := None |},
     [StateChanged NOT_AUTHENTICATED AUTHENTICATING; CallbackServerCreated;
      CallbackServerListening; BrowserOpened; TokenRequest AuthorizationCode;
      TokenSaved; StateChanged AUTHENTICATING AUTHENTICATED;
      InformationMessage; CallbackServerStopped]).
Proof. reflexivity. Qed.

Lemma login_rejected_while_authenticating (run : LoginRun) (s : GoogleAuthService) :
  currentState s = AUTHENTICATING -> login run s = (false, s, []).
Proof. intros Hs. unfold login. rewrite Hs. reflexivity. Qed.

Lemma loginWithRefreshToken_rejected (token : string)
  (reply : string + TokenResponse) (now : Z) (s : GoogleAuthService) :
  currentState s = AUTHENTICATING \/ currentState s = REFRESHING ->
  loginWithRefreshToken token reply now s = (false, s, []).
Proof.
  intros [Hs | Hs]; unfold loginWithRefreshToken; rewrite Hs; reflexivity.
Qed.

Lemma login_proceeds_while_refreshing (run : LoginRun) (s : GoogleAuthService) :
  currentState s = REFRESHING ->
  exists result s' more,
    login run s
    = (result, s',
       [StateChanged REFRESHING AUTHENTICATING; CallbackServerCreated] ++ more).
Proof.
  intros Hs. unfold login, login_failed, setState. rewrite Hs. cbn.
  destruct run as [msg | msg | msg | msg | token]; try (do 3 eexists; reflexivity).
  destruct (TokenStorage.saveToken token (tokenStorage s));
    do 3 eexists; reflexivity.
Qed.

(** C7 (fails on the code for [login] in state Refreshing): the
    imported-token login is rejected, without any effect, in both
    Authenticating and Refreshing, and the interactive login is rejected in
    Authenticating; but the interactive login called in state Refreshing
    is not rejected: it moves the state to Authenticating and creates a
    callback server, and when its steps succeed it returns [true]. *)
Theorem C7_login_guard_misses_refreshing :
  (forall run s, currentState s = AUTHENTICATING -> login run s = (false, s, [])) /\
  (forall token reply now s,
     currentState s = AUTHENTICATING \/ currentState s = REFRESHING ->
     loginWithRefreshToken token reply now s = (false, s, [])) /\
  (forall run s, currentState s = REFRESHING ->
     exists result s' more,
       login run s
       = (result, s',
          [StateChanged REFRESHING AUTHENTICATING; CallbackServerCreated]
          ++ more)) /\
  fst (fst (login (Exchanged (TokenStorage.sampleToken 5000)) (serviceIn REFRESHING)))
  = true.
Proof.
  split; [exact login_rejected_while_authenticating |].
  split; [exact loginWithRefreshToken_rejected |].
  split; [exact login_proceeds_while_refreshing | reflexivity].
Qed.

Lemma C7_login_guard_misses_refreshing_witness :
  login (ServerFails "EADDRINUSE") (serviceIn AUTHENTICATING)
  = (false, serviceIn AUTHENTICATING, []) /\
  (exists result s' more,
     login (CallbackFails "timeout") (serviceIn REFRESHING)
     = (result, s',
        [StateChanged REFRESHING AUTHENTICATING; CallbackServerCreated] ++ more)).
Proof.
  split.
  - apply (proj1 C7_login_guard_misses_refreshing). reflexivity.
  - apply (proj1 (proj2 (proj2 C7_login_guard_misses_refreshing))). reflexivity.
Defined.

(** ** Interactive login *)

(** X9: A [login] that passes its guard always ends with the callback
    server released: exactly one server is created and exactly one is
    stopped, the stop is the last thing that happens, and the service
    holds no server afterwards, on success and on every failure alike.
    It returns [true] exactly when it ends in AUTHENTICATED; when it
    returns [false] it ends in ERROR with the message recorded and shown,
    and the vault is what it was. *)
Theorem login_releases_callback_server (run : LoginRun) (s : GoogleAuthService) :
  currentState s <> AUTHENTICATING ->
  exists result s' effects,
    login run s = (result, s', effects) /\
    callbackServer s' = false /\
    count isServerCreated effects = 1%nat /\
    count isServerStopped effects = 1%nat /\
    last effects InformationMessage = CallbackServerStopped /\
    (result = true -> currentState s' = AUTHENTICATED) /\
    (result = false ->
     currentState s' = ERROR /\ tokenStorage s' = tokenStorage s /\
     exists msg, lastError s' = Some msg /\ In (ErrorMessage msg) effects).
Proof.
  intros Hguard. unfold login.
  destruct (currentState s) eqn:Hs; try congruence;
    destruct run as [msg | msg | msg | msg | token];
    try (unfold login_failed, setState; cbn; do 3 eexists;
         split; [reflexivity |];
         repeat split; try discriminate;
         exists msg; split; [reflexivity | cbn; tauto]);
    unfold setState; cbn;
    (destruct (TokenStorage.saveToken token (tokenStorage s)) as [ts | msg];
     [ cbn; do 3 eexists; split; [reflexivity |];
       repeat split; discriminate
     | unfold login_failed, setState; cbn; do 3 eexists;
       split; [reflexivity |];
       repeat split; try discriminate;
       exists msg; split; [reflexivity | cbn; tauto] ]).
Qed.

Lemma login_releases_callback_server_witness :
  exists result s' effects,
    login (CallbackFails "Authentication timed out") (serviceIn TOKEN_EXPIRED)
    = (result, s', effects) /\
    callbackServer s' = false /\
    count isServerCreated effects = 1%nat /\
    count isServerStopped effects = 1%nat /\
    last effects InformationMessage = CallbackServerStopped /\
    (result = true -> currentState s' = AUTHENTICATED) /\
    (result = false ->
     currentState s' = ERROR /\
     tokenStorage s' = tokenStorage (serviceIn TOKEN_EXPIRED) /\
     exists msg, lastError s' = Some msg /\ In (ErrorMessage msg) effects).
Proof.
  apply (login_releases_callback_server
           (CallbackFails "Authentication timed out") (serviceIn TOKEN_EXPIRED)).
  discriminate.
Defined.

(** ** Imported-token login *)

(** X10: An imported-token login that passes its guard sends exactly one
    request to the token endpoint.  When the endpoint answers, the vault
    afterwards holds the imported refresh token, marked as imported,
    replacing whatever was stored; when the endpoint refuses, the login
    returns [false], ends in ERROR with the message recorded, and leaves
    the vault as it was. *)
Theorem loginWithRefreshToken_outcome
  (imported : string) (reply : string + TokenResponse) (now : Z)
  (s : GoogleAuthService) (secrets : option TokenStorage.Secret) :
  currentState s <> AUTHENTICATING -> currentState s <> REFRESHING ->
  tokenStorage s = {| TokenStorage.secretStorage := Some secrets |} ->
  exists s' effects,
    loginWithRefreshToken imported reply now s
    = (match reply with inr _ => true | inl _ => false end, s', effects) /\
    count isTokenRequest effects = 1%nat /\
    match reply with
    | inr response =>
        currentState s' = AUTHENTICATED /\
        TokenStorage.getRefreshToken (tokenStorage s')
        = TokenStorage.Returns (Some imported) /\
        TokenStorage.getTokenSource (tokenStorage s')
        = TokenStorage.Returns TokenStorage.imported /\
        TokenStorage.isTokenExpired (tokenStorage s') now (Some 0)
        = TokenStorage.Returns (0 >=? expires_in response * 1000)
    | inl msg =>
        currentState s' = ERROR /\ lastError s' = Some msg /\
        tokenStorage s' = tokenStorage s
    end.
Proof.
  intros Hauth Hrefr Hvault. unfold loginWithRefreshToken.
  destruct (currentState s) eqn:Hs; try congruence;
    unfold setState; cbn; rewrite Hvault;
    (destruct reply as [msg | response]; cbn;
     [ do 2 eexists; split; [reflexivity |]; repeat split
     | do 2 eexists; split; [reflexivity |];
       split; [reflexivity |]; split; [reflexivity |];
       split; [reflexivity |]; split; [reflexivity |];
       cbn; f_equal;
       destruct (Z.geb_spec (now + 0) (now + expires_in response * 1000));
       destruct (Z.geb_spec 0 (expires_in response * 1000)); lia || reflexivity ]).
Qed.

Lemma loginWithRefreshToken_outcome_witness :
  exists s' effects,
    loginWithRefreshToken "1//imported" (inl "Token error: invalid_grant"%string)
      1000 (serviceHolding (TokenStorage.sampleToken 0) AUTHENTICATED)
    = (false, s', effects) /\
    count isTokenRequest effects = 1%nat /\
    currentState s' = ERROR /\
    lastError s' = Some "Token error: invalid_grant"%string /\
    tokenStorage s'
    = tokenStorage (serviceHolding (TokenStorage.sampleToken 0) AUTHENTICATED).
Proof.
  apply (loginWithRefreshToken_outcome "1//imported"
           (inl "Token error: invalid_grant"%string) 1000
           (serviceHolding (TokenStorage.sampleToken 0) AUTHENTICATED)
           (Some (TokenStorage.Serialized (TokenStorage.sampleToken 0))));
    [discriminate | discriminate | reflexivity].
Defined.

(** ** Token refresh *)

(** X11: [refreshToken] ends in AUTHENTICATED exactly when it completes and in
    TOKEN_EXPIRED, with the thrown message recorded, exactly when it
    throws, for every vault, state and answer of the endpoint.  It first
    announces REFRESHING, asks the endpoint at most once, and not at all
    when the vault has no usable refresh token. *)
Theorem refreshToken_state_matches_result
  (reply : string + TokenResponse) (now : Z) (s : GoogleAuthService) :
  exists result s' more,
    refreshToken reply now s
    = (result, s', StateChanged (currentState s) REFRESHING :: more) /\
    (count isTokenRequest more <= 1)%nat /\
    match result with
    | Fulfilled _ => currentState s' = AUTHENTICATED /\ lastError s' = lastError s
    | Rejected msg => currentState s' = TOKEN_EXPIRED /\ lastError s' = Some msg
    end /\
    (forall stored,
       TokenStorage.getRefreshToken (tokenStorage s) = TokenStorage.Returns stored ->
       stored = None \/ stored = Some ""%string ->
       result = Rejected "No refresh token available" /\
       count isTokenRequest more = 0%nat /\ tokenStorage s' = tokenStorage s).
Proof.
  unfold refreshToken, setState. cbn [tokenStorage].
  destruct (TokenStorage.getRefreshToken (tokenStorage s)) as [[stored |] | msg] eqn:Hget.
  - destruct (String.eqb_spec stored "") as [-> | Hne].
    + cbn. do 3 eexists. split; [reflexivity |]. cbn.
      repeat split; try lia.
    + destruct reply as [msg | response].
      * cbn. do 3 eexists. split; [reflexivity |]. cbn.
        split; [lia |]. split; [split; reflexivity |].
        intros st [= <-] [Habs | Habs]; [discriminate | congruence].
      * destruct (TokenStorage.updateAccessToken (access_token response)
                    (expires_in response) now (tokenStorage s)) as [ts | msg].
        -- cbn. do 3 eexists. split; [reflexivity |]. cbn.
           split; [lia |]. split; [split; reflexivity |].
           intros st [= <-] [Habs | Habs]; [discriminate | congruence].
        -- cbn. do 3 eexists. split; [reflexivity |]. cbn.
           split; [lia |]. split; [split; reflexivity |].
           intros st [= <-] [Habs | Habs]; [discriminate | congruence].
  - cbn. do 3 eexists. split; [reflexivity |]. cbn. repeat split; lia.
  - cbn. do 3 eexists. split; [reflexivity |]. cbn.
    split; [lia |]. split; [split; reflexivity |].
    intros st Habs. discriminate.
Qed.

(** A refresh that the endpoint answers keeps the stored refresh token
    and source and replaces only the access token and its expiry; a
    refresh that the endpoint refuses leaves the vault untouched, so the
    expired credential stays available for a later attempt. *)
Theorem refreshToken_keeps_refresh_token
  (tk : TokenStorage.TokenData) (reply : string + TokenResponse) (now : Z)
  (state : AuthState) :
  TokenStorage.refreshToken tk <> ""%string ->
  exists result s' effects,
    refreshToken reply now (serviceHolding tk state) = (result, s', effects) /\
    count isTokenRequest effects = 1%nat /\
    TokenStorage.getRefreshToken (tokenStorage s')
    = TokenStorage.Returns (Some (TokenStorage.refreshToken tk)) /\
    TokenStorage.getTokenSource (tokenStorage s')
    = TokenStorage.getTokenSource (TokenStorage.holding tk) /\
    match reply with
    | inr response =>
        result = Fulfilled tt /\
        option_map TokenStorage.accessToken
          match TokenStorage.getToken (tokenStorage s') with
          | TokenStorage.Returns t => t
          | TokenStorage.Throws _ => None
          end = Some (access_token response)
    | inl msg =>
        result = Rejected msg /\ tokenStorage s' = TokenStorage.holding tk
    end.
Proof.
  intros Hrt. unfold refreshToken, setState, serviceHolding. cbn.
  destruct (String.eqb_spec (TokenStorage.refreshToken tk) "") as [Habs | _];
    [congruence |].
  destruct reply as [msg | response]; cbn;
    do 3 eexists; (split; [reflexivity |]); cbn; repeat split.
Qed.

Lemma refreshToken_keeps_refresh_token_witness :
  exists result s' effects,
    refreshToken (inl "Token error: invalid_grant"%string) 1000
      (serviceHolding (TokenStorage.sampleToken 0) AUTHENTICATED)
    = (result, s', effects) /\
    count isTokenRequest effects = 1%nat /\
    TokenStorage.getRefreshToken (tokenStorage s')
    = TokenStorage.Returns (Some "rt"%string) /\
    TokenStorage.getTokenSource (tokenStorage s')
    = TokenStorage.getTokenSource (TokenStorage.holding (TokenStorage.sampleToken 0)) /\
    result = Rejected "Token error: invalid_grant" /\
    tokenStorage s' = TokenStorage.holding (TokenStorage.sampleToken 0).
Proof.
  apply (refreshToken_keeps_refresh_token (TokenStorage.sampleToken 0)
           (inl "Token error: invalid_grant"%string) 1000 AUTHENTICATED).
  discriminate.
Defined.

(** ** Access tokens handed to the quota client *)

(** X12: Whatever [getValidAccessToken] returns is the non-empty access token
    that the vault holds when it returns, and that token is more than
    five minutes away from its expiry at that moment, for every vault,
    state, answer of the endpoint and clock readings: a stale or empty
    token is never handed out. *)
Theorem getValidAccessToken_never_stale
  (reply : string + TokenResponse) (onEntry onRefresh onReturn : Z)
  (s s' : GoogleAuthService) (accessToken : string) (effects : list Effect) :
  getValidAccessToken reply onEntry onRefresh onReturn s
  = (Fulfilled accessToken, s', effects) ->
  accessToken <> ""%string /\
  exists tk,
    TokenStorage.getToken (tokenStorage s') = TokenStorage.Returns (Some tk) /\
    TokenStorage.accessToken tk = accessToken /\
    onReturn + 300000 < TokenStorage.expiresAt tk.
Proof.
  unfold getValidAccessToken.
  destruct (TokenStorage.getToken (tokenStorage s)) as [[tk |] | msg] eqn:Hget;
    [| unfold setState; discriminate | discriminate].
  destruct (TokenStorage.isTokenExpired (tokenStorage s) onEntry None)
    as [isExpired | msg]; [| discriminate].
  destruct (if isExpired then refreshToken reply onRefresh s else (Fulfilled tt, s, []))
    as [[refreshed s1] e1].
  destruct refreshed as [[] | msg]; [| discriminate].
  destruct (TokenStorage.getAccessToken (tokenStorage s1) onReturn)
    as [[a |] | msg] eqn:Hacc; try discriminate.
  destruct (String.eqb_spec a "") as [-> | Hne]; [discriminate |].
  intros [= <- <- <-]. split; [exact Hne |].
  destruct (tokenStorage s1) as [[secrets |]]; [| discriminate].
  destruct (TokenStorage.getAccessToken_fresh_bound secrets onReturn a Hacc)
    as (tk' & -> & Ha & Hfresh).
  exists tk'. repeat split; [symmetry; exact Ha | exact Hfresh].
Qed.

Lemma getValidAccessToken_never_stale_witness :
  ("at" <> "")%string /\
  exists tk,
    TokenStorage.getToken
      (tokenStorage (serviceHolding (TokenStorage.sampleToken 900000) AUTHENTICATED))
    = TokenStorage.Returns (Some tk) /\
    TokenStorage.accessToken tk = "at"%string /\
    1000 + 300000 < TokenStorage.expiresAt tk.
Proof.
  apply (getValidAccessToken_never_stale (inl "unused"%string) 1000 1000 1000
           (serviceHolding (TokenStorage.sampleToken 900000) AUTHENTICATED)
           (serviceHolding (TokenStorage.sampleToken 900000) AUTHENTICATED)
           "at" []).
  reflexivity.
Defined.

(** X13: When the stored token is stale and the endpoint grants a token that
    lives 300 seconds or less, [getValidAccessToken] performs the
    refresh, stores the new token, ends in AUTHENTICATED and still throws
    'Failed to get access token': the token it has just stored is already
    inside the five-minute expiry buffer. *)
Theorem getValidAccessToken_short_lived_grant
  (tk : TokenStorage.TokenData) (response : TokenResponse)
  (onEntry onRefresh onReturn : Z) (state : AuthState) :
  TokenStorage.refreshToken tk <> ""%string ->
  onEntry + 300000 >= TokenStorage.expiresAt tk ->
  expires_in response <= 300 ->
  onRefresh <= onReturn ->
  exists s' effects,
    getValidAccessToken (inr response) onEntry onRefresh onReturn
      (serviceHolding tk state)
    = (Rejected "Failed to get access token", s', effects) /\
    currentState s' = AUTHENTICATED /\
    count isTokenRequest effects = 1%nat /\
    TokenStorage.getToken (tokenStorage s')
    = TokenStorage.Returns
        (Some {| TokenStorage.accessToken := access_token response;
                 TokenStorage.refreshToken := TokenStorage.refreshToken tk;
                 TokenStorage.expiresAt := onRefresh + expires_in response * 1000;
                 TokenStorage.tokenType := TokenStorage.tokenType tk;
                 TokenStorage.scope := TokenStorage.scope tk;
                 TokenStorage.source := TokenStorage.source tk |}).
Proof.
  intros Hrt Hstale Hshort Hclock.
  unfold getValidAccessToken, serviceHolding. cbn.
  destruct (Z.geb_spec (onEntry + 300000) (TokenStorage.expiresAt tk)) as [_ | Hlt];
    [| lia].
  unfold refreshToken, setState. cbn.
  destruct (String.eqb_spec (TokenStorage.refreshToken tk) "") as [Habs | _];
    [congruence |].
  cbn.
  destruct (Z.geb_spec (onReturn + 300000) (onRefresh + expires_in response * 1000))
    as [_ | Hlt]; [| lia].
  do 2 eexists. repeat split.
Qed.

Lemma getValidAccessToken_short_lived_grant_witness :
  exists s' effects,
    getValidAccessToken
      (inr {| access_token := "ya29.new"; expires_in := 300;
              token_type := "Bearer"; response_scope := "openid" |})
      1000 2000 2000 (serviceHolding (TokenStorage.sampleToken 0) AUTHENTICATED)
    = (Rejected "Failed to get access token", s', effects) /\
    currentState s' = AUTHENTICATED /\
    count isTokenRequest effects = 1%nat.
Proof.
  destruct (getValidAccessToken_short_lived_grant (TokenStorage.sampleToken 0)
              {| access_token := "ya29.new"; expires_in := 300;
                 token_type := "Bearer"; response_scope := "openid" |}
              1000 2000 2000 AUTHENTICATED)
    as (s' & effects & Hrun & Hstate & Hcount & _);
    [discriminate | cbn; lia | cbn; lia | lia |].
  exists s', effects. repeat split; assumption.
Defined.

(** ** Start-up, logout and source conversion *)

(** X14: After [initialize] the service is AUTHENTICATED exactly when the
    vault holds a credential and NOT_AUTHENTICATED otherwise, whatever
    the clock says and whatever the endpoint answers to the refresh of a
    stale token; it never throws and asks the endpoint at most once. *)
Theorem initialize_state_follows_vault
  (secrets : option TokenStorage.Secret) (reply : string + TokenResponse)
  (onEntry onRefresh : Z) (s : GoogleAuthService) :
  exists s' effects,
    initialize secrets reply onEntry onRefresh s = (Fulfilled tt, s', effects) /\
    (count isTokenRequest effects <= 1)%nat /\
    TokenStorage.hasToken (tokenStorage s')
    = TokenStorage.Returns (isAuthenticated s') /\
    (isAuthenticated s' = false -> currentState s' = NOT_AUTHENTICATED).
Proof.
  unfold initialize, isAuthenticated.
  destruct secrets as [[| tk] |]; cbn;
    try (do 2 eexists; split; [reflexivity |]; cbn; repeat split; lia).
  destruct (onEntry + 300000 >=? TokenStorage.expiresAt tk).
  - unfold refreshToken, setState. cbn.
    destruct (TokenStorage.refreshToken tk =? "")%string; cbn;
      [do 2 eexists; split; [reflexivity |]; cbn; repeat split;
       try lia; discriminate |].
    destruct reply as [msg | response]; cbn;
      do 2 eexists; (split; [reflexivity |]); cbn; repeat split;
      try lia; discriminate.
  - cbn. do 2 eexists. split; [reflexivity |]. cbn. repeat split;
      try lia; discriminate.
Qed.

(** When the stored token is stale at start-up and the endpoint refuses
    the refresh, [initialize] swallows the failure: listeners see
    REFRESHING, then TOKEN_EXPIRED, then AUTHENTICATED; the service ends
    AUTHENTICATED with the refusal recorded as last error and the stale
    credential still in the vault. *)
Theorem initialize_swallows_refresh_failure
  (tk : TokenStorage.TokenData) (msg : string) (onEntry onRefresh : Z)
  (s : GoogleAuthService) :
  TokenStorage.refreshToken tk <> ""%string ->
  onEntry + 300000 >= TokenStorage.expiresAt tk ->
  exists s',
    initialize (Some (TokenStorage.Serialized tk)) (inl msg) onEntry onRefresh s
    = (Fulfilled tt, s',
       [StateChanged (currentState s) REFRESHING;
        TokenRequest RefreshTokenGrant;
        StateChanged REFRESHING TOKEN_EXPIRED;
        StateChanged TOKEN_EXPIRED AUTHENTICATED]) /\
    currentState s' = AUTHENTICATED /\
    lastError s' = Some msg /\
    tokenStorage s' = TokenStorage.holding tk.
Proof.
  intros Hrt Hstale. unfold initialize. cbn.
  destruct (Z.geb_spec (onEntry + 300000) (TokenStorage.expiresAt tk)) as [_ | Hlt];
    [| lia].
  unfold refreshToken, setState. cbn.
  destruct (String.eqb_spec (TokenStorage.refreshToken tk) "") as [Habs | _];
    [congruence |].
  cbn. eexists. repeat split.
Qed.

Lemma initialize_swallows_refresh_failure_witness :
  exists s',
    initialize (Some (TokenStorage.Serialized (TokenStorage.sampleToken 0)))
      (inl "Token error: invalid_grant"%string) 1000 1000
      (serviceIn NOT_AUTHENTICATED)
    = (Fulfilled tt, s',
       [StateChanged (currentState (serviceIn NOT_AUTHENTICATED)) REFRESHING;
        TokenRequest RefreshTokenGrant;
        StateChanged REFRESHING TOKEN_EXPIRED;
        StateChanged TOKEN_EXPIRED AUTHENTICATED]) /\
    currentState s' = AUTHENTICATED /\
    lastError s' = Some "Token error: invalid_grant"%string /\
    tokenStorage s' = TokenStorage.holding (TokenStorage.sampleToken 0).
Proof.
  apply (initialize_swallows_refresh_failure (TokenStorage.sampleToken 0)
           "Token error: invalid_grant" 1000 1000 (serviceIn NOT_AUTHENTICATED));
    [discriminate | cbn; lia].
Defined.

(** X15: [logout] on an initialised vault always ends in NOT_AUTHENTICATED
    with the credential, the cached e-mail address and the last error
    gone, from every state; it reports [true] exactly when the state was
    AUTHENTICATED, TOKEN_EXPIRED or REFRESHING; it does not release a
    callback server that a login in progress holds; and the next
    [getValidAccessToken] throws 'Not authenticated' without asking the
    endpoint.  On a vault that was never initialised it throws and
    changes nothing. *)
Theorem logout_clears_session (s : GoogleAuthService) :
  (forall secrets,
     tokenStorage s = {| TokenStorage.secretStorage := Some secrets |} ->
     exists was s',
       logout s = (Fulfilled was, s', [StateChanged (currentState s) NOT_AUTHENTICATED]) /\
       (was = true <->
        currentState s = AUTHENTICATED \/ currentState s = TOKEN_EXPIRED \/
        currentState s = REFRESHING) /\
       currentState s' = NOT_AUTHENTICATED /\
       lastError s' = None /\ userEmail s' = None /\
       callbackServer s' = callbackServer s /\
       TokenStorage.hasToken (tokenStorage s') = TokenStorage.Returns false /\
       forall reply t1 t2 t3,
         getValidAccessToken reply t1 t2 t3 s'
         = (Rejected "Not authenticated", s',
            [StateChanged NOT_AUTHENTICATED NOT_AUTHENTICATED])) /\
  (tokenStorage s = {| TokenStorage.secretStorage := None |} ->
   logout s = (Rejected TokenStorage.notInitialized, s, [])).
Proof.
  split.
  - intros secrets Hvault. unfold logout. rewrite Hvault. cbn.
    unfold setState. cbn. do 2 eexists. split; [reflexivity |].
    split.
    { destruct (currentState s); split; intros H; try reflexivity;
        try discriminate; try tauto;
        destruct H as [H | [H | H]]; discriminate. }
    repeat split.
  - intros Hvault. unfold logout. rewrite Hvault. reflexivity.
Qed.

(** X16: [convertToManualSource] never throws and changes nothing but the
    recorded source: state, refresh token and the access token handed out
    are as before, and afterwards the vault reports the source 'manual'
    whenever it can report a source at all. *)
Theorem convertToManualSource_changes_source_only (s : GoogleAuthService) :
  let s' := fst (convertToManualSource s) in
  currentState s' = currentState s /\
  lastError s' = lastError s /\
  TokenStorage.getRefreshToken (tokenStorage s')
  = TokenStorage.getRefreshToken (tokenStorage s) /\
  (forall now,
     TokenStorage.getAccessToken (tokenStorage s') now
     = TokenStorage.getAccessToken (tokenStorage s) now) /\
  TokenStorage.getTokenSource (tokenStorage s')
  = match TokenStorage.getTokenSource (tokenStorage s) with
    | TokenStorage.Returns _ => TokenStorage.Returns TokenStorage.manual
    | TokenStorage.Throws msg => TokenStorage.Throws msg
    end.
Proof.
  unfold convertToManualSource.
  destruct s as [[[[[| tk] |] |]] cb st le ue]; cbn; repeat split.
Qed.

(** ** Masking tokens in the log *)

Lemma string_length_app (a b : string) :
  String.length (a ++ b) = (String.length a + String.length b)%nat.
Proof. induction a as [| c a IH]; cbn; [reflexivity | rewrite IH; reflexivity]. Qed.

Lemma substring_length (s : string) :
  forall n m, (n + m <= String.length s)%nat ->
    String.length (substring n m s) = m.
Proof.
  induction s as [| c s IH]; intros n m Hle; cbn in Hle.
  - destruct n, m; cbn; lia.
  - destruct n as [| n]; destruct m as [| m]; cbn; try reflexivity.
    + rewrite (IH 0%nat m) by lia. reflexivity.
    + apply (IH n 0%nat). lia.
    + apply (IH n (S m)). lia.
Qed.

Lemma substring_whole (s : string) : substring 0 (String.length s) s = s.
Proof. induction s as [| c s IH]; cbn; [reflexivity | rewrite IH; reflexivity]. Qed.

Lemma substring_split (s : string) :
  forall n m k, (n + m + k <= String.length s)%nat ->
    substring n (m + k) s = (substring n m s ++ substring (n + m) k s)%string.
Proof.
  induction s as [| c s IH]; intros n m k Hle; cbn [String.length] in Hle.
  - assert (n = 0%nat) by lia. assert (m = 0%nat) by lia.
    assert (k = 0%nat) by lia. subst. reflexivity.
  - destruct n as [| n].
    + destruct m as [| m]; [reflexivity |].
      cbn [Nat.add substring append]. f_equal.
      apply (IH 0%nat m k). lia.
    + cbn [Nat.add substring]. apply IH. lia.
Qed.

Lemma substring_split3 (s : string) :
  (14 < String.length s)%nat ->
  s = (substring 0 6 s ++ substring 6 (String.length s - 10) s
       ++ substring (String.length s - 4) 4 s)%string.
Proof.
  intros Hlen.
  rewrite <- (substring_whole s) at 1.
  replace (String.length s) with (6 + ((String.length s - 10) + 4))%nat at 1 by lia.
  rewrite (substring_split s 0 6) by lia.
  rewrite (substring_split s (0 + 6) (String.length s - 10) 4) by lia.
  replace (0 + 6 + (String.length s - 10))%nat with (String.length s - 4)%nat by lia.
  reflexivity.
Qed.

(** X17: [maskToken] never writes more than ten characters of a token to the
    log: a token of at most 14 characters is replaced by "***"
    altogether, and a longer one by 13 characters, of which six are its
    beginning, four its end and three the asterisks. *)
Theorem maskToken_reveals_at_most_ten (token : string) :
  (String.length (maskToken token) <= 13)%nat /\
  ((String.length token <= 14)%nat -> maskToken token = "***"%string) /\
  ((14 < String.length token)%nat ->
   String.length (maskToken token) = 13%nat /\
   exists hidden,
     (5 <= String.length hidden)%nat /\
     token = (substring 0 6 token ++ hidden
              ++ substring (String.length token - 4) 4 token)%string).
Proof.
  unfold maskToken.
  destruct (Nat.leb_spec (String.length token) 14) as [Hshort | Hlong].
  - split; [cbn; lia |]. split; [reflexivity | lia].
  - assert (Hlen : String.length
                     (substring 0 6 token ++ "***"
                      ++ substring (String.length token - 4) 4 token) = 13%nat).
    { rewrite !string_length_app, !substring_length by lia. reflexivity. }
    split; [lia |]. split; [lia |]. intros _. split; [exact Hlen |].
    exists (substring 6 (String.length token - 10) token). split.
    + rewrite substring_length by lia. lia.
    + apply substring_split3. lia.
Qed.

End Auth.

(* ================================================================== *)
(** * Polling engine (quotaService.ts)                                  *)
(* ================================================================== *)

Module Polling.

Import Auth.

Inductive QuotaApiMethod := GET_USER_STATUS | GOOGLE_API.

Definition MAX_RETRY_COUNT : Z := 3.
Definition RETRY_DELAY_MS : Z := 5000.

(** ** Errors and their classification *)

(** A thrown value: its [message], its [code] (Node's system errors), and
    whether it is a [GoogleApiError] whose [needsReauth()] holds (that
    class is declared in the api module). *)
Record Error := {
  message : string;
  code : option string;
  isGoogleApiError : bool;
  needsReauth : bool
}.

Definition lowerAscii (c : ascii) : ascii :=
  let n := nat_of_ascii c in
  if ((65 <=? n) && (n <=? 90))%nat then ascii_of_nat (n + 32) else c.

Fixpoint toLowerCase (s : string) : string :=
  match s with
  | EmptyString => EmptyString
  | String c rest => String (lowerAscii c) (toLowerCase rest)
  end.

(** [s.includes(needle)] *)
Fixpoint includes (s needle : string) : bool :=
  String.prefix needle s
  || match s with
     | EmptyString => false
     | String _ rest => includes rest needle
     end.

Definition codeIs (error : Error) (name : string) : bool :=
  match code error with
  | Some c => String.eqb c name
  | None => false
  end.

Definition isNetworkOrTimeoutError (error : Error) : bool :=
  let message := toLowerCase (message error) in
  includes message "network"
  || includes message "timeout"
  || includes message "econnrefused"
  || includes message "enotfound"
  || includes message "econnreset"
  || includes message "socket hang up"
  || codeIs error "ECONNREFUSED"
  || codeIs error "ENOTFOUND"
  || codeIs error "ECONNRESET"
  || codeIs error "ETIMEDOUT".

Definition isAuthError (error : Error) : bool :=
  (isGoogleApiError error && needsReauth error)
  || (let message := toLowerCase (message error) in
      includes message "not authenticated"
      || includes message "unauthorized"
      || includes message "invalid_grant").

(** The [isExpired] argument computed in the auth branch of the [catch]. *)
Definition isExpiredMessage (error : Error) : bool :=
  let message := toLowerCase (message error) in
  includes message "expired" || includes message "invalid_grant".

Definition plainError (msg : string) : Error :=
  {| message := msg; code := None; isGoogleApiError := false; needsReauth := false |}.

(** ** The service object, the timers of the runtime, the log *)

(** The part of a snapshot the engine looks at. *)
Record QuotaSnapshot := {
  timestamp : Z;
  modelCount : nat;
  planName : option string;
  userEmail : option string
}.

(** Fields of [QuotaService].  A callback field is [true] when a callback
    is registered; [pollingInterval] holds the handle of the interval
    timer the service remembers. *)
Record QuotaService := {
  apiMethod : QuotaApiMethod;
  csrfToken : option string;
  pollingInterval : option nat;
  updateCallback : bool;
  errorCallback : bool;
  statusCallback : bool;
  authStatusCallback : bool;
  staleCallback : bool;
  isFirstAttempt : bool;
  consecutiveErrors : Z;
  retryCount : Z;
  isRetrying : bool;
  isPollingTransition : bool
}.

(** Timers of the JavaScript runtime under a mocked clock: the armed
    [setInterval] timers (handle, period, next due time; their callback is
    always [() => this.fetchQuota()]) and the due times of the pending
    [setTimeout] callbacks (always the delayed retry). *)
Record Timers := {
  clock : Z;
  nextHandle : nat;
  intervals : list (nat * Z * Z);
  timeouts : list Z
}.

(** What the service does to the outside. *)
Inductive Event :=
| FetchStarted                          (* [doFetchQuota] entered *)
| Request                               (* an upstream request is issued *)
| OnStatusFetching                      (* statusCallback('fetching') *)
| OnStatusRetrying (retryCount : Z)     (* statusCallback('retrying', n) *)
| OnQuotaUpdate (snapshot : QuotaSnapshot)
| OnError (error : Error)
| OnAuthStatus (needsLogin isExpired : bool)
| OnStaleStatus (isStale : bool)
| TimeoutSet (delay : Z)                (* setTimeout(retry, delay) *)
| IntervalSet (handle : nat) (ms : Z)   (* setInterval(tick, ms) *)
| IntervalCleared (handle : nat).       (* clearInterval(handle) *)

Record World := {
  svc : QuotaService;
  timers : Timers;
  trace : list (Z * Event)              (* time-stamped log, oldest first *)
}.

(** ** Field updates *)

Definition set_pollingInterval (v : option nat) (s : QuotaService) :=
  {| apiMethod := apiMethod s; csrfToken := csrfToken s; pollingInterval := v;
     updateCallback := updateCallback s; errorCallback := errorCallback s;
     statusCallback := statusCallback s;
     authStatusCallback := authStatusCallback s;
     staleCallback := staleCallback s; isFirstAttempt := isFirstAttempt s;
     consecutiveErrors := consecutiveErrors s; retryCount := retryCount s;
     isRetrying := isRetrying s; isPollingTransition := isPollingTransition s |}.

Definition set_isFirstAttempt (v : bool) (s : QuotaService) :=
  {| apiMethod := apiMethod s; csrfToken := csrfToken s;
     pollingInterval := pollingInterval s;
     updateCallback := updateCallback s; errorCallback := errorCallback s;
     statusCallback := statusCallback s;
     authStatusCallback := authStatusCallback s;
     staleCallback := staleCallback s; isFirstAttempt := v;
     consecutiveErrors := consecutiveErrors s; retryCount := retryCount s;
     isRetrying := isRetrying s; isPollingTransition := isPollingTransition s |}.

Definition set_consecutiveErrors (v : Z) (s : QuotaService) :=
  {| apiMethod := apiMethod s; csrfToken := csrfToken s;
     pollingInterval := pollingInterval s;
     updateCallback := updateCallback s; errorCallback := errorCallback s;
     statusCallback := statusCallback s;
     authStatusCallback := authStatusCallback s;
     staleCallback := staleCallback s; isFirstAttempt := isFirstAttempt s;
     consecutiveErrors := v; retryCount := retryCount s;
     isRetrying := isRetrying s; isPollingTransition := isPollingTransition s |}.

Definition set_retryCount (v : Z) (s : QuotaService) :=
  {| apiMethod := apiMethod s; csrfToken := csrfToken s;
     pollingInterval := pollingInterval s;
     updateCallback := updateCallback s; errorCallback := errorCallback s;
     statusCallback := statusCallback s;
     authStatusCallback := authStatusCallback s;
     staleCallback := staleCallback s; isFirstAttempt := isFirstAttempt s;
     consecutiveErrors := consecutiveErrors s; retryCount := v;
     isRetrying := isRetrying s; isPollingTransition := isPollingTransition s |}.

Definition set_isRetrying (v : bool) (s : QuotaService) :=
  {| apiMethod := apiMethod s; csrfToken := csrfToken s;
     pollingInterval := pollingInterval s;
     updateCallback := updateCallback s; errorCallback := errorCallback s;
     statusCallback := statusCallback s;
     authStatusCallback := authStatusCallback s;
     staleCallback := staleCallback s; isFirstAttempt := isFirstAttempt s;
     consecutiveErrors := consecutiveErrors s; retryCount := retryCount s;
     isRetrying := v; isPollingTransition := isPollingTransition s |}.

Definition set_isPollingTransition (v : bool) (s : QuotaService) :=
  {| apiMethod := apiMethod s; csrfToken := csrfToken s;
     pollingInterval := pollingInterval s;
     updateCallback := updateCallback s; errorCallback := errorCallback s;
     statusCallback := statusCallback s;
     authStatusCallback := authStatusCallback s;
     staleCallback := staleCallback s; isFirstAttempt := isFirstAttempt s;
     consecutiveErrors := consecutiveErrors s; retryCount := retryCount s;
     isRetrying := isRetrying s; isPollingTransition := v |}.

(** ** A state monad over the world *)

Definition M (A : Type) : Type := World -> A * World.

Definition ret {A} (a : A) : M A := fun w => (a, w).

Definition bind {A B} (m : M A) (k : A -> M B) : M B :=
  fun w => let '(a, w') := m w in k a w'.

Notation "x <- m ;; k" := (bind m (fun x => k))
  (at level 61, m at next level, right associativity).
Notation "m ;;; k" := (bind m (fun _ => k))
  (at level 61, right associativity).

Definition this : M QuotaService := fun w => (svc w, w).

Definition modify (f : QuotaService -> QuotaService) : M unit :=
  fun w => (tt, {| svc := f (svc w); timers := timers w; trace := trace w |}).

Definition emit (e : Event) : M unit :=
  fun w => (tt, {| svc := svc w; timers := timers w;
                   trace := trace w ++ [(clock (timers w), e)] |}).

Definition when (b : bool) (m : M unit) : M unit := if b then m else ret tt.

Definition setTimeout (delay : Z) : M unit :=
  (fun w =>
     (tt, {| svc := svc w;
             timers := {| clock := clock (timers w);
                          nextHandle := nextHandle (timers w);
                          intervals := intervals (timers w);
                          timeouts := timeouts (timers w)
                                      ++ [clock (timers w) + delay] |};
             trace := trace w |})) ;;;
  emit (TimeoutSet delay).

(** Node replaces a delay below 1 or above 2^31-1 by 1. *)
Definition period (ms : Z) : Z :=
  if (1 <=? ms) && (ms <=? 2147483647) then ms else 1.

Definition setInterval (ms : Z) : M nat :=
  h <- (fun w =>
     let h := nextHandle (timers w) in
     (h, {| svc := svc w;
            timers := {| clock := clock (timers w);
                         nextHandle := S h;
                         intervals := intervals (timers w)
                                      ++ [(h, period ms, clock (timers w) + period ms)];
                         timeouts := timeouts (timers w) |};
            trace := trace w |})) ;;
  emit (IntervalSet h ms) ;;;
  ret h.

Definition clearInterval (h : nat) : M unit :=
  (fun w =>
     (tt, {| svc := svc w;
             timers := {| clock := clock (timers w);
                          nextHandle := nextHandle (timers w);
                          intervals :=
                            filter (fun t => negb (Nat.eqb (fst (fst t)) h))
                              (intervals (timers w));
                          timeouts := timeouts (timers w) |};
             trace := trace w |})) ;;;
  emit (IntervalCleared h).

(** ** Methods of [QuotaService] *)

Definition stopPolling : M unit :=
  s <- this ;;
  match pollingInterval s with
  | Some h => clearInterval h ;;; modify (set_pollingInterval None)
  | None => ret tt
  end.

(** Outcome of the awaited upstream call of one fetch attempt (local RPC
    request validated and parsed, or the cloud calls). *)
Inductive Upstream :=
| Resolves (snapshot : QuotaSnapshot)
| Rejects (error : Error).

(** Where the [try] block of [doFetchQuota] stands when it first yields. *)
Inductive Pending :=
| ReturnsNull               (* [handleGoogleApiQuota] returned null *)
| Thrown (error : Error)    (* thrown before any request was issued *)
| Awaiting.                 (* a request is in flight *)

(** [if (csrfToken)]: [undefined] and the empty string are falsy. *)
Definition truthy (s : option string) : bool :=
  match s with
  | Some (String _ _) => true
  | _ => false
  end.

Definition missingCsrfToken : Error := plainError "Missing CSRF token".

(** [makeGetUserStatusRequest] / [makeRequest] up to the first request. *)
Definition makeRequest_check (csrfToken : option string) : M Pending :=
  if truthy csrfToken then emit Request ;;; ret Awaiting
  else ret (Thrown missingCsrfToken).

(** [handleGoogleApiQuota] up to the call of [fetchQuotaViaGoogleApi]. *)
Definition handleGoogleApiQuota_check (auth : AuthState) : M Pending :=
  s <- this ;;
  match auth with
  | NOT_AUTHENTICATED =>
      when (authStatusCallback s) (emit (OnAuthStatus true false)) ;;;
      modify (set_isFirstAttempt false) ;;;
      ret ReturnsNull
  | TOKEN_EXPIRED =>
      when (authStatusCallback s) (emit (OnAuthStatus true true)) ;;;
      modify (set_isFirstAttempt false) ;;;
      ret ReturnsNull
  | AUTHENTICATING | REFRESHING => ret ReturnsNull
  | AUTHENTICATED | ERROR => emit Request ;;; ret Awaiting
  end.

(** The synchronous start of [doFetchQuota]. *)
Definition doFetchQuota_try (auth : AuthState) : M Pending :=
  s <- this ;;
  emit FetchStarted ;;;
  when (statusCallback s && isFirstAttempt s) (emit OnStatusFetching) ;;;
  match apiMethod s with
  | GOOGLE_API => handleGoogleApiQuota_check auth
  | GET_USER_STATUS => makeRequest_check (csrfToken s)
  end.

(** The end of the [try] block, after a snapshot was obtained. *)
Definition doFetchQuota_success (snapshot : QuotaSnapshot) : M unit :=
  modify (set_consecutiveErrors 0) ;;;
  modify (set_retryCount 0) ;;;
  modify (set_isFirstAttempt false) ;;;
  s <- this ;;
  when (match apiMethod s with GOOGLE_API => staleCallback s | _ => false end)
    (emit (OnStaleStatus false)) ;;;
  when (updateCallback s) (emit (OnQuotaUpdate snapshot)).

Definition isGoogleApi (m : QuotaApiMethod) : bool :=
  match m with GOOGLE_API => true | GET_USER_STATUS => false end.

(** The [catch (error)] block of [doFetchQuota]. *)
Definition doFetchQuota_catch (error : Error) : M unit :=
  s <- this ;;
  modify (set_consecutiveErrors (consecutiveErrors s + 1)) ;;;
  if isGoogleApi (apiMethod s) && isAuthError error then
    when (authStatusCallback s)
      (emit (OnAuthStatus true (isExpiredMessage error))) ;;;
    stopPolling ;;;
    modify (set_isRetrying false) ;;;
    modify (set_retryCount 0) ;;;
    modify (set_isFirstAttempt false)
  else if isGoogleApi (apiMethod s) && isNetworkOrTimeoutError error then
    when (staleCallback s) (emit (OnStaleStatus true)) ;;;
    modify (set_retryCount 0) ;;;
    modify (set_isFirstAttempt false)
  else if retryCount s <? MAX_RETRY_COUNT then
    modify (set_retryCount (retryCount s + 1)) ;;;
    modify (set_isRetrying true) ;;;
    when (statusCallback s) (emit (OnStatusRetrying (retryCount s + 1))) ;;;
    setTimeout RETRY_DELAY_MS
  else
    stopPolling ;;;
    when (errorCallback s) (emit (OnError error)).

(** [fetchQuotaViaGoogleApi] once its calls have settled: the callbacks it
    fires before returning or rethrowing. *)
Definition fetchQuotaViaGoogleApi_settle (up : Upstream) : M unit :=
  s <- this ;;
  match up with
  | Resolves _ => when (authStatusCallback s) (emit (OnAuthStatus false false))
  | Rejects error =>
      when (authStatusCallback s && isGoogleApiError error && needsReauth error)
        (emit (OnAuthStatus true true))
  end.

(** The rest of [doFetchQuota], once the pending request has settled. *)
Definition doFetchQuota_settle (p : Pending) (up : Upstream) : M unit :=
  match p with
  | ReturnsNull => ret tt
  | Thrown error => doFetchQuota_catch error
  | Awaiting =>
      s <- this ;;
      when (isGoogleApi (apiMethod s)) (fetchQuotaViaGoogleApi_settle up) ;;;
      match up with
      | Resolves snapshot => doFetchQuota_success snapshot
      | Rejects error => doFetchQuota_catch error
      end
  end.

(** [doFetchQuota] as one step: the awaited call settles before any other
    callback of the event loop runs (a mocked upstream, a request that
    fails at once).  The interleavings in which something runs while the
    call is pending are obtained from [doFetchQuota_try] and
    [doFetchQuota_settle]. *)
Definition doFetchQuota (auth : AuthState) (up : Upstream) : M unit :=
  p <- doFetchQuota_try auth ;;
  doFetchQuota_settle p up.

Definition fetchQuota (auth : AuthState) (up : Upstream) : M unit :=
  s <- this ;;
  if isRetrying s then ret tt     (* currently retrying: skip this run *)
  else doFetchQuota auth up.

Definition quickRefresh (auth : AuthState) (up : Upstream) : M unit :=
  doFetchQuota auth up.

(** [fetchQuota] up to the point where it first yields ([None]: it
    returned because a retry is pending), and its continuation. *)
Definition fetchQuota_try (auth : AuthState) : M (option Pending) :=
  s <- this ;;
  if isRetrying s then ret None
  else p <- doFetchQuota_try auth ;; ret (Some p).

Definition fetchQuota_settle (p : option Pending) (up : Upstream) : M unit :=
  match p with
  | None => ret tt
  | Some p => doFetchQuota_settle p up
  end.

Definition authRequired (auth : AuthState) : bool :=
  match auth with
  | NOT_AUTHENTICATED | TOKEN_EXPIRED => true
  | _ => false
  end.

Definition isTokenExpiredState (auth : AuthState) : bool :=
  match auth with TOKEN_EXPIRED => true | _ => false end.

(** [startPolling] up to [await this.fetchQuota()]: [true] when the call
    took the transition lock and goes on to fetch, [false] when it
    returned. *)
Definition startPolling_enter (auth : AuthState) : M bool :=
  s <- this ;;
  if isGoogleApi (apiMethod s) && authRequired auth then
    when (authStatusCallback s)
      (emit (OnAuthStatus true (isTokenExpiredState auth))) ;;;
    stopPolling ;;;
    modify (set_consecutiveErrors 0) ;;;
    modify (set_retryCount 0) ;;;
    modify (set_isRetrying false) ;;;
    ret false
  else if isPollingTransition s then ret false
  else
    modify (set_isPollingTransition true) ;;;
    stopPolling ;;;
    ret true.

(** [startPolling] after the awaited fetch: arm the timer, release the lock. *)
Definition startPolling_resume (intervalMs : Z) : M unit :=
  h <- setInterval intervalMs ;;
  modify (set_pollingInterval (Some h)) ;;;
  modify (set_isPollingTransition false).

Definition startPolling (intervalMs : Z) (auth : AuthState) (up : Upstream)
  : M unit :=
  entered <- startPolling_enter auth ;;
  if entered then fetchQuota auth up ;;; startPolling_resume intervalMs
  else ret tt.

Definition retryFromError (pollingInterval : Z) (auth : AuthState)
  (up : Upstream) : M unit :=
  modify (set_consecutiveErrors 0) ;;;
  modify (set_retryCount 0) ;;;
  modify (set_isRetrying false) ;;;
  modify (set_isFirstAttempt true) ;;;
  stopPolling ;;;
  fetchQuota auth up ;;;
  s <- this ;;
  if consecutiveErrors s =? 0 then
    h <- setInterval pollingInterval ;;
    modify (set_pollingInterval (Some h))
  else ret tt.

(** ** The timers firing *)

(** The callback given to [setTimeout] in the [catch] block. *)
Definition retryCallback (auth : AuthState) (up : Upstream) : M unit :=
  modify (set_isRetrying false) ;;;
  fetchQuota auth up.

(** The callback given to [setInterval]. *)
Definition tickCallback (auth : AuthState) (up : Upstream) : M unit :=
  fetchQuota auth up.

(** What the outside does at each instant: the authentication state, the
    outcome of an upstream call started then, and which of a timeout and
    an interval tick due at the same instant runs first. *)
Record Env := {
  authAt : Z -> AuthState;
  upstreamAt : Z -> Upstream;
  timeoutFirst : Z -> bool
}.

Fixpoint earliestTimeout (due : list Z) : option Z :=
  match due with
  | [] => None
  | t :: rest =>
      match earliestTimeout rest with
      | Some t' => if t' <? t then Some t' else Some t
      | None => Some t
      end
  end.

Fixpoint earliestInterval (armed : list (nat * Z * Z)) : option (nat * Z * Z) :=
  match armed with
  | [] => None
  | i :: rest =>
      match earliestInterval rest with
      | Some i' => if snd i' <? snd i then Some i' else Some i
      | None => Some i
      end
  end.

Fixpoint removeFirst (t : Z) (due : list Z) : list Z :=
  match due with
  | [] => []
  | t' :: rest => if t' =? t then rest else t' :: removeFirst t rest
  end.

(** The pending timeout due at [t] fires. *)
Definition fireTimeout (env : Env) (t : Z) : M unit :=
  (fun w =>
     (tt, {| svc := svc w;
             timers := {| clock := t;
                          nextHandle := nextHandle (timers w);
                          intervals := intervals (timers w);
                          timeouts := removeFirst t (timeouts (timers w)) |};
             trace := trace w |})) ;;;
  retryCallback (authAt env t) (upstreamAt env t).

(** The interval timer [h] fires at its due time [t] and is re-armed. *)
Definition fireInterval (env : Env) (h : nat) (p t : Z) : M unit :=
  (fun w =>
     (tt, {| svc := svc w;
             timers := {| clock := t;
                          nextHandle := nextHandle (timers w);
                          intervals :=
                            map (fun i => if Nat.eqb (fst (fst i)) h
                                          then (h, p, t + p) else i)
                              (intervals (timers w));
                          timeouts := timeouts (timers w) |};
             trace := trace w |})) ;;;
  tickCallback (authAt env t) (upstreamAt env t).

(** One turn of the event loop under the mocked clock: the clock jumps to
    the earliest due timer, which fires, and the fetch its callback starts
    settles within the turn; [None] when no timer is armed. *)
Definition step (env : Env) (w : World) : option World :=
  match earliestTimeout (timeouts (timers w)),
        earliestInterval (intervals (timers w)) with
  | None, None => None
  | Some t, None => Some (snd (fireTimeout env t w))
  | None, Some (h, p, d) => Some (snd (fireInterval env h p d w))
  | Some t, Some (h, p, d) =>
      if (t <? d) || ((t =? d) && timeoutFirst env t)
      then Some (snd (fireTimeout env t w))
      else Some (snd (fireInterval env h p d w))
  end.

(** [n] turns of the event loop (fewer when the timers run out). *)
Fixpoint run (env : Env) (n : nat) (w : World) : World :=
  match n with
  | O => w
  | S n' =>
      match step env w with
      | Some w' => run env n' w'
      | None => w
      end
  end.

(** ** Reading the log *)

Definition retriesScheduled (log : list (Z * Event)) : list (Z * Z) :=
  flat_map (fun '(t, e) => match e with TimeoutSet d => [(t, d)] | _ => [] end) log.

Definition fetchTimes (log : list (Z * Event)) : list Z :=
  flat_map (fun '(t, e) => match e with FetchStarted => [t] | _ => [] end) log.

Definition errorsSurfaced (log : list (Z * Event)) : list (Z * Error) :=
  flat_map (fun '(t, e) => match e with OnError err => [(t, err)] | _ => [] end) log.

Definition requestTimes (log : list (Z * Event)) : list Z :=
  flat_map (fun '(t, e) => match e with Request => [t] | _ => [] end) log.

(** A freshly constructed service ([new QuotaService(port, csrfToken)])
    with every callback registered, at time [t0], no timer armed. *)
Definition freshService (token : option string) : QuotaService :=
  {| apiMethod := GET_USER_STATUS; csrfToken := token; pollingInterval := None;
     updateCallback := true; errorCallback := true; statusCallback := true;
     authStatusCallback := true; staleCallback := true;
     isFirstAttempt := true; consecutiveErrors := 0; retryCount := 0;
     isRetrying := false; isPollingTransition := false |}.

Definition boot (s : QuotaService) (t0 : Z) : World :=
  {| svc := s;
     timers := {| clock := t0; nextHandle := 0; intervals := []; timeouts := [] |};
     trace := [] |}.


(** ** Vocabulary of the statements *)

(** Events logged at one instant; an event fired only when a callback is
    registered. *)
Definition stamp (t : Z) (events : list Event) : list (Z * Event) :=
  map (pair t) events.

Definition opt (b : bool) (e : Event) : list Event := if b then [e] else [].

Definition cleared (handle : option nat) : list Event :=
  match handle with
  | Some h => [IntervalCleared h]
  | None => []
  end.

(** The log entries with which every fetch attempt begins. *)
Definition fetchPrologue (s : QuotaService) : list Event :=
  [FetchStarted] ++ opt (statusCallback s && isFirstAttempt s) OnStatusFetching.

(** A service in GOOGLE_API mode that is polling: interval timer 0 armed
    with a period of one minute, every callback registered. *)
Definition cloudPolling (firstAttempt : bool) (errors retries : Z) : World :=
  {| svc := {| apiMethod := GOOGLE_API; csrfToken := None;
               pollingInterval := Some 0%nat;
               updateCallback := true; errorCallback := true;
               statusCallback := true; authStatusCallback := true;
               staleCallback := true; isFirstAttempt := firstAttempt;
               consecutiveErrors := errors; retryCount := retries;
               isRetrying := false; isPollingTransition := false |};
     timers := {| clock := 1000; nextHandle := 1;
                  intervals := [(0%nat, 60000, 61000)]; timeouts := [] |};
     trace := [] |}.

(** ** Failure of a local fetch: the bounded retry *)

(** The world after the [catch] block scheduled a delayed retry. *)
Definition retryScheduled (w : World) : World :=
  let s := svc w in
  let now := clock (timers w) in
  {| svc := set_isRetrying true
              (set_retryCount (retryCount s + 1)
                 (set_consecutiveErrors (consecutiveErrors s + 1) s));
     timers := {| clock := now; nextHandle := nextHandle (timers w);
                  intervals := intervals (timers w);
                  timeouts := timeouts (timers w) ++ [now + RETRY_DELAY_MS] |};
     trace := trace w
              ++ stamp now (opt (statusCallback s) (OnStatusRetrying (retryCount s + 1))
                            ++ [TimeoutSet RETRY_DELAY_MS]) |}.

(** The world after the [catch] block gave up. *)
Definition gaveUp (error : Error) (w : World) : World :=
  let s := svc w in
  let now := clock (timers w) in
  {| svc := set_pollingInterval None
              (set_consecutiveErrors (consecutiveErrors s + 1) s);
     timers := {| clock := now; nextHandle := nextHandle (timers w);
                  intervals :=
                    match pollingInterval s with
                    | Some h => filter (fun t => negb (Nat.eqb (fst (fst t)) h))
                                  (intervals (timers w))
                    | None => intervals (timers w)
                    end;
                  timeouts := timeouts (timers w) |};
     trace := trace w
              ++ stamp now (cleared (pollingInterval s)
                            ++ opt (errorCallback s) (OnError error)) |}.



Definition logged (events : list Event) (w : World) : World :=
  {| svc := svc w; timers := timers w;
     trace := trace w ++ stamp (clock (timers w)) events |}.





(** ** Three failures in a row *)



(** No interval timer is armed and the service remembers none; [lock],
    when given, is the value of the transition lock. *)
Definition Idle (lock : option bool) (w : World) : Prop :=
  intervals (timers w) = [] /\ pollingInterval (svc w) = None /\
  match lock with
  | Some b => isPollingTransition (svc w) = b
  | None => True
  end.

Definition preserves {A : Type} (P : World -> Prop) (m : M A) : Prop :=
  forall w, P w -> P (snd (m w)).

(** Every armed interval timer is the one the service remembers. *)
Definition leakFree (w : World) : Prop :=
  forall i, In i (intervals (timers w)) ->
            pollingInterval (svc w) = Some (fst (fst i)).

(** A service in GOOGLE_API mode whose first [startPolling] call holds the
    transition lock while its fetch is in flight; two earlier attempts had
    failed. *)
Definition cloudStarting : World :=
  {| svc := {| apiMethod := GOOGLE_API; csrfToken := None;
               pollingInterval := None;
               updateCallback := true; errorCallback := true;
               statusCallback := true; authStatusCallback := true;
               staleCallback := true; isFirstAttempt := false;
               consecutiveErrors := 2; retryCount := 2;
               isRetrying := false; isPollingTransition := true |};
     timers := {| clock := 1000; nextHandle := 1; intervals := []; timeouts := [] |};
     trace := [(1000, FetchStarted); (1000, Request)] |}.

(** ** The retry budget as an invariant *)

(** A retry number shown to the status callback. *)
Definition withinBudget (e : Event) : Prop :=
  match e with
  | OnStatusRetrying n => 1 <= n <= MAX_RETRY_COUNT
  | _ => True
  end.

(** The retry counter is within the budget, and so is every retry number
    that was ever reported. *)
Definition Bounded (w : World) : Prop :=
  0 <= retryCount (svc w) <= MAX_RETRY_COUNT /\
  Forall (fun entry => withinBudget (snd entry)) (trace w).

(** A service at rest: no timer of either kind, no handle remembered. *)
Definition atRest (w : World) : Prop :=
  intervals (timers w) = [] /\ timeouts (timers w) = [] /\
  pollingInterval (svc w) = None.

(** States in which the cloud fetch returns without asking upstream. *)
Definition noSession (auth : AuthState) : bool :=
  match auth with
  | AUTHENTICATED | ERROR => false
  | _ => true
  end.

Definition authStatusTimes (log : list (Z * Event)) : list Z :=
  flat_map (fun '(t, e) => match e with OnAuthStatus _ _ => [t] | _ => [] end) log.

(** ** Ports and the HTTPS-to-HTTP fallback of [makeRequest] *)

(** The two port fields of [QuotaService]. *)
Record Endpoint := { port : Z; httpPort : option Z }.

(** [a ?? b] *)
Definition nullish {A : Type} (a : option A) (b : A) : A :=
  match a with Some x => x | None => b end.

(** The port assignments of [constructor(port, csrfToken, httpPort)]. *)
Definition newEndpoint (port : Z) (httpPort : option Z) : Endpoint :=
  {| port := port; httpPort := Some (nullish httpPort port) |}.

Definition setPort (p : Z) (e : Endpoint * QuotaService)
  : Endpoint * QuotaService :=
  ({| port := p; httpPort := Some (nullish (httpPort (fst e)) p) |},
   set_retryCount 0 (set_consecutiveErrors 0 (snd e))).

Definition setPorts (connectPort : Z) (http : option Z)
  (e : Endpoint * QuotaService) : Endpoint * QuotaService :=
  ({| port := connectPort; httpPort := Some (nullish http connectPort) |},
   set_retryCount 0 (set_consecutiveErrors 0 (snd e))).

Inductive PortUpdate :=
| SetPort (p : Z)
| SetPorts (connectPort : Z) (http : option Z).

Definition update (e : Endpoint * QuotaService) (u : PortUpdate)
  : Endpoint * QuotaService :=
  match u with
  | SetPort p => setPort p e
  | SetPorts c h => setPorts c h e
  end.

Inductive Scheme := Https | Http.

(** [httpPort !== undefined && (error.code === 'EPROTO' ||
    msg.includes('wrong_version_number'))] *)
Definition shouldRetryHttp (httpPort : option Z) (error : Error) : bool :=
  match httpPort with
  | Some _ =>
      codeIs error "EPROTO"
      || includes (toLowerCase (message error)) "wrong_version_number"
  | None => false
  end.

(** [makeRequest]: [doRequest] says how a request of a given scheme to a
    given port ends; the result lists the requests issued, in order. *)
Definition makeRequest {R : Type} (port : Z) (httpPort : option Z)
  (csrfToken : option string) (doRequest : Scheme -> Z -> R + Error)
  : list (Scheme * Z) * (R + Error) :=
  if truthy csrfToken then
    match doRequest Https port with
    | inl response => ([(Https, port)], inl response)
    | inr error =>
        if shouldRetryHttp httpPort error then
          match httpPort with
          | Some h => ([(Https, port); (Http, h)], doRequest Http h)
          | None => ([(Https, port)], inr error)
          end
        else ([(Https, port)], inr error)
    end
  else ([], inr missingCsrfToken).

(** ** Cloud mode: what else acts on the service *)

(** A freshly constructed service switched to GOOGLE_API, with every
    callback registered. *)
Definition cloudService : QuotaService :=
  {| apiMethod := GOOGLE_API; csrfToken := None; pollingInterval := None;
     updateCallback := true; errorCallback := true; statusCallback := true;
     authStatusCallback := true; staleCallback := true;
     isFirstAttempt := true; consecutiveErrors := 0; retryCount := 0;
     isRetrying := false; isPollingTransition := false |}.

(** What the extension's auth-state listener (extension.ts,
    [onAuthStateChange]) does to the quota service when, in GOOGLE_API
    mode, the state becomes NOT_AUTHENTICATED or TOKEN_EXPIRED: it calls
    [stopPolling()] (its other calls act on the status bar and on the
    local-token timer).  [setState] runs the listener synchronously, so
    this happens while the cloud call that changed the state is still
    pending: a token refresh that fails moves the state to TOKEN_EXPIRED
    before the failure reaches [doFetchQuota]. *)
Definition onSessionLost : M unit := stopPolling.

(** The timer bookkeeping of the runtime when the timeout due at [t]
    fires, before its callback runs. *)
Definition expire (t : Z) : M unit :=
  fun w =>
    (tt, {| svc := svc w;
            timers := {| clock := t;
                         nextHandle := nextHandle (timers w);
                         intervals := intervals (timers w);
                         timeouts := removeFirst t (timeouts (timers w)) |};
            trace := trace w |}).

(** An API failure that is neither an authentication nor a network
    failure, a refused connection, and a rejected credential. *)
Definition serverError : Error := plainError "HTTP error: 500".

Definition connectionRefused : Error :=
  {| message := "connect ECONNREFUSED 142.250.0.1:443";
     code := Some "ECONNREFUSED"%string;
     isGoogleApiError := false; needsReauth := false |}.

Definition unauthorized : Error :=
  {| message := "Request failed with status 401";
     code := None; isGoogleApiError := true; needsReauth := true |}.

(** The upstream answers with server errors before [t] and refuses
    connections from [t] on; the session stays AUTHENTICATED. *)
Definition outageFrom (t : Z) : Env :=
  {| authAt := fun _ => AUTHENTICATED;
     upstreamAt := fun now =>
       if now <? t then Rejects serverError else Rejects connectionRefused;
     timeoutFirst := fun _ => true |}.

(** A cloud service started at time 1000 with a period of one minute
    whose first fetch and first retry met server errors: the world in
    which the callback of the second retry, at time 11000, has cleared
    the retry flag and is about to fetch. *)
Definition secondRetryBegins : World :=
  snd ((expire 11000 ;;; modify (set_isRetrying false))
         (run (outageFrom 11000) 1
            (snd (startPolling 60000 AUTHENTICATED (Rejects serverError)
                    (boot cloudService 1000))))).

(** The world after the [catch] block handled an authentication failure
    of a cloud call that settled in [w]. *)
Definition sessionRejected (error : Error) (w : World) : World :=
  let s := svc w in
  let now := clock (timers w) in
  {| svc := set_isFirstAttempt false
              (set_retryCount 0
                 (set_isRetrying false
                    (set_pollingInterval None
                       (set_consecutiveErrors (consecutiveErrors s + 1) s))));
     timers := {| clock := now; nextHandle := nextHandle (timers w);
                  intervals :=
                    match pollingInterval s with
                    | Some h => filter (fun t => negb (Nat.eqb (fst (fst t)) h))
                                  (intervals (timers w))
                    | None => intervals (timers w)
                    end;
                  timeouts := timeouts (timers w) |};
     trace := trace w
              ++ stamp now
                   (opt (authStatusCallback s
                         && isGoogleApiError error && needsReauth error)
                      (OnAuthStatus true true)
                    ++ opt (authStatusCallback s)
                         (OnAuthStatus true (isExpiredMessage error))
                    ++ cleared (pollingInterval s)) |}.

(** The world after the [catch] block handled a network failure of a
    cloud call that settled in [w]. *)
Definition markedStale (w : World) : World :=
  let s := svc w in
  {| svc := set_isFirstAttempt false
              (set_retryCount 0
                 (set_consecutiveErrors (consecutiveErrors s + 1) s));
     timers := timers w;
     trace := trace w
              ++ stamp (clock (timers w))
                   (opt (staleCallback s) (OnStaleStatus true)) |}.

(** The log entries with which a cloud fetch that asks upstream begins. *)
Definition cloudAttemptLog (s : QuotaService) : list Event :=
  fetchPrologue s ++ [Request].

(** ** The event loop with requests in flight *)

(** Who awaits a fetch: [startPolling], which arms the interval timer when
    the fetch has settled, or the callback of a timer, which does nothing
    more. *)
Inductive Caller :=
| StartPolling (intervalMs : Z)
| TimerCallback.

(** A request that was issued and has not settled yet. *)
Record Flight := {
  issuedAt : Z;
  settlesAt : Z;
  awaitedBy : Caller
}.

(** The service, the timers and the log, together with the requests in
    flight (oldest first). *)
Record Loop := {
  world : World;
  flights : list Flight
}.

(** The outside of the service when requests take time: [latency n] is the
    number of milliseconds after which the outcome of the [n]-th request
    (counted from 0) is known, and [settleFirst t] says whether, of a
    request that settles at [t] and a timer due at [t], the request is
    handled first. *)
Record Net := {
  outside : Env;
  latency : nat -> Z;
  settleFirst : Z -> bool
}.

(** The clock reaches [t]. *)
Definition advance (t : Z) : M unit :=
  fun w =>
    (tt, {| svc := svc w;
            timers := {| clock := t;
                         nextHandle := nextHandle (timers w);
                         intervals := intervals (timers w);
                         timeouts := timeouts (timers w) |};
            trace := trace w |}).

(** The timer bookkeeping of the runtime when the interval timer [h] fires
    at its due time [t], before its callback runs. *)
Definition rearm (h : nat) (p t : Z) : M unit :=
  fun w =>
    (tt, {| svc := svc w;
            timers := {| clock := t;
                         nextHandle := nextHandle (timers w);
                         intervals :=
                           map (fun i => if Nat.eqb (fst (fst i)) h
                                         then (h, p, t + p) else i)
                             (intervals (timers w));
                         timeouts := timeouts (timers w) |};
            trace := trace w |}).

(** What the caller of [fetchQuota] does once the fetch has returned. *)
Definition resume (c : Caller) : M unit :=
  match c with
  | StartPolling intervalMs => startPolling_resume intervalMs
  | TimerCallback => ret tt
  end.

(** [fetchQuota] is called on behalf of [c].  When it issues a request the
    call stays pending until the request settles; when it returns without
    asking upstream (a retry is pending, no CSRF token, no session), the
    rest runs before any other callback of the event loop. *)
Definition launch (net : Net) (c : Caller) (l : Loop) : Loop :=
  let w := world l in
  let now := clock (timers w) in
  let '(p, w') := fetchQuota_try (authAt (outside net) now) w in
  match p with
  | Some Awaiting =>
      {| world := w';
         flights :=
           flights l
           ++ [{| issuedAt := now;
                  settlesAt :=
                    now + Z.max 0 (latency net (List.length (requestTimes (trace w))));
                  awaitedBy := c |}] |}
  | _ =>
      {| world := snd ((fetchQuota_settle p (upstreamAt (outside net) now) ;;;
                        resume c) w');
         flights := flights l |}
  end.

(** The request in flight that settles first (the older one of two that
    settle together), and the others. *)
Fixpoint popEarliest (fs : list Flight) : option (Flight * list Flight) :=
  match fs with
  | [] => None
  | f :: rest =>
      match popEarliest rest with
      | Some (f', rest') =>
          if settlesAt f' <? settlesAt f then Some (f', f :: rest')
          else Some (f, rest)
      | None => Some (f, [])
      end
  end.

(** The request [f] settles: [doFetchQuota] runs to its end, then the
    caller goes on. *)
Definition settle (net : Net) (f : Flight) (rest : list Flight) (l : Loop)
  : Loop :=
  {| world :=
       snd ((advance (settlesAt f) ;;;
             doFetchQuota_settle Awaiting (upstreamAt (outside net) (issuedAt f)) ;;;
             resume (awaitedBy f)) (world l));
     flights := rest |}.

Inductive Due :=
| TimeoutDue (t : Z)
| IntervalDue (h : nat) (p t : Z).

Definition dueAt (d : Due) : Z :=
  match d with
  | TimeoutDue t => t
  | IntervalDue _ _ t => t
  end.

(** The timer that fires next, chosen as [step] chooses it. *)
Definition dueTimer (env : Env) (tm : Timers) : option Due :=
  match earliestTimeout (timeouts tm), earliestInterval (intervals tm) with
  | None, None => None
  | Some t, None => Some (TimeoutDue t)
  | None, Some (h, p, d) => Some (IntervalDue h p d)
  | Some t, Some (h, p, d) =>
      if (t <? d) || ((t =? d) && timeoutFirst env t)
      then Some (TimeoutDue t)
      else Some (IntervalDue h p d)
  end.

(** A timer fires.  The callback of a delayed retry clears [isRetrying]
    and calls [fetchQuota]; the callback of the interval timer calls
    [fetchQuota].  Neither waits for an earlier fetch. *)
Definition fires (net : Net) (d : Due) (l : Loop) : Loop :=
  match d with
  | TimeoutDue t =>
      launch net TimerCallback
        {| world := snd ((expire t ;;; modify (set_isRetrying false)) (world l));
           flights := flights l |}
  | IntervalDue h p t =>
      launch net TimerCallback
        {| world := snd (rearm h p t (world l)); flights := flights l |}
  end.

(** One turn of the event loop: of the requests in flight and the armed
    timers, the earliest event is handled; [None] when nothing is left. *)
Definition turn (net : Net) (l : Loop) : option Loop :=
  match popEarliest (flights l), dueTimer (outside net) (timers (world l)) with
  | None, None => None
  | Some (f, rest), None => Some (settle net f rest l)
  | None, Some d => Some (fires net d l)
  | Some (f, rest), Some d =>
      if (settlesAt f <? dueAt d)
         || ((settlesAt f =? dueAt d) && settleFirst net (dueAt d))
      then Some (settle net f rest l)
      else Some (fires net d l)
  end.

Fixpoint turns (net : Net) (n : nat) (l : Loop) : Loop :=
  match n with
  | O => l
  | S n' =>
      match turn net l with
      | Some l' => turns net n' l'
      | None => l
      end
  end.


(** No timer fires while a request is in flight: when one is, the next
    turn of the loop is the one in which it settles. *)
Definition undisturbed (net : Net) (l : Loop) : bool :=
  match popEarliest (flights l), dueTimer (outside net) (timers (world l)) with
  | Some (f, _), Some d =>
      (settlesAt f <? dueAt d)
      || ((settlesAt f =? dueAt d) && settleFirst net (dueAt d))
  | _, _ => true
  end.














Example network_classification :
  isNetworkOrTimeoutError (plainError "Request timed out") = false /\
  isNetworkOrTimeoutError (plainError "connect ETIMEDOUT 142.250.1.1:443") = false /\
  isNetworkOrTimeoutError (plainError "Network timeout") = true /\
  isNetworkOrTimeoutError (plainError "connect ECONNREFUSED 127.0.0.1:443") = true.
Proof. repeat split. Qed.

Example auth_errors :
  isAuthError (plainError "Not authenticated") = true /\
  isExpiredMessage (plainError "Not authenticated") = false /\
  isAuthError (plainError "Token error: invalid_grant - Token has been expired or revoked.") = true /\
  isExpiredMessage (plainError "Token error: invalid_grant - Token has been expired or revoked.") = true /\
  isAuthError (plainError "HTTP error: 500") = false.
Proof. repeat split. Qed.

(** ** Failure of a cloud fetch *)

Ltac break_world w :=
  let s := fresh "s" in
  let tm := fresh "tm" in
  let tr := fresh "tr" in
  destruct w as [s tm tr]; destruct s; destruct tm;
  cbn [svc timers trace apiMethod csrfToken pollingInterval updateCallback
       errorCallback statusCallback authStatusCallback staleCallback
       isFirstAttempt consecutiveErrors retryCount isRetrying
       isPollingTransition clock nextHandle intervals timeouts] in *.

Ltac run_monad :=
  cbv [doFetchQuota doFetchQuota_try doFetchQuota_settle doFetchQuota_catch
       doFetchQuota_success fetchQuotaViaGoogleApi_settle
       handleGoogleApiQuota_check makeRequest_check fetchQuota quickRefresh
       startPolling startPolling_enter startPolling_resume retryFromError
       retryCallback tickCallback fireTimeout fireInterval
       stopPolling setTimeout setInterval clearInterval
       bind ret this modify emit when isGoogleApi
       set_pollingInterval set_isFirstAttempt set_consecutiveErrors
       set_retryCount set_isRetrying set_isPollingTransition
       svc timers trace apiMethod csrfToken pollingInterval updateCallback
       errorCallback statusCallback authStatusCallback staleCallback
       isFirstAttempt consecutiveErrors retryCount isRetrying
       isPollingTransition clock nextHandle intervals timeouts
       fst snd andb orb negb].

Lemma isAuthError_reauth (error : Error) :
  isAuthError error = false -> isGoogleApiError error && needsReauth error = false.
Proof. unfold isAuthError. intros H. apply orb_false_iff in H. apply H. Qed.

(** ** Cloud mode: a rejected session *)

Lemma cloud_fetch_asks (w : World) (auth : AuthState) :
  apiMethod (svc w) = GOOGLE_API ->
  auth = AUTHENTICATED \/ auth = ERROR ->
  doFetchQuota_try auth w = (Awaiting, logged (cloudAttemptLog (svc w)) w).
Proof.
  intros Hmode Hauth. break_world w. subst apiMethod0.
  unfold logged, cloudAttemptLog, fetchPrologue.
  destruct Hauth; subst auth; run_monad;
    destruct statusCallback0, isFirstAttempt0; cbn;
    rewrite <- ?app_assoc; reflexivity.
Qed.

Lemma settle_auth_error (w : World) (error : Error) :
  apiMethod (svc w) = GOOGLE_API -> isAuthError error = true ->
  doFetchQuota_settle Awaiting (Rejects error) w = (tt, sessionRejected error w).
Proof.
  intros Hmode Herr. break_world w. subst apiMethod0.
  unfold sessionRejected. run_monad. rewrite Herr.
  destruct authStatusCallback0, (isGoogleApiError error), (needsReauth error),
    pollingInterval0; cbn; rewrite <- ?app_assoc, ?app_nil_r; reflexivity.
Qed.

Lemma resume_arms (ms : Z) (w : World) :
  let w' := snd (startPolling_resume ms w) in
  pollingInterval (svc w') = Some (nextHandle (timers w)) /\
  intervals (timers w')
  = intervals (timers w)
    ++ [(nextHandle (timers w), period ms, clock (timers w) + period ms)] /\
  timeouts (timers w') = timeouts (timers w) /\
  retryCount (svc w') = retryCount (svc w) /\
  isRetrying (svc w') = isRetrying (svc w) /\
  isPollingTransition (svc w') = false.
Proof. break_world w. cbv zeta. run_monad. repeat split. Qed.

(** C2 (fails on the code for the fetch that [startPolling] awaits): in
    GOOGLE_API mode the handling of a fetch failure that [isAuthError]
    classifies as an authentication failure clears the interval timer and
    forgets its handle, invokes the auth-status callback (when one is
    registered) with needsLogin = true and isExpired = "the lower-cased
    message contains 'expired' or 'invalid_grant'", leaves the retry
    counter at 0 and schedules no delayed retry, in whatever world the
    rejected call settles; so after a fetch started by a tick, by a retry
    or by [quickRefresh] polling is stopped.  But when the failing fetch
    is the one [startPolling] awaits, [startPolling] goes on to arm the
    interval timer after the failure was handled: the service then
    remembers an armed timer, and on a service started at time 1000 with
    a period of one minute whose calls are answered 401 the tick at 61000
    asks upstream again, and only the failure of that fetch stops
    polling. *)
Theorem C2_auth_error_stop_undone_by_startPolling (w : World) (error : Error) :
  apiMethod (svc w) = GOOGLE_API ->
  isAuthError error = true ->
  (let w' := snd (doFetchQuota_settle Awaiting (Rejects error) w) in
   pollingInterval (svc w') = None /\
   intervals (timers w')
   = match pollingInterval (svc w) with
     | Some h => filter (fun t => negb (Nat.eqb (fst (fst t)) h)) (intervals (timers w))
     | None => intervals (timers w)
     end /\
   retryCount (svc w') = 0 /\ isRetrying (svc w') = false /\
   timeouts (timers w') = timeouts (timers w) /\
   trace w'
   = trace w
     ++ stamp (clock (timers w))
          (opt (authStatusCallback (svc w)
                && isGoogleApiError error && needsReauth error)
             (OnAuthStatus true true)
           ++ opt (authStatusCallback (svc w))
                (OnAuthStatus true (isExpiredMessage error))
           ++ cleared (pollingInterval (svc w)))) /\
  (forall auth, auth = AUTHENTICATED \/ auth = ERROR ->
     let w' := snd (doFetchQuota auth (Rejects error) w) in
     pollingInterval (svc w') = None /\
     intervals (timers w')
     = match pollingInterval (svc w) with
       | Some h => filter (fun t => negb (Nat.eqb (fst (fst t)) h))
                     (intervals (timers w))
       | None => intervals (timers w)
       end /\
     retryCount (svc w') = 0 /\ isRetrying (svc w') = false /\
     timeouts (timers w') = timeouts (timers w) /\
     retriesScheduled (trace w') = retriesScheduled (trace w)) /\
  (forall ms,
     let w' := snd ((doFetchQuota_settle Awaiting (Rejects error) ;;;
                     startPolling_resume ms) w) in
     pollingInterval (svc w') = Some (nextHandle (timers w)) /\
     In (nextHandle (timers w), period ms, clock (timers w) + period ms)
        (intervals (timers w')) /\
     retryCount (svc w') = 0 /\ isRetrying (svc w') = false) /\
  (forall ms auth,
     auth = AUTHENTICATED \/ auth = ERROR ->
     isPollingTransition (svc w) = false ->
     let w' := snd (startPolling ms auth (Rejects error) w) in
     pollingInterval (svc w') = Some (nextHandle (timers w)) /\
     In (nextHandle (timers w), period ms, clock (timers w) + period ms)
        (intervals (timers w'))) /\
  (let answered401 := {| authAt := fun _ => AUTHENTICATED;
                         upstreamAt := fun _ => Rejects unauthorized;
                         timeoutFirst := fun _ => true |} in
   let started := snd (startPolling 60000 AUTHENTICATED (Rejects unauthorized)
                         (boot cloudService 1000)) in
   isAuthError unauthorized = true /\
   intervals (timers started) = [(0%nat, 60000, 61000)] /\
   requestTimes (trace started) = [1000] /\
   requestTimes (trace (run answered401 1 started)) = [1000; 61000] /\
   intervals (timers (run answered401 1 started)) = []) /\
  isExpiredMessage (plainError "Not authenticated") = false /\
  isExpiredMessage
    (plainError "Token error: invalid_grant - Token has been expired or revoked.")
  = true.
Proof.
  intros Hmode Herr.
  assert (Hsettle : forall v, apiMethod (svc v) = GOOGLE_API ->
            doFetchQuota_settle Awaiting (Rejects error) v
            = (tt, sessionRejected error v))
    by (intros v Hv; apply settle_auth_error; assumption).
  split; [| split; [| split; [| split; [| split]]]].
  - cbv zeta. rewrite Hsettle by exact Hmode. unfold sessionRejected.
    cbn [snd svc timers trace intervals timeouts].
    destruct (svc w); repeat split.
  - intros auth Hauth. cbv zeta. unfold doFetchQuota, bind.
    rewrite (cloud_fetch_asks w auth Hmode Hauth).
    rewrite Hsettle by exact Hmode.
    unfold sessionRejected, logged, cloudAttemptLog, fetchPrologue.
    cbn [snd svc timers trace intervals timeouts clock].
    split; [destruct (svc w); reflexivity |].
    split; [reflexivity |].
    split; [destruct (svc w); reflexivity |].
    split; [destruct (svc w); reflexivity |].
    split; [reflexivity |].
    unfold retriesScheduled. rewrite !flat_map_app.
    destruct (statusCallback (svc w) && isFirstAttempt (svc w)),
      (authStatusCallback (svc w)), (isGoogleApiError error),
      (needsReauth error), (pollingInterval (svc w));
      cbn; rewrite ?app_nil_r; reflexivity.
  - intros ms. cbv zeta. unfold bind. rewrite Hsettle by exact Hmode.
    destruct (resume_arms ms (sessionRejected error w))
      as (Hh & Hi & _ & Hc & Hr & _).
    cbv zeta in Hh, Hi, Hc, Hr.
    split; [exact Hh |].
    split; [rewrite Hi; apply in_or_app; right; left; reflexivity |].
    split; [rewrite Hc | rewrite Hr]; destruct (svc w); reflexivity.
  - intros ms auth Hauth Hlock. cbv zeta.
    break_world w. subst apiMethod0 isPollingTransition0.
    assert (Hgate : authRequired auth = false)
      by (destruct Hauth; subst auth; reflexivity).
    destruct isRetrying0;
      [destruct pollingInterval0; run_monad; rewrite Hgate; cbn;
       (split; [reflexivity |]);
       apply in_or_app; right; left; reflexivity |].
    destruct Hauth; subst auth; run_monad; rewrite Herr;
      destruct statusCallback0, isFirstAttempt0, authStatusCallback0,
        (isGoogleApiError error), (needsReauth error), pollingInterval0;
      cbn; (split; [reflexivity |]);
      apply in_or_app; right; left; reflexivity.
  - vm_compute. repeat split.
  - split; reflexivity.
Qed.

(** The failing input: a cloud service at rest, started while
    AUTHENTICATED, whose first call is answered 401. *)
Lemma C2_auth_error_stop_undone_by_startPolling_witness :
  pollingInterval
    (svc (snd (doFetchQuota AUTHENTICATED (Rejects unauthorized)
                 (cloudPolling false 0 0)))) = None /\
  pollingInterval
    (svc (snd (startPolling 60000 AUTHENTICATED (Rejects unauthorized)
                 (boot cloudService 1000)))) = Some 0%nat /\
  In (0%nat, period 60000, 1000 + period 60000)
     (intervals
        (timers (snd (startPolling 60000 AUTHENTICATED (Rejects unauthorized)
                        (boot cloudService 1000))))).
Proof.
  split.
  - pose proof (C2_auth_error_stop_undone_by_startPolling
                  (cloudPolling false 0 0) unauthorized eq_refl eq_refl)
      as (_ & Htick & _).
    exact (proj1 (Htick AUTHENTICATED (or_introl eq_refl))).
  - pose proof (C2_auth_error_stop_undone_by_startPolling
                  (boot cloudService 1000) unauthorized eq_refl eq_refl)
      as (_ & _ & _ & Hstart & _).
    exact (Hstart 60000 AUTHENTICATED (or_introl eq_refl) eq_refl).
Defined.

(** ** Cloud mode: a network failure *)

Lemma settle_network_error (w : World) (error : Error) :
  apiMethod (svc w) = GOOGLE_API ->
  isAuthError error = false -> isNetworkOrTimeoutError error = true ->
  doFetchQuota_settle Awaiting (Rejects error) w = (tt, markedStale w).
Proof.
  intros Hmode Hnot Hnet. break_world w. subst apiMethod0.
  pose proof (isAuthError_reauth error Hnot) as Hre.
  unfold markedStale. run_monad. rewrite Hnot, Hnet.
  destruct (isGoogleApiError error), (needsReauth error); try discriminate Hre;
    destruct authStatusCallback0, staleCallback0;
    cbn; rewrite <- ?app_assoc, ?app_nil_r; reflexivity.
Qed.

(** C3 (as stated, fails): a network-classified failure of a cloud fetch
    does not leave the rest of the polling state unchanged.  A cloud
    service is started at time 1000 and meets two server errors (the
    first fetch and the first retry); when the second retry, at 11000,
    finds the connection refused, the consecutive-error counter goes from
    2 to 3, the retry counter from 2 to 0 and the first-attempt flag from
    true to false. *)
Lemma C3_counterexample_frame :
  let started := snd (startPolling 60000 AUTHENTICATED (Rejects serverError)
                        (boot cloudService 1000)) in
  let w := secondRetryBegins in
  let w' := snd (doFetchQuota AUTHENTICATED (Rejects connectionRefused) w) in
  run (outageFrom 11000) 2 started = w' /\
  isNetworkOrTimeoutError connectionRefused = true /\
  isAuthError connectionRefused = false /\
  consecutiveErrors (svc w) = 2 /\ consecutiveErrors (svc w') = 3 /\
  retryCount (svc w) = 2 /\ retryCount (svc w') = 0 /\
  isFirstAttempt (svc w) = true /\ isFirstAttempt (svc w') = false /\
  intervals (timers w) = [(0%nat, 60000, 61000)] /\
  intervals (timers w') = [(0%nat, 60000, 61000)].
Proof. vm_compute. repeat split. Qed.

(** C3 (amended): in GOOGLE_API mode, the handling of a fetch failure
    that [isNetworkOrTimeoutError] classifies as network/timeout (and that
    [isAuthError], tested first, does not classify as authentication)
    clears and schedules no timer, in whatever world the failed call
    settles; it invokes the stale callback, when registered, with
    isStale = true, and changes exactly three fields of the polling
    state: the retry counter is reset to 0 (never incremented), the
    consecutive-error counter is incremented by one, and the
    first-attempt flag is cleared.  So when nothing else acts on the
    service while the call is pending, the timers after the fetch are
    those before it and the interval timer stays armed.  When the failed
    call is a token refresh, the auth state has moved to TOKEN_EXPIRED
    and the extension's listener has stopped polling while the call was
    pending: then the interval timer is cleared and forgotten although
    the failure is handled in the same way. *)
Theorem C3_network_error_marks_stale (w : World) (error : Error) :
  apiMethod (svc w) = GOOGLE_API ->
  isAuthError error = false ->
  isNetworkOrTimeoutError error = true ->
  (let w' := snd (doFetchQuota_settle Awaiting (Rejects error) w) in
   timers w' = timers w /\
   svc w'
   = set_isFirstAttempt false
       (set_retryCount 0
          (set_consecutiveErrors (consecutiveErrors (svc w) + 1) (svc w))) /\
   trace w'
   = trace w
     ++ stamp (clock (timers w)) (opt (staleCallback (svc w)) (OnStaleStatus true))) /\
  (forall auth, auth = AUTHENTICATED \/ auth = ERROR ->
     let w' := snd (doFetchQuota auth (Rejects error) w) in
     timers w' = timers w /\
     svc w'
     = set_isFirstAttempt false
         (set_retryCount 0
            (set_consecutiveErrors (consecutiveErrors (svc w) + 1) (svc w))) /\
     trace w'
     = trace w
       ++ stamp (clock (timers w))
            (fetchPrologue (svc w) ++ [Request]
             ++ opt (staleCallback (svc w)) (OnStaleStatus true))) /\
  (forall auth, auth = AUTHENTICATED \/ auth = ERROR ->
     let w' := snd ((p <- doFetchQuota_try auth ;;
                     onSessionLost ;;;
                     doFetchQuota_settle p (Rejects error)) w) in
     pollingInterval (svc w') = None /\
     intervals (timers w')
     = match pollingInterval (svc w) with
       | Some h => filter (fun t => negb (Nat.eqb (fst (fst t)) h))
                     (intervals (timers w))
       | None => intervals (timers w)
       end /\
     timeouts (timers w') = timeouts (timers w) /\
     svc w'
     = set_isFirstAttempt false
         (set_retryCount 0
            (set_consecutiveErrors (consecutiveErrors (svc w) + 1)
               (set_pollingInterval None (svc w)))) /\
     trace w'
     = trace w
       ++ stamp (clock (timers w))
            (fetchPrologue (svc w) ++ [Request]
             ++ cleared (pollingInterval (svc w))
             ++ opt (staleCallback (svc w)) (OnStaleStatus true))).
Proof.
  intros Hmode Hnot Hnet.
  assert (Hsettle : forall v, apiMethod (svc v) = GOOGLE_API ->
            doFetchQuota_settle Awaiting (Rejects error) v = (tt, markedStale v))
    by (intros v Hv; apply settle_network_error; assumption).
  split; [| split].
  - cbv zeta. rewrite Hsettle by exact Hmode. repeat split.
  - intros auth Hauth. cbv zeta. unfold doFetchQuota, bind.
    rewrite (cloud_fetch_asks w auth Hmode Hauth).
    rewrite Hsettle by exact Hmode.
    unfold markedStale, logged, cloudAttemptLog, stamp.
    cbn [snd svc timers trace]. rewrite !map_app, <- !app_assoc.
    repeat split.
  - intros auth Hauth. cbv zeta. unfold bind.
    rewrite (cloud_fetch_asks w auth Hmode Hauth).
    break_world w. subst apiMethod0.
    unfold logged, cloudAttemptLog, fetchPrologue, onSessionLost.
    pose proof (isAuthError_reauth error Hnot) as Hre.
    run_monad. rewrite Hnot, Hnet.
    destruct (isGoogleApiError error), (needsReauth error); try discriminate Hre;
      destruct statusCallback0, isFirstAttempt0, authStatusCallback0,
        staleCallback0, pollingInterval0;
      cbn; rewrite <- ?app_assoc; cbn; repeat split; reflexivity.
Qed.

Lemma C3_network_error_marks_stale_witness :
  timers (snd (doFetchQuota AUTHENTICATED (Rejects connectionRefused)
                 secondRetryBegins))
  = timers secondRetryBegins /\
  intervals
    (timers (snd ((p <- doFetchQuota_try AUTHENTICATED ;;
                   onSessionLost ;;;
                   doFetchQuota_settle p (Rejects connectionRefused))
                    secondRetryBegins)))
  = match pollingInterval (svc secondRetryBegins) with
    | Some h => filter (fun t => negb (Nat.eqb (fst (fst t)) h))
                  (intervals (timers secondRetryBegins))
    | None => intervals (timers secondRetryBegins)
    end.
Proof.
  pose proof (C3_network_error_marks_stale secondRetryBegins connectionRefused
                eq_refl eq_refl eq_refl) as (_ & Hquiet & Hlost).
  split.
  - exact (proj1 (Hquiet AUTHENTICATED (or_introl eq_refl))).
  - exact (proj1 (proj2 (Hlost AUTHENTICATED (or_introl eq_refl)))).
Defined.

(** ** A local fetch without CSRF token *)

Lemma local_fetch_without_csrf (w : World) (auth : AuthState) (up : Upstream) :
  apiMethod (svc w) = GET_USER_STATUS ->
  truthy (csrfToken (svc w)) = false ->
  doFetchQuota auth up w
  = doFetchQuota_catch missingCsrfToken
      {| svc := svc w; timers := timers w;
         trace := trace w ++ stamp (clock (timers w)) (fetchPrologue (svc w)) |}.
Proof.
  intros Hmode Hcsrf. break_world w. subst apiMethod0.
  unfold doFetchQuota, doFetchQuota_try, makeRequest_check.
  unfold bind at 1 2 3 4. cbn [this svc apiMethod csrfToken]. rewrite Hcsrf.
  destruct statusCallback0, isFirstAttempt0; cbn;
    rewrite <- ?app_assoc; reflexivity.
Qed.

(** C8 (as stated, fails): a local fetch without CSRF token issues no
    request, but its failure does feed the bounded-retry path: on a fresh
    service the retry counter goes to 1, the retry flag is set and a retry
    is scheduled 5000 ms later. *)
Lemma C8_counterexample_missing_csrf_is_retried :
  let w' := snd (doFetchQuota AUTHENTICATED (Rejects (plainError "unused"))
                   (boot (freshService None) 0)) in
  requestTimes (trace w') = [] /\
  retryCount (svc w') = 1 /\ isRetrying (svc w') = true /\
  timeouts (timers w') = [5000] /\
  retriesScheduled (trace w') = [(0, 5000)].
Proof. cbv zeta. repeat split. Qed.

(** ** Reading a log that grows *)

Lemma retriesScheduled_app (a b : list (Z * Event)) :
  retriesScheduled (a ++ b) = retriesScheduled a ++ retriesScheduled b.
Proof. apply flat_map_app. Qed.

Lemma fetchTimes_app (a b : list (Z * Event)) :
  fetchTimes (a ++ b) = fetchTimes a ++ fetchTimes b.
Proof. apply flat_map_app. Qed.

Lemma errorsSurfaced_app (a b : list (Z * Event)) :
  errorsSurfaced (a ++ b) = errorsSurfaced a ++ errorsSurfaced b.
Proof. apply flat_map_app. Qed.

Lemma requestTimes_app (a b : list (Z * Event)) :
  requestTimes (a ++ b) = requestTimes a ++ requestTimes b.
Proof. apply flat_map_app. Qed.

(** ** The [catch] block in local mode *)

Lemma catch_local_below_budget (w : World) (error : Error) :
  apiMethod (svc w) = GET_USER_STATUS ->
  retryCount (svc w) < MAX_RETRY_COUNT ->
  doFetchQuota_catch error w = (tt, retryScheduled w).
Proof.
  intros Hmode Hlt. break_world w. subst apiMethod0.
  unfold retryScheduled. run_monad.
  destruct (Z.ltb_spec retryCount0 MAX_RETRY_COUNT) as [_ | Hge]; [| lia].
  destruct statusCallback0; cbn; rewrite <- ?app_assoc; reflexivity.
Qed.

Lemma catch_local_budget_exhausted (w : World) (error : Error) :
  apiMethod (svc w) = GET_USER_STATUS ->
  MAX_RETRY_COUNT <= retryCount (svc w) ->
  doFetchQuota_catch error w = (tt, gaveUp error w).
Proof.
  intros Hmode Hge. break_world w. subst apiMethod0.
  unfold gaveUp. run_monad.
  destruct (Z.ltb_spec retryCount0 MAX_RETRY_COUNT) as [Hlt | _]; [lia |].
  destruct pollingInterval0, errorCallback0; cbn;
    rewrite <- ?app_assoc, ?app_nil_r; reflexivity.
Qed.


(** C8 (amended): a local-RPC fetch attempt without CSRF token fails with
    the error "Missing CSRF token" before any request is issued; the
    failure is handled like every other failed local fetch and feeds the
    bounded-retry path: below the budget of 3 the retry counter is
    incremented, the retry flag is set and one retry is scheduled in
    5000 ms; at the budget, polling is stopped and the error is passed to
    the error callback. *)
Theorem C8_missing_csrf_fails_before_io (w : World) (auth : AuthState) (up : Upstream) :
  apiMethod (svc w) = GET_USER_STATUS ->
  truthy (csrfToken (svc w)) = false ->
  let w' := snd (doFetchQuota auth up w) in
  let entered := logged (fetchPrologue (svc w)) w in
  requestTimes (trace w') = requestTimes (trace w) /\
  (retryCount (svc w) < 3 -> w' = retryScheduled entered) /\
  (3 <= retryCount (svc w) -> w' = gaveUp missingCsrfToken entered) /\
  retriesScheduled (trace (retryScheduled entered))
  = retriesScheduled (trace w) ++ [(clock (timers w), 5000)] /\
  errorsSurfaced (trace (gaveUp missingCsrfToken entered))
  = errorsSurfaced (trace w)
    ++ (if errorCallback (svc w) then [(clock (timers w), missingCsrfToken)] else []).
Proof.
  intros Hmode Hcsrf. cbv zeta.
  rewrite (local_fetch_without_csrf w auth up Hmode Hcsrf).
  fold (stamp (clock (timers w)) (fetchPrologue (svc w))).
  change {| svc := svc w; timers := timers w;
            trace := trace w ++ stamp (clock (timers w)) (fetchPrologue (svc w)) |}
    with (logged (fetchPrologue (svc w)) w).
  assert (Hmode' : apiMethod (svc (logged (fetchPrologue (svc w)) w)) = GET_USER_STATUS)
    by exact Hmode.
  split; [| split; [| split; [| split]]].
  - destruct (Z_lt_le_dec (retryCount (svc w)) MAX_RETRY_COUNT) as [Hlt | Hge].
    + rewrite catch_local_below_budget by assumption.
      break_world w. destruct statusCallback0, isFirstAttempt0; cbn;
        rewrite !requestTimes_app; cbn; rewrite ?app_nil_r; reflexivity.
    + rewrite catch_local_budget_exhausted by assumption.
      break_world w.
      destruct statusCallback0, isFirstAttempt0, pollingInterval0, errorCallback0;
        cbn; rewrite !requestTimes_app; cbn; rewrite ?app_nil_r; reflexivity.
  - intros Hlt. rewrite catch_local_below_budget by assumption. reflexivity.
  - intros Hge. rewrite catch_local_budget_exhausted by assumption. reflexivity.
  - break_world w. destruct statusCallback0, isFirstAttempt0; cbn;
      rewrite !retriesScheduled_app; cbn; rewrite ?app_nil_r; reflexivity.
  - break_world w.
    destruct statusCallback0, isFirstAttempt0, pollingInterval0, errorCallback0;
      cbn; rewrite !errorsSurfaced_app; cbn; rewrite ?app_nil_r; reflexivity.
Qed.

Lemma C8_missing_csrf_fails_before_io_witness :
  snd (doFetchQuota AUTHENTICATED (Rejects (plainError "unused"))
         (boot (freshService None) 0))
  = retryScheduled
      (logged (fetchPrologue (svc (boot (freshService None) 0)))
         (boot (freshService None) 0)).
Proof.
  apply (proj1 (proj2 (C8_missing_csrf_fails_before_io
                         (boot (freshService None) 0) AUTHENTICATED
                         (Rejects (plainError "unused")) eq_refl eq_refl))).
  cbn. lia.
Defined.

(** ** The event loop while a retry is pending *)

Lemma run_add (env : Env) (n m : nat) (w : World) :
  run env (n + m) w = run env m (run env n w).
Proof.
  revert w. induction n as [| n IH]; intros w; [reflexivity |].
  cbn [Nat.add run]. destruct (step env w) as [w' |] eqn:Hstep; [apply IH |].
  destruct m as [| m]; [reflexivity |]. cbn [run]. rewrite Hstep. reflexivity.
Qed.

Lemma run_stuck (env : Env) (n : nat) (w : World) :
  step env w = None -> run env n w = w.
Proof. intros Hstep. destruct n; [reflexivity |]. cbn [run]. rewrite Hstep. reflexivity. Qed.


(** ** What the log of a failed attempt contains *)






(** ** Requests in flight: the attempts of a local service *)

Lemma turns_add (net : Net) (n m : nat) (l : Loop) :
  turns net (n + m) l = turns net m (turns net n l).
Proof.
  revert l. induction n as [| n IH]; intros l; [reflexivity |].
  cbn [Nat.add turns]. destruct (turn net l) as [l' |] eqn:Hturn; [apply IH |].
  destruct m as [| m]; [reflexivity |]. cbn [turns]. rewrite Hturn. reflexivity.
Qed.

Lemma turns_stuck (net : Net) (n : nat) (l : Loop) :
  turn net l = None -> turns net n l = l.
Proof.
  intros Hturn. destruct n; [reflexivity |]. cbn [turns]. rewrite Hturn.
  reflexivity.
Qed.

(** A run that was checked up to its last turn is undisturbed for good. *)
Lemma undisturbed_checked (net : Net) (l : Loop) (n : nat) :
  forallb (fun i => undisturbed net (turns net i l)) (seq 0 (S n)) = true ->
  turn net (turns net n l) = None ->
  forall i, undisturbed net (turns net i l) = true.
Proof.
  intros Hall Hend i. rewrite forallb_forall in Hall.
  destruct (Nat.le_gt_cases i n) as [Hle | Hgt].
  - apply Hall. apply in_seq. lia.
  - replace i with (n + (i - n))%nat by lia.
    rewrite turns_add, turns_stuck by exact Hend.
    apply Hall. apply in_seq. lia.
Qed.



















(** ** The retry budget in every interleaving *)












(** ** Runs in which no tick falls on an attempt *)










(** ** Two calls of [startPolling] in a row *)

(** [fetchQuota] is its start followed by its continuation. *)
Lemma fetchQuota_phases (auth : AuthState) (up : Upstream) (w : World) :
  fetchQuota auth up w
  = fetchQuota_settle (fst (fetchQuota_try auth w)) up
      (snd (fetchQuota_try auth w)).
Proof.
  unfold fetchQuota, fetchQuota_try, fetchQuota_settle, doFetchQuota,
    bind, this, ret.
  destruct (isRetrying (svc w)); [reflexivity |].
  destruct (doFetchQuota_try auth w) as [p w']. reflexivity.
Qed.

(** [startPolling] is its entry, the fetch and its resumption. *)
Lemma startPolling_phases (ms : Z) (auth : AuthState) (up : Upstream) (w : World) :
  fst (startPolling_enter auth w) = true ->
  let w1 := snd (startPolling_enter auth w) in
  snd (startPolling ms auth up w)
  = snd (startPolling_resume ms
           (snd (fetchQuota_settle (fst (fetchQuota_try auth w1)) up
                   (snd (fetchQuota_try auth w1))))).
Proof.
  intros Hentered w1. unfold startPolling, bind at 1. subst w1.
  destruct (startPolling_enter auth w) as [entered w1]. cbn [fst snd] in *.
  subst entered. unfold bind. rewrite fetchQuota_phases.
  destruct (fetchQuota_settle (fst (fetchQuota_try auth w1)) up
              (snd (fetchQuota_try auth w1))) as [[] w4].
  reflexivity.
Qed.

Lemma preserves_ret {A : Type} (P : World -> Prop) (a : A) : preserves P (ret a).
Proof. intros w Hw. exact Hw. Qed.

Lemma preserves_this (P : World -> Prop) : preserves P this.
Proof. intros w Hw. exact Hw. Qed.

Lemma preserves_bind {A B : Type} (P : World -> Prop) (m : M A) (k : A -> M B) :
  preserves P m -> (forall a, preserves P (k a)) -> preserves P (bind m k).
Proof.
  intros Hm Hk w Hw. unfold bind. specialize (Hm w Hw).
  destruct (m w) as [a w']. apply Hk. exact Hm.
Qed.

Lemma preserves_when (P : World -> Prop) (b : bool) (m : M unit) :
  preserves P m -> preserves P (when b m).
Proof. intros Hm. destruct b; [exact Hm | apply preserves_ret]. Qed.

Lemma Idle_emit (lock : option bool) (e : Event) : preserves (Idle lock) (emit e).
Proof. intros w Hw. exact Hw. Qed.

Lemma Idle_modify (lock : option bool) (f : QuotaService -> QuotaService) :
  (forall s, pollingInterval (f s) = pollingInterval s /\
             isPollingTransition (f s) = isPollingTransition s) ->
  preserves (Idle lock) (modify f).
Proof.
  intros Hf w (Hi & Hh & Hl). destruct (Hf (svc w)) as [Hf1 Hf2].
  unfold Idle, modify. cbn [snd svc timers].
  rewrite Hf1, Hf2. repeat split; assumption.
Qed.

Lemma Idle_setTimeout (lock : option bool) (d : Z) :
  preserves (Idle lock) (setTimeout d).
Proof. intros w Hw. exact Hw. Qed.

Lemma Idle_stopPolling (lock : option bool) : preserves (Idle lock) stopPolling.
Proof.
  intros w Hw. unfold stopPolling, bind, this.
  destruct Hw as (Hi & Hh & Hl). rewrite Hh. repeat split; assumption.
Qed.

Ltac preserve :=
  repeat first
    [ apply preserves_ret
    | apply preserves_this
    | apply Idle_emit
    | apply Idle_setTimeout
    | apply Idle_stopPolling
    | apply preserves_when
    | apply Idle_modify; intros []; split; reflexivity
    | apply preserves_bind; [| intros ?]
    | match goal with
      | |- preserves _ (if ?c then _ else _) => destruct c
      | |- preserves _ (match ?x with _ => _ end) => destruct x
      end ].

Lemma Idle_doFetchQuota_try (lock : option bool) (auth : AuthState) :
  preserves (Idle lock) (doFetchQuota_try auth).
Proof.
  unfold doFetchQuota_try, handleGoogleApiQuota_check, makeRequest_check.
  preserve.
Qed.

Lemma Idle_fetchQuota_try (lock : option bool) (auth : AuthState) :
  preserves (Idle lock) (fetchQuota_try auth).
Proof.
  unfold fetchQuota_try.
  apply preserves_bind; [apply preserves_this | intros s].
  destruct (isRetrying s); [apply preserves_ret |].
  apply preserves_bind; [apply Idle_doFetchQuota_try | intros p].
  apply preserves_ret.
Qed.

Lemma Idle_doFetchQuota_settle (lock : option bool) (p : Pending) (up : Upstream) :
  preserves (Idle lock) (doFetchQuota_settle p up).
Proof.
  unfold doFetchQuota_settle, doFetchQuota_catch, doFetchQuota_success,
    fetchQuotaViaGoogleApi_settle.
  preserve.
Qed.

Lemma Idle_fetchQuota_settle (lock : option bool) (p : option Pending)
  (up : Upstream) :
  preserves (Idle lock) (fetchQuota_settle p up).
Proof.
  unfold fetchQuota_settle. destruct p; [apply Idle_doFetchQuota_settle |].
  apply preserves_ret.
Qed.

Lemma leakFree_filter (w : World) (h : nat) :
  leakFree w -> pollingInterval (svc w) = Some h ->
  filter (fun t => negb (Nat.eqb (fst (fst t)) h)) (intervals (timers w)) = [].
Proof.
  intros Hleak Hh.
  assert (Hall : forall i, In i (intervals (timers w)) -> fst (fst i) = h).
  { intros i Hi. specialize (Hleak i Hi). congruence. }
  induction (intervals (timers w)) as [| i rest IH]; [reflexivity |].
  cbn [filter]. rewrite (Hall i (or_introl eq_refl)), Nat.eqb_refl. cbn [negb].
  apply IH. intros j Hj. apply Hall. right. exact Hj.
Qed.

(** The first call passes the authentication check, takes the lock and
    disarms the timer. *)
Lemma startPolling_enter_locks (auth : AuthState) (w : World) :
  isPollingTransition (svc w) = false ->
  isGoogleApi (apiMethod (svc w)) && authRequired auth = false ->
  leakFree w ->
  fst (startPolling_enter auth w) = true /\
  Idle (Some true) (snd (startPolling_enter auth w)) /\
  apiMethod (svc (snd (startPolling_enter auth w))) = apiMethod (svc w).
Proof.
  intros Hlock Hgate Hleak.
  assert (Hquiet : match pollingInterval (svc w) with
                   | Some h => filter (fun t => negb (Nat.eqb (fst (fst t)) h))
                                 (intervals (timers w)) = []
                   | None => intervals (timers w) = []
                   end).
  { destruct (pollingInterval (svc w)) as [h |] eqn:Hh.
    - apply leakFree_filter; assumption.
    - destruct (intervals (timers w)) as [| i rest] eqn:Hi; [reflexivity |].
      specialize (Hleak i). rewrite Hi in Hleak.
      specialize (Hleak (or_introl eq_refl)). congruence. }
  break_world w. subst isPollingTransition0.
  unfold Idle, startPolling_enter, stopPolling, clearInterval, bind, this.
  cbn [svc apiMethod isPollingTransition]. rewrite Hgate.
  destruct pollingInterval0 as [h |]; cbn; rewrite Hquiet; repeat split.
Qed.

(** A call that finds the lock taken. *)
Lemma startPolling_while_locked (ms : Z) (auth : AuthState) (up : Upstream)
  (w : World) :
  Idle (Some true) w ->
  Idle (Some true) (snd (startPolling ms auth up w)) /\
  (isGoogleApi (apiMethod (svc w)) && authRequired auth = false ->
   startPolling ms auth up w = (tt, w)).
Proof.
  intros (Hi & Hh & Hl). break_world w. subst.
  unfold Idle, startPolling, startPolling_enter, stopPolling, bind, this.
  cbn [svc apiMethod isPollingTransition pollingInterval].
  destruct (isGoogleApi apiMethod0 && authRequired auth).
  - split; [| discriminate]. destruct authStatusCallback0; repeat split.
  - split; [repeat split | reflexivity].
Qed.

Lemma startPolling_resume_arms (ms : Z) (w : World) :
  Idle None w ->
  let w' := snd (startPolling_resume ms w) in
  intervals (timers w')
  = [(nextHandle (timers w), period ms, clock (timers w') + period ms)] /\
  pollingInterval (svc w') = Some (nextHandle (timers w)) /\
  isPollingTransition (svc w') = false.
Proof.
  intros (Hi & Hh & _). destruct w as [s tm tr]; destruct s, tm.
  cbn in Hi, Hh. subst. repeat split.
Qed.

(** C6 (as stated, fails): the second call is not always a no-op.  In
    GOOGLE_API mode the authentication check of [startPolling] comes before
    the test of the transition lock: a second call that arrives while the
    lock is held and finds the user logged out invokes the auth-status
    callback and resets the error and retry counters. *)
Lemma C6_counterexample_second_call_not_noop :
  let w' := snd (startPolling 60000 NOT_AUTHENTICATED
                   (Rejects (plainError "unused")) cloudStarting) in
  isPollingTransition (svc cloudStarting) = true /\
  retryCount (svc cloudStarting) = 2 /\ retryCount (svc w') = 0 /\
  consecutiveErrors (svc cloudStarting) = 2 /\ consecutiveErrors (svc w') = 0 /\
  trace w' = trace cloudStarting ++ [(1000, OnAuthStatus true false)].
Proof. cbv zeta. repeat split. Qed.

(** C6 (amended): [startPolling] is called (and passes the authentication
    check) on a service whose lock is free and whose only armed interval
    timer, if any, is the one it remembers; while that call awaits its
    fetch, holding the transition lock, a second call of [startPolling]
    runs.  The second call arms no timer, and it is a no-op unless the
    service is in GOOGLE_API mode and the authentication state is then
    NOT_AUTHENTICATED or TOKEN_EXPIRED (in which case it signals
    "login required" and resets the counters, still arming nothing).
    When the first call has finished, exactly one interval timer is armed,
    the one the service remembers, and the lock is released. *)
Theorem C6_rapid_start_one_timer (w0 : World) (ms1 ms2 : Z)
  (auth1 auth2 : AuthState) (up1 up2 : Upstream) :
  isPollingTransition (svc w0) = false ->
  isGoogleApi (apiMethod (svc w0)) && authRequired auth1 = false ->
  leakFree w0 ->
  let w1 := snd (startPolling_enter auth1 w0) in
  let pending := fst (fetchQuota_try auth1 w1) in
  let w2 := snd (fetchQuota_try auth1 w1) in
  let w3 := snd (startPolling ms2 auth2 up2 w2) in
  let w4 := snd (fetchQuota_settle pending up1 w3) in
  let w5 := snd (startPolling_resume ms1 w4) in
  fst (startPolling_enter auth1 w0) = true /\
  isPollingTransition (svc w2) = true /\
  intervals (timers w3) = [] /\ pollingInterval (svc w3) = None /\
  (isGoogleApi (apiMethod (svc w2)) && authRequired auth2 = false ->
   startPolling ms2 auth2 up2 w2 = (tt, w2)) /\
  (exists h,
     intervals (timers w5) = [(h, period ms1, clock (timers w5) + period ms1)] /\
     pollingInterval (svc w5) = Some h) /\
  isPollingTransition (svc w5) = false.
Proof.
  intros Hlock Hgate Hleak w1 pending w2 w3 w4 w5.
  destruct (startPolling_enter_locks auth1 w0 Hlock Hgate Hleak)
    as (Hentered & Hidle1 & _).
  fold w1 in Hidle1.
  pose proof (Idle_fetchQuota_try (Some true) auth1 w1 Hidle1) as Hidle2.
  fold w2 in Hidle2.
  destruct (startPolling_while_locked ms2 auth2 up2 w2 Hidle2) as [Hidle3 Hnoop].
  fold w3 in Hidle3.
  assert (Hidle3' : Idle None w3).
  { destruct Hidle3 as (Hi & Hh & _). repeat split; assumption. }
  pose proof (Idle_fetchQuota_settle None pending up1 w3 Hidle3') as Hidle4.
  fold w4 in Hidle4.
  destruct (startPolling_resume_arms ms1 w4 Hidle4) as (Harmed & Hhandle & Hfree).
  fold w5 in Harmed, Hhandle, Hfree.
  split; [exact Hentered |].
  split; [apply Hidle2 |].
  split; [apply Hidle3 |].
  split; [apply Hidle3 |].
  split; [exact Hnoop |].
  split; [| exact Hfree].
  exists (nextHandle (timers w4)). split; assumption.
Qed.

Lemma C6_rapid_start_one_timer_witness :
  fst (startPolling_enter AUTHENTICATED (cloudPolling false 0 0)) = true /\
  isPollingTransition
    (svc (snd (fetchQuota_try AUTHENTICATED
                 (snd (startPolling_enter AUTHENTICATED (cloudPolling false 0 0))))))
  = true.
Proof.
  assert (Hleak : leakFree (cloudPolling false 0 0)).
  { intros i [<- | []]. reflexivity. }
  destruct (C6_rapid_start_one_timer (cloudPolling false 0 0) 30000 60000
              AUTHENTICATED NOT_AUTHENTICATED
              (Rejects (plainError "HTTP error: 500"))
              (Rejects (plainError "unused")) eq_refl eq_refl Hleak)
    as (Hentered & Hlocked & _).
  split; [exact Hentered | exact Hlocked].
Defined.

(** ** The retry counter never leaves its budget *)

Lemma Bounded_emit (e : Event) : withinBudget e -> preserves Bounded (emit e).
Proof.
  intros He w [Hc Ht]. split; [exact Hc |].
  cbn. apply Forall_app. split; [exact Ht |]. constructor; [exact He | constructor].
Qed.

Lemma Bounded_modify (f : QuotaService -> QuotaService) :
  (forall s, retryCount (f s) = retryCount s \/ retryCount (f s) = 0) ->
  preserves Bounded (modify f).
Proof.
  intros Hf w [Hc Ht]. split; [| exact Ht].
  cbn [snd modify svc]. unfold MAX_RETRY_COUNT in *.
  destruct (Hf (svc w)) as [-> | ->]; lia.
Qed.

Lemma Bounded_timers (f : World -> Timers) :
  preserves Bounded
    (fun w => (tt, {| svc := svc w; timers := f w; trace := trace w |})).
Proof. intros w Hw. exact Hw. Qed.

Lemma Bounded_setTimeout (d : Z) : preserves Bounded (setTimeout d).
Proof.
  unfold setTimeout. apply preserves_bind; [| intros _; apply Bounded_emit; exact I].
  intros w Hw. exact Hw.
Qed.

Lemma Bounded_setInterval (ms : Z) : preserves Bounded (setInterval ms).
Proof.
  unfold setInterval. apply preserves_bind; [intros w Hw; exact Hw | intros h].
  apply preserves_bind; [apply Bounded_emit; exact I | intros _; apply preserves_ret].
Qed.

Lemma Bounded_stopPolling : preserves Bounded stopPolling.
Proof.
  unfold stopPolling. apply preserves_bind; [apply preserves_this | intros s].
  destruct (pollingInterval s) as [h |]; [| apply preserves_ret].
  apply preserves_bind.
  - unfold clearInterval. apply preserves_bind; [intros w Hw; exact Hw |].
    intros _. apply Bounded_emit. exact I.
  - intros _. apply Bounded_modify. intros []. left. reflexivity.
Qed.

Ltac bounded :=
  repeat first
    [ apply preserves_ret
    | apply preserves_this
    | apply Bounded_emit; exact I
    | apply Bounded_setTimeout
    | apply Bounded_stopPolling
    | apply preserves_when
    | apply Bounded_modify; intros []; (left; reflexivity) || (right; reflexivity)
    | apply preserves_bind; [| intros ?]
    | match goal with
      | |- preserves _ (if ?c then _ else _) => destruct c
      | |- preserves _ (match ?x with _ => _ end) => destruct x
      end ].

Lemma Bounded_doFetchQuota_try (auth : AuthState) :
  preserves Bounded (doFetchQuota_try auth).
Proof.
  unfold doFetchQuota_try, handleGoogleApiQuota_check, makeRequest_check.
  bounded.
Qed.

Lemma Bounded_doFetchQuota_success (snapshot : QuotaSnapshot) :
  preserves Bounded (doFetchQuota_success snapshot).
Proof. unfold doFetchQuota_success. bounded. Qed.

Lemma Bounded_set_retryCount (v : Z) :
  0 <= v <= MAX_RETRY_COUNT -> preserves Bounded (modify (set_retryCount v)).
Proof. intros Hv w [Hc Ht]. split; [exact Hv | exact Ht]. Qed.

(** The [catch] block, for the service [s] that it read on entry. *)
Lemma Bounded_catch_from (s : QuotaService) (error : Error) :
  0 <= retryCount s ->
  preserves Bounded
    (modify (set_consecutiveErrors (consecutiveErrors s + 1)) ;;;
     if isGoogleApi (apiMethod s) && isAuthError error then
       when (authStatusCallback s)
         (emit (OnAuthStatus true (isExpiredMessage error))) ;;;
       stopPolling ;;;
       modify (set_isRetrying false) ;;;
       modify (set_retryCount 0) ;;;
       modify (set_isFirstAttempt false)
     else if isGoogleApi (apiMethod s) && isNetworkOrTimeoutError error then
       when (staleCallback s) (emit (OnStaleStatus true)) ;;;
       modify (set_retryCount 0) ;;;
       modify (set_isFirstAttempt false)
     else if retryCount s <? MAX_RETRY_COUNT then
       modify (set_retryCount (retryCount s + 1)) ;;;
       modify (set_isRetrying true) ;;;
       when (statusCallback s) (emit (OnStatusRetrying (retryCount s + 1))) ;;;
       setTimeout RETRY_DELAY_MS
     else
       stopPolling ;;;
       when (errorCallback s) (emit (OnError error))).
Proof.
  intros Hnn.
  apply preserves_bind; [bounded | intros _].
  destruct (isGoogleApi (apiMethod s) && isAuthError error); [bounded |].
  destruct (isGoogleApi (apiMethod s) && isNetworkOrTimeoutError error); [bounded |].
  destruct (Z.ltb_spec (retryCount s) MAX_RETRY_COUNT) as [Hlt | Hge]; [| bounded].
  apply preserves_bind; [apply Bounded_set_retryCount; lia | intros _].
  apply preserves_bind; [bounded | intros _].
  apply preserves_bind; [| intros _; apply Bounded_setTimeout].
  apply preserves_when. apply Bounded_emit. cbn. lia.
Qed.

Lemma Bounded_doFetchQuota_catch (error : Error) :
  preserves Bounded (doFetchQuota_catch error).
Proof.
  intros w Hw.
  exact (Bounded_catch_from (svc w) error (proj1 (proj1 Hw)) w Hw).
Qed.

Lemma Bounded_doFetchQuota_settle (p : Pending) (up : Upstream) :
  preserves Bounded (doFetchQuota_settle p up).
Proof.
  unfold doFetchQuota_settle.
  destruct p as [| error |]; [apply preserves_ret | apply Bounded_doFetchQuota_catch |].
  apply preserves_bind; [apply preserves_this | intros s].
  apply preserves_bind.
  - apply preserves_when. unfold fetchQuotaViaGoogleApi_settle. bounded.
  - intros _. destruct up as [snapshot | error];
      [apply Bounded_doFetchQuota_success | apply Bounded_doFetchQuota_catch].
Qed.

Lemma Bounded_doFetchQuota (auth : AuthState) (up : Upstream) :
  preserves Bounded (doFetchQuota auth up).
Proof.
  unfold doFetchQuota. apply preserves_bind;
    [apply Bounded_doFetchQuota_try | intros p; apply Bounded_doFetchQuota_settle].
Qed.

Lemma Bounded_fetchQuota (auth : AuthState) (up : Upstream) :
  preserves Bounded (fetchQuota auth up).
Proof.
  unfold fetchQuota. apply preserves_bind; [apply preserves_this | intros s].
  destruct (isRetrying s); [apply preserves_ret | apply Bounded_doFetchQuota].
Qed.

Lemma Bounded_startPolling (ms : Z) (auth : AuthState) (up : Upstream) :
  preserves Bounded (startPolling ms auth up).
Proof.
  unfold startPolling. apply preserves_bind.
  - unfold startPolling_enter. bounded.
  - intros entered. destruct entered; [| apply preserves_ret].
    apply preserves_bind; [apply Bounded_fetchQuota | intros _].
    unfold startPolling_resume.
    apply preserves_bind; [apply Bounded_setInterval | intros h]. bounded.
Qed.

Lemma Bounded_retryFromError (ms : Z) (auth : AuthState) (up : Upstream) :
  preserves Bounded (retryFromError ms auth up).
Proof.
  unfold retryFromError.
  do 5 (apply preserves_bind; [bounded | intros _]).
  apply preserves_bind; [apply Bounded_fetchQuota | intros _].
  apply preserves_bind; [apply preserves_this | intros s].
  destruct (consecutiveErrors s =? 0); [| apply preserves_ret].
  apply preserves_bind; [apply Bounded_setInterval | intros h]. bounded.
Qed.

Lemma Bounded_step (env : Env) (w w' : World) :
  Bounded w -> step env w = Some w' -> Bounded w'.
Proof.
  intros Hw. unfold step.
  assert (Ht : forall t, Bounded (snd (fireTimeout env t w))).
  { intros t. revert w Hw. fold (preserves Bounded (fireTimeout env t)).
    unfold fireTimeout, retryCallback.
    apply preserves_bind; [intros w Hw; exact Hw | intros _].
    apply preserves_bind; [bounded | intros _; apply Bounded_fetchQuota]. }
  assert (Hi : forall h p d, Bounded (snd (fireInterval env h p d w))).
  { intros h p d. revert w Hw Ht. intros w Hw _. revert w Hw.
    fold (preserves Bounded (fireInterval env h p d)).
    unfold fireInterval, tickCallback.
    apply preserves_bind; [intros w Hw; exact Hw | intros _].
    apply Bounded_fetchQuota. }
  destruct (earliestTimeout (timeouts (timers w))) as [t |];
    destruct (earliestInterval (intervals (timers w))) as [[[h p] d] |];
    try discriminate.
  - destruct ((t <? d) || ((t =? d) && timeoutFirst env t));
      intros [= <-]; [apply Ht | apply Hi].
  - intros [= <-]. apply Ht.
  - intros [= <-]. apply Hi.
Qed.

Lemma Bounded_run (env : Env) :
  forall n w, Bounded w -> Bounded (run env n w).
Proof.
  induction n as [| n IH]; intros w Hw; [exact Hw |].
  cbn [run]. destruct (step env w) as [w' |] eqn:Hstep; [| exact Hw].
  apply IH. apply (Bounded_step env w w' Hw Hstep).
Qed.

(** X18: The retry counter never leaves the range 0..3, and no retry number
    outside 1..3 is ever reported to the status callback: the bound holds
    after every public operation (start, manual retry, quick refresh) and
    after any number of turns of the event loop, for every behaviour of
    the upstream, of the authentication state and of the timers. *)
Theorem retry_budget_is_invariant (w : World) :
  Bounded w ->
  (forall env n, Bounded (run env n w)) /\
  (forall ms auth up, Bounded (snd (startPolling ms auth up w))) /\
  (forall ms auth up, Bounded (snd (retryFromError ms auth up w))) /\
  (forall auth up, Bounded (snd (quickRefresh auth up w))).
Proof.
  intros Hw. split; [| split; [| split]].
  - intros env n. apply Bounded_run. exact Hw.
  - intros ms auth up. apply Bounded_startPolling. exact Hw.
  - intros ms auth up. apply Bounded_retryFromError. exact Hw.
  - intros auth up. apply Bounded_doFetchQuota. exact Hw.
Qed.

Lemma retry_budget_is_invariant_witness :
  (forall env n, Bounded (run env n (boot (freshService None) 0))) /\
  (forall ms auth up,
     Bounded (snd (startPolling ms auth up (boot (freshService None) 0)))) /\
  (forall ms auth up,
     Bounded (snd (retryFromError ms auth up (boot (freshService None) 0)))) /\
  (forall auth up, Bounded (snd (quickRefresh auth up (boot (freshService None) 0)))).
Proof.
  apply (retry_budget_is_invariant (boot (freshService None) 0)).
  split; [cbn; unfold MAX_RETRY_COUNT; lia | constructor].
Defined.

(** ** Quick refresh while a retry is pending *)



(** ** Manual retry *)

(** X20: A manual retry on a service at rest in local mode arms the interval
    timer only when its own fetch succeeds.  When that fetch fails it
    leaves no interval timer but one delayed retry; and when this retry
    then succeeds, the counters are reset and fresh data is delivered,
    but no timer of either kind is left: the event loop has nothing more
    to run and polling is not resumed. *)
Theorem retryFromError_rearms_only_on_success
  (w : World) (ms : Z) (auth : AuthState) :
  apiMethod (svc w) = GET_USER_STATUS ->
  truthy (csrfToken (svc w)) = true ->
  atRest w ->
  (forall snapshot,
     let w1 := snd (retryFromError ms auth (Resolves snapshot) w) in
     intervals (timers w1)
     = [(nextHandle (timers w), period ms, clock (timers w) + period ms)] /\
     pollingInterval (svc w1) = Some (nextHandle (timers w)) /\
     timeouts (timers w1) = []) /\
  (forall error,
     let w1 := snd (retryFromError ms auth (Rejects error) w) in
     intervals (timers w1) = [] /\ pollingInterval (svc w1) = None /\
     timeouts (timers w1) = [clock (timers w) + RETRY_DELAY_MS] /\
     retryCount (svc w1) = 1 /\ isRetrying (svc w1) = true /\
     forall env snapshot,
       upstreamAt env (clock (timers w) + RETRY_DELAY_MS) = Resolves snapshot ->
       exists w2,
         step env w1 = Some w2 /\
         consecutiveErrors (svc w2) = 0 /\ retryCount (svc w2) = 0 /\
         isRetrying (svc w2) = false /\
         fetchTimes (trace w2)
         = fetchTimes (trace w)
           ++ [clock (timers w); clock (timers w) + RETRY_DELAY_MS] /\
         atRest w2 /\ step env w2 = None).
Proof.
  intros Hmode Hcsrf (Hi & Ht & Hh). break_world w. subst.
  split.
  - intros snapshot. run_monad. rewrite Hcsrf.
    destruct statusCallback0, updateCallback0; cbn; repeat split.
  - intros error. run_monad. rewrite Hcsrf.
    change (0 <? MAX_RETRY_COUNT) with true. cbv iota.
    destruct statusCallback0; cbn;
      (split; [reflexivity |]); (split; [reflexivity |]);
      (split; [reflexivity |]); (split; [reflexivity |]);
      (split; [reflexivity |]);
      intros env snapshot Hup; unfold step; cbn;
      unfold fireTimeout, retryCallback; run_monad;
      rewrite Hup, Hcsrf, Z.eqb_refl;
      destruct updateCallback0; cbn;
      eexists; (split; [reflexivity |]); cbn;
      rewrite ?fetchTimes_app; cbn; rewrite ?app_nil_r, <- ?app_assoc;
      repeat split.
Qed.

Lemma retryFromError_rearms_only_on_success_witness :
  let w := boot (freshService (Some "csrf"%string)) 0 in
  (forall snapshot,
     intervals (timers (snd (retryFromError 60000 AUTHENTICATED (Resolves snapshot) w)))
     = [(0%nat, 60000, 60000)]) /\
  (forall error,
     timeouts (timers (snd (retryFromError 60000 AUTHENTICATED (Rejects error) w)))
     = [5000]).
Proof.
  intros w.
  destruct (retryFromError_rearms_only_on_success w 60000 AUTHENTICATED)
    as (Hok & Hfail); [reflexivity | reflexivity | repeat split |].
  split.
  - intros snapshot. exact (proj1 (Hok snapshot)).
  - intros error. exact (proj1 (proj2 (proj2 (Hfail error)))).
Defined.

Lemma leak_free_filter_empty (armed : list (nat * Z * Z)) (h : nat) :
  (forall i, In i armed -> fst (fst i) = h) ->
  filter (fun t => negb (Nat.eqb (fst (fst t)) h)) armed = [].
Proof.
  intros Hall. induction armed as [| i rest IH]; [reflexivity |].
  cbn [filter]. rewrite (Hall i (or_introl eq_refl)), Nat.eqb_refl. cbn.
  apply IH. intros j Hj. apply Hall. right. exact Hj.
Qed.
Lemma authStatusTimes_app (a b : list (Z * Event)) :
  authStatusTimes (a ++ b) = authStatusTimes a ++ authStatusTimes b.
Proof. apply flat_map_app. Qed.

(** ** Cloud mode without a session *)

(** X21: In cloud mode, [startPolling] called while the user is not logged in
    or the token is expired fetches nothing, asks upstream nothing and
    arms no timer: it reports that a login is needed, forgets and clears
    the interval timer, and resets both counters and the retry flag.  It
    leaves the transition lock and the pending delayed retries as they
    are. *)
Theorem startPolling_without_session_arms_nothing
  (w : World) (ms : Z) (auth : AuthState) (up : Upstream) :
  apiMethod (svc w) = GOOGLE_API ->
  authRequired auth = true ->
  let w' := snd (startPolling ms auth up w) in
  fetchTimes (trace w') = fetchTimes (trace w) /\
  requestTimes (trace w') = requestTimes (trace w) /\
  trace w'
  = trace w
    ++ stamp (clock (timers w))
         (opt (authStatusCallback (svc w))
              (OnAuthStatus true (isTokenExpiredState auth))
          ++ cleared (pollingInterval (svc w))) /\
  pollingInterval (svc w') = None /\
  (leakFree w -> intervals (timers w') = []) /\
  timeouts (timers w') = timeouts (timers w) /\
  retryCount (svc w') = 0 /\ consecutiveErrors (svc w') = 0 /\
  isRetrying (svc w') = false /\
  isPollingTransition (svc w') = isPollingTransition (svc w).
Proof.
  intros Hmode Hauth. break_world w. subst.
  assert (Hlog : forall log,
            log = tr ++ stamp clock0
                    (opt authStatusCallback0
                       (OnAuthStatus true (isTokenExpiredState auth))
                     ++ cleared pollingInterval0) ->
            fetchTimes log = fetchTimes tr /\
            requestTimes log = requestTimes tr).
  { intros log ->. rewrite fetchTimes_app, requestTimes_app.
    destruct authStatusCallback0, pollingInterval0; cbn;
      rewrite ?app_nil_r; split; reflexivity. }
  run_monad. rewrite Hauth. cbv iota.
  destruct authStatusCallback0, pollingInterval0 as [h |]; cbn;
    match goal with
    | |- fetchTimes ?log = _ /\ _ =>
        destruct (Hlog log) as [Hf Hr];
        [cbn; rewrite <- ?app_assoc, ?app_nil_r; reflexivity |]
    end;
    (split; [exact Hf |]); (split; [exact Hr |]);
    (split; [rewrite <- ?app_assoc, ?app_nil_r; reflexivity |]);
    (split; [reflexivity |]);
    (split; [| repeat split]).
  - intros Hleak. unfold leakFree in Hleak. cbn in Hleak.
    apply (leak_free_filter_empty intervals0 h).
    intros i Hin. specialize (Hleak i Hin). congruence.
  - intros Hleak. unfold leakFree in Hleak. cbn in Hleak.
    destruct intervals0 as [| i rest]; [reflexivity |].
    specialize (Hleak i (or_introl eq_refl)). discriminate.
  - intros Hleak. unfold leakFree in Hleak. cbn in Hleak.
    apply (leak_free_filter_empty intervals0 h).
    intros i Hin. specialize (Hleak i Hin). congruence.
  - intros Hleak. unfold leakFree in Hleak. cbn in Hleak.
    destruct intervals0 as [| i rest]; [reflexivity |].
    specialize (Hleak i (or_introl eq_refl)). discriminate.
Qed.

Lemma startPolling_without_session_arms_nothing_witness :
  let w' := snd (startPolling 60000 TOKEN_EXPIRED
                   (Rejects (plainError "unused")) (cloudPolling false 2 2)) in
  fetchTimes (trace w') = [] /\ requestTimes (trace w') = [] /\
  intervals (timers w') = [] /\ retryCount (svc w') = 0.
Proof.
  intros w'.
  destruct (startPolling_without_session_arms_nothing (cloudPolling false 2 2)
              60000 TOKEN_EXPIRED (Rejects (plainError "unused")))
    as (Hf & Hr & _ & _ & Hi & _ & Hc & _); [reflexivity | reflexivity |].
  split; [exact Hf |]. split; [exact Hr |]. split; [| exact Hc].
  apply Hi. intros i [<- | []]. reflexivity.
Defined.

(** X22: In cloud mode a fetch attempted without a usable session (not
    logged in, token expired, or a login or refresh in progress) asks
    upstream nothing and changes neither the timers nor the counters: the
    interval timer keeps ticking.  Only when a login is needed does it
    report so and end the first-attempt phase; while a login or refresh
    is in progress it leaves the service exactly as it was. *)
Theorem cloud_fetch_without_session_asks_nothing
  (w : World) (auth : AuthState) (up : Upstream) :
  apiMethod (svc w) = GOOGLE_API ->
  noSession auth = true ->
  let w' := snd (doFetchQuota auth up w) in
  requestTimes (trace w') = requestTimes (trace w) /\
  timers w' = timers w /\
  retryCount (svc w') = retryCount (svc w) /\
  consecutiveErrors (svc w') = consecutiveErrors (svc w) /\
  isRetrying (svc w') = isRetrying (svc w) /\
  pollingInterval (svc w') = pollingInterval (svc w) /\
  (authRequired auth = true ->
   isFirstAttempt (svc w') = false /\
   authStatusTimes (trace w')
   = authStatusTimes (trace w)
     ++ (if authStatusCallback (svc w) then [clock (timers w)] else [])) /\
  (authRequired auth = false ->
   svc w' = svc w /\ authStatusTimes (trace w') = authStatusTimes (trace w)).
Proof.
  intros Hmode Hauth. break_world w. subst.
  destruct auth; try discriminate; run_monad;
    destruct statusCallback0, isFirstAttempt0, authStatusCallback0; cbn;
    rewrite ?requestTimes_app, ?authStatusTimes_app; cbn;
    rewrite ?app_nil_r;
    repeat split; try discriminate; intros _;
    repeat split; rewrite ?requestTimes_app, ?authStatusTimes_app; cbn;
    rewrite ?app_nil_r; reflexivity.
Qed.

Lemma cloud_fetch_without_session_asks_nothing_witness :
  let w' := snd (doFetchQuota REFRESHING (Rejects (plainError "unused"))
                   (cloudPolling false 0 0)) in
  requestTimes (trace w') = [] /\
  timers w' = timers (cloudPolling false 0 0) /\
  svc w' = svc (cloudPolling false 0 0).
Proof.
  intros w'.
  destruct (cloud_fetch_without_session_asks_nothing (cloudPolling false 0 0)
              REFRESHING (Rejects (plainError "unused")))
    as (Hr & Ht & _ & _ & _ & _ & _ & Hsame); [reflexivity | reflexivity |].
  split; [exact Hr |]. split; [exact Ht |].
  exact (proj1 (Hsame eq_refl)).
Defined.

(** ** Ports *)

(** X23: From construction on, the HTTP fallback port of the service is
    always defined; therefore [setPort] never changes it: after any
    sequence of port updates, [setPort] moves the HTTPS port only and the
    fallback keeps pointing to the port it had.  Every port update
    resets both error counters and leaves the retry flag alone. *)
Theorem setPort_never_moves_http_port
  (p0 : Z) (h0 : option Z) (s0 : QuotaService) (updates : list PortUpdate) (p : Z) :
  let e := fold_left update updates (newEndpoint p0 h0, s0) in
  (exists h, httpPort (fst e) = Some h) /\
  httpPort (fst (setPort p e)) = httpPort (fst e) /\
  port (fst (setPort p e)) = p /\
  retryCount (snd (setPort p e)) = 0 /\
  consecutiveErrors (snd (setPort p e)) = 0 /\
  isRetrying (snd (setPort p e)) = isRetrying s0.
Proof.
  assert (Hinv : forall us e,
            (exists h, httpPort (fst e) = Some h) ->
            (exists h, httpPort (fst (fold_left update us e)) = Some h) /\
            isRetrying (snd (fold_left update us e)) = isRetrying (snd e)).
  { induction us as [| u us IH]; intros e He; [split; [exact He | reflexivity] |].
    cbn [fold_left].
    destruct (IH (update e u)) as [Hd Hr].
    - destruct u; cbn; eexists; reflexivity.
    - split; [exact Hd |]. rewrite Hr. destruct u, e as [ep []]; reflexivity. }
  intros e.
  destruct (Hinv updates (newEndpoint p0 h0, s0)) as [[h Hh] Hr];
    [cbn; eexists; reflexivity |].
  fold e in Hh, Hr. cbn [snd] in Hr.
  split; [exists h; exact Hh |].
  unfold setPort. cbn [fst snd port httpPort]. rewrite Hh. cbn [nullish].
  repeat split. rewrite <- Hr. destruct (snd e); reflexivity.
Qed.

(** X24: [makeRequest] issues no request without a CSRF token, otherwise one
    HTTPS request to the primary port and, only when that one failed with
    a protocol error and a fallback port is known, one plain HTTP request
    to the fallback port; its outcome is then that of the HTTP request,
    the HTTPS error being dropped.  It never issues more than two
    requests and never starts with HTTP. *)
Theorem makeRequest_falls_back_once
  {R : Type} (p : Z) (fallback : option Z) (csrfToken : option string)
  (doRequest : Scheme -> Z -> R + Error) :
  let requests := fst (makeRequest p fallback csrfToken doRequest) in
  let outcome := snd (makeRequest p fallback csrfToken doRequest) in
  (truthy csrfToken = false -> requests = [] /\ outcome = inr missingCsrfToken) /\
  (truthy csrfToken = true ->
   (requests = [(Https, p)] /\ outcome = doRequest Https p) \/
   (exists h error,
      fallback = Some h /\ doRequest Https p = inr error /\
      shouldRetryHttp fallback error = true /\
      requests = [(Https, p); (Http, h)] /\ outcome = doRequest Http h)) /\
  (forall error,
     truthy csrfToken = true -> doRequest Https p = inr error ->
     shouldRetryHttp fallback error = false ->
     requests = [(Https, p)] /\ outcome = inr error).
Proof.
  intros requests outcome. subst requests outcome. unfold makeRequest.
  destruct (truthy csrfToken).
  - split; [discriminate |]. split.
    + intros _. destruct (doRequest Https p) as [response | error] eqn:Hreq.
      * left. split; reflexivity.
      * destruct (shouldRetryHttp fallback error) eqn:Hretry.
        -- destruct fallback as [h |]; [| discriminate].
           right. exists h, error. repeat split. exact Hretry.
        -- left. split; reflexivity.
    + intros error _ Hreq Hretry. rewrite Hreq, Hretry. split; reflexivity.
  - split; [intros _; split; reflexivity |].
    split; [discriminate | intros error Habs; discriminate].
Qed.

(** A service constructed with a single port falls back to plain HTTP on
    that same port. *)
Lemma makeRequest_falls_back_once_witness :
  let doRequest (scheme : Scheme) (target : Z) : unit + Error :=
    match scheme with
    | Https => inr {| message := "write EPROTO"; code := Some "EPROTO"%string;
                      isGoogleApiError := false; needsReauth := false |}
    | Http => inl tt
    end in
  fst (makeRequest 42100 (httpPort (newEndpoint 42100 None))
         (Some "csrf"%string) doRequest)
  = [(Https, 42100); (Http, 42100)] /\
  snd (makeRequest 42100 (httpPort (newEndpoint 42100 None))
         (Some "csrf"%string) doRequest)
  = inl tt.
Proof.
  intros doRequest.
  destruct (makeRequest_falls_back_once 42100 (httpPort (newEndpoint 42100 None))
              (Some "csrf"%string) doRequest) as (_ & Hcases & _).
  destruct (Hcases eq_refl) as [[Hreqs Hout] | (h & error & Hh & _ & _ & Hreqs & Hout)].
  - split; [vm_compute; reflexivity | vm_compute; reflexivity].
  - injection Hh as <-. split; [exact Hreqs | exact Hout].
Defined.

End Polling.

(* ================================================================== *)
(** * OAuth callback server (auth/callbackServer.ts)                    *)
(* ================================================================== *)

Module CallbackServer.

Definition CALLBACK_PATH : string := "/callback".

(** An incoming request as the handler sees it: the path of its URL and
    the four query parameters it reads ([searchParams.get] yields a
    string or [null]). *)
Record Request := {
  pathname : string;
  code : option string;
  state : option string;
  error : option string;
  errorDescription : option string
}.

(** How the promise of [waitForCallback] settles. *)
Inductive Settled :=
| Resolved (code : string) (state : option string)
| Rejected (msg : string).

(** A [string | null] inside a template literal. *)
Definition interpolate (s : option string) : string :=
  match s with Some s => s | None => "null" end.

(** The request handler installed by [waitForCallback]: [None] when the
    request is answered with 404 and the promise stays pending.  Every
    other request clears the timeout, stops the server and settles the
    promise. *)
Definition handleRequest (expectedState : string) (req : Request)
  : option Settled :=
  if negb (pathname req =? CALLBACK_PATH)%string then None
  else
    match error req with
    | Some (String c e) =>
        Some (Rejected ("OAuth error: " ++ String c e ++ " - "
                        ++ interpolate (errorDescription req)))
    | _ =>
        match code req with
        | Some (String c k) =>
            match state req with
            | Some s =>
                if (s =? expectedState)%string
                then Some (Resolved (String c k) (state req))
                else Some (Rejected "Invalid state parameter (CSRF protection)")
            | None => Some (Rejected "Invalid state parameter (CSRF protection)")
            end
        | _ => Some (Rejected "No authorization code received")
        end
    end.

(** What reaches the server while the promise is pending. *)
Inductive Incoming :=
| Arrives (req : Request)
| TimerFires.                  (* the [AUTH_TIMEOUT_MS] timeout fires *)

(** [waitForCallback(expectedState)] on a server that was started
    ([started = false]: [port === 0]); [None]: the promise is still
    pending after the given events. *)
Fixpoint pending (expectedState : string) (events : list Incoming)
  : option Settled :=
  match events with
  | [] => None
  | TimerFires :: _ => Some (Rejected "OAuth callback timeout")
  | Arrives req :: rest =>
      match handleRequest expectedState req with
      | Some settled => Some settled
      | None => pending expectedState rest
      end
  end.

Definition waitForCallback (started : bool) (expectedState : string)
  (events : list Incoming) : option Settled :=
  if started then pending expectedState events
  else Some (Rejected "Server not started. Call startServer() first.").

(** ** escapeHtml *)

(** [text.replace(/c/g, by)] for a single character [c]. *)
Fixpoint replaceAll (c : ascii) (by_ : string) (text : string) : string :=
  match text with
  | EmptyString => EmptyString
  | String x rest =>
      if Ascii.eqb x c then (by_ ++ replaceAll c by_ rest)%string
      else String x (replaceAll c by_ rest)
  end.

Definition doubleQuote : ascii := "034"%char.

Definition escapeHtml (text : string) : string :=
  replaceAll "'" "&#039;"
    (replaceAll doubleQuote "&quot;"
       (replaceAll ">" "&gt;"
          (replaceAll "<" "&lt;"
             (replaceAll "&" "&amp;" text)))).

(** The entity that stands for one character (the reading of
    [escapeHtml] as a character-by-character substitution). *)
Definition entity (c : ascii) : string :=
  if Ascii.eqb c "&" then "&amp;"
  else if Ascii.eqb c "<" then "&lt;"
  else if Ascii.eqb c ">" then "&gt;"
  else if Ascii.eqb c doubleQuote then "&quot;"
  else if Ascii.eqb c "'" then "&#039;"
  else String c EmptyString.

Fixpoint escapeEach (text : string) : string :=
  match text with
  | EmptyString => EmptyString
  | String x rest => (entity x ++ escapeEach rest)%string
  end.

(** Characters that open or close markup or an attribute value. *)
Definition isMarkup (c : ascii) : bool :=
  Ascii.eqb c "<" || Ascii.eqb c ">" || Ascii.eqb c doubleQuote
  || Ascii.eqb c "'".

Fixpoint markupFree (text : string) : bool :=
  match text with
  | EmptyString => true
  | String x rest => negb (isMarkup x) && markupFree rest
  end.

Definition notFound (req : Request) : Prop := pathname req <> CALLBACK_PATH.

(** ** The request handler *)

Lemma handleRequest_stray (expectedState : string) (req : Request) :
  notFound req -> handleRequest expectedState req = None.
Proof.
  unfold notFound, handleRequest. intros Hpath.
  destruct (String.eqb_spec (pathname req) CALLBACK_PATH); [contradiction | reflexivity].
Qed.

Lemma handleRequest_settles (expectedState : string) (req : Request) :
  pathname req = CALLBACK_PATH ->
  exists settled, handleRequest expectedState req = Some settled.
Proof.
  unfold handleRequest. intros ->. rewrite String.eqb_refl. cbn [negb].
  destruct (error req) as [[| c e] |];
    destruct (code req) as [[| c' k] |];
    destruct (state req) as [s |];
    try destruct (s =? expectedState)%string; eexists; reflexivity.
Qed.

(** X25: The promise of [waitForCallback] is resolved by a request exactly
    when that request goes to the callback path, carries no error, a
    non-empty authorization code and the expected state; the code and
    the state it resolves with are those of the request.  A request that
    carries an error is rejected as an OAuth error whatever its code and
    state are. *)
Theorem handleRequest_resolves_iff
  (expectedState : string) (req : Request) (c : string) (st : option string) :
  (handleRequest expectedState req = Some (Resolved c st) <->
   pathname req = CALLBACK_PATH /\
   (error req = None \/ error req = Some ""%string) /\
   code req = Some c /\ c <> ""%string /\
   state req = Some expectedState /\ st = Some expectedState) /\
  (forall e,
     pathname req = CALLBACK_PATH -> error req = Some e -> e <> ""%string ->
     handleRequest expectedState req
     = Some (Rejected ("OAuth error: " ++ e ++ " - "
                       ++ interpolate (errorDescription req)))).
Proof.
  split.
  - unfold handleRequest.
    destruct (String.eqb_spec (pathname req) CALLBACK_PATH) as [Hpath | Hpath];
      cbn [negb].
    + destruct (error req) as [[| ec e] |] eqn:Herr;
        destruct (code req) as [[| cc k] |] eqn:Hcode;
        destruct (state req) as [s |] eqn:Hstate;
        try destruct (String.eqb_spec s expectedState) as [-> | Hne];
        split;
        try discriminate;
        try (intros (_ & [Habs | Habs] & _); discriminate);
        try (intros (_ & _ & Habs & Hc & _); try discriminate;
             injection Habs as <-; congruence);
        try (intros (_ & _ & _ & _ & Habs & _); try discriminate;
             injection Habs as <-; congruence);
        try (intros [= <- <-]; repeat split; auto; discriminate);
        try (intros (_ & _ & [= <-] & _ & _ & ->); reflexivity).
    + split; [discriminate | intros (Habs & _); contradiction].
  - intros e Hpath Herr Hne. unfold handleRequest.
    rewrite Hpath, String.eqb_refl, Herr. cbn [negb].
    destruct e as [| ec e]; [congruence | reflexivity].
Qed.

(** X26: Requests to other paths are answered with 404 and never settle the
    promise; the first request to the callback path, or the timeout if it
    fires first, settles it, and nothing that arrives later changes the
    outcome. *)
Theorem first_callback_request_decides
  (expectedState : string) (strays : list Request) :
  Forall notFound strays ->
  pending expectedState (map Arrives strays) = None /\
  (forall req later,
     pathname req = CALLBACK_PATH ->
     exists settled,
       handleRequest expectedState req = Some settled /\
       pending expectedState (map Arrives strays ++ Arrives req :: later)
       = Some settled) /\
  (forall later,
     pending expectedState (map Arrives strays ++ TimerFires :: later)
     = Some (Rejected "OAuth callback timeout")).
Proof.
  intros Hstray.
  assert (Hskip : forall rest,
            pending expectedState (map Arrives strays ++ rest)
            = pending expectedState rest).
  { intros rest. induction Hstray as [| req reqs Hreq _ IH]; [reflexivity |].
    cbn [map app pending]. rewrite (handleRequest_stray _ _ Hreq). exact IH. }
  split; [| split].
  - rewrite <- (app_nil_r (map Arrives strays)). rewrite Hskip. reflexivity.
  - intros req later Hpath.
    destruct (handleRequest_settles expectedState req Hpath) as [settled Hs].
    exists settled. split; [exact Hs |].
    rewrite Hskip. cbn [pending]. rewrite Hs. reflexivity.
  - intros later. rewrite Hskip. reflexivity.
Qed.

Lemma first_callback_request_decides_witness :
  let favicon := {| pathname := "/favicon.ico"; code := None; state := None;
                    error := None; errorDescription := None |} in
  pending "expected" (map Arrives [favicon]) = None /\
  (forall later,
     pending "expected" (map Arrives [favicon] ++ TimerFires :: later)
     = Some (Rejected "OAuth callback timeout")).
Proof.
  intros favicon.
  destruct (first_callback_request_decides "expected" [favicon])
    as (Hnone & _ & Htimer).
  - constructor; [discriminate | constructor].
  - split; [exact Hnone | exact Htimer].
Defined.

(** ** escapeHtml *)

Lemma string_app_assoc (a b c : string) :
  ((a ++ b) ++ c = a ++ (b ++ c))%string.
Proof. induction a as [| x a IH]; cbn; [reflexivity | rewrite IH; reflexivity]. Qed.

Lemma markupFree_app (a b : string) :
  markupFree (a ++ b) = markupFree a && markupFree b.
Proof.
  induction a as [| x a IH]; cbn; [reflexivity |].
  rewrite IH. apply andb_assoc.
Qed.

Lemma escapeHtml_step (x : ascii) (rest : string) :
  escapeHtml (String x rest) = (entity x ++ escapeHtml rest)%string.
Proof.
  unfold escapeHtml, entity.
  destruct (Ascii.eqb_spec x "&") as [-> | Hamp]; [reflexivity |].
  destruct (Ascii.eqb_spec x "<") as [-> | Hlt]; [reflexivity |].
  destruct (Ascii.eqb_spec x ">") as [-> | Hgt]; [reflexivity |].
  destruct (Ascii.eqb_spec x doubleQuote) as [-> | Hdq]; [reflexivity |].
  destruct (Ascii.eqb_spec x "'") as [-> | Hsq]; [reflexivity |].
  cbn [replaceAll].
  repeat match goal with
         | |- context [Ascii.eqb x ?c] =>
             destruct (Ascii.eqb_spec x c); [contradiction |]; cbn [replaceAll]
         end.
  reflexivity.
Qed.

Lemma entity_markupFree (x : ascii) : markupFree (entity x) = true.
Proof.
  unfold entity.
  destruct (Ascii.eqb_spec x "&") as [-> | Hamp]; [reflexivity |].
  destruct (Ascii.eqb_spec x "<") as [-> | Hlt]; [reflexivity |].
  destruct (Ascii.eqb_spec x ">") as [-> | Hgt]; [reflexivity |].
  destruct (Ascii.eqb_spec x doubleQuote) as [-> | Hdq]; [reflexivity |].
  destruct (Ascii.eqb_spec x "'") as [-> | Hsq]; [reflexivity |].
  cbn [markupFree]. unfold isMarkup.
  repeat match goal with
         | |- context [Ascii.eqb x ?c] =>
             destruct (Ascii.eqb_spec x c); [contradiction |]
         end.
  reflexivity.
Qed.

(** X27: The five replacements of [escapeHtml], applied one after the other
    to the whole text, amount to replacing each character of the input
    by its entity once (an ampersand produced by a replacement is never
    escaped again), and the result contains none of the characters
    [<], [>], double quote and single quote. *)
Theorem escapeHtml_neutralises_markup (text : string) :
  escapeHtml text = escapeEach text /\ markupFree (escapeHtml text) = true.
Proof.
  induction text as [| x rest [IHeq IHfree]]; [split; reflexivity |].
  rewrite escapeHtml_step. split.
  - cbn [escapeEach]. rewrite IHeq. reflexivity.
  - rewrite markupFree_app, entity_markupFree, IHfree. reflexivity.
Qed.

End CallbackServer.

(* ================================================================== *)
(** * Token sync checker (auth/tokenSyncChecker.ts)                     *)
(* ================================================================== *)

Module TokenSync.

Inductive TokenSyncStatus :=
| SKIP
| IN_SYNC
| TOKEN_CHANGED
| TOKEN_REMOVED
| LOCAL_TOKEN_AVAILABLE
| ERROR.

(** What the local Antigravity installation shows when it is looked at:
    whether its database file exists, and what
    [extractRefreshTokenFromAntigravity()] returns ([null] on every
    failure). *)
Record Local := {
  hasAntigravityDb : bool;
  extracted : option string
}.

(** [if (s)] for a [string | null]. *)
Definition truthy (s : option string) : bool :=
  match s with
  | Some (String _ _) => true
  | _ => false
  end.

(** [checkSync()]: the reads of the vault before the [try] block throw
    through, those inside it yield ERROR. *)
Definition checkSync (vault : TokenStorage.t) (local : Local)
  : TokenStorage.outcome TokenSyncStatus :=
  TokenStorage.bind (TokenStorage.hasToken vault) (fun hasToken =>
    if negb hasToken then
      if hasAntigravityDb local && truthy (extracted local)
      then TokenStorage.Returns LOCAL_TOKEN_AVAILABLE
      else TokenStorage.Returns SKIP
    else
      TokenStorage.bind (TokenStorage.getTokenSource vault) (fun source =>
        match source with
        | TokenStorage.manual => TokenStorage.Returns SKIP
        | TokenStorage.imported =>
            if negb (hasAntigravityDb local)
            then TokenStorage.Returns TOKEN_REMOVED
            else
              match TokenStorage.getRefreshToken vault with
              | TokenStorage.Throws _ => TokenStorage.Returns ERROR
              | TokenStorage.Returns current =>
                  if negb (truthy current) then TokenStorage.Returns ERROR
                  else if negb (truthy (extracted local))
                  then TokenStorage.Returns TOKEN_REMOVED
                  else
                    match current, extracted local with
                    | Some c, Some l =>
                        if (l =? c)%string
                        then TokenStorage.Returns IN_SYNC
                        else TokenStorage.Returns TOKEN_CHANGED
                    | _, _ => TokenStorage.Returns TOKEN_CHANGED
                    end
              end
        end)).

(** ** Throttling and the prompt cooldown *)


Record TokenSyncChecker := {
  lastCheckTime : Z;
  lastPromptTime : Z;
  lastNotLoggedInCheckTime : Z;
  isPromptShowing : bool
}.








Definition reset (_ : TokenSyncChecker) : TokenSyncChecker :=
  {| lastCheckTime := 0; lastPromptTime := 0; lastNotLoggedInCheckTime := 0;
     isPromptShowing := false |}.






(** ** The prompt cooldown *)



(** ** What the checker reports after the operations of the auth service *)

(** X29: After a successful import of the local refresh token, [checkSync]
    reports IN_SYNC as long as the local installation still shows that
    token, TOKEN_CHANGED when it shows another one and TOKEN_REMOVED when
    it shows none or its database is gone; after
    [convertToManualSource] it reports SKIP whatever the local
    installation shows; after [logout] it reports
    LOCAL_TOKEN_AVAILABLE exactly when the local installation shows a
    token, and SKIP otherwise. *)
Theorem checkSync_after_import
  (imported : string) (response : Auth.TokenResponse) (now : Z)
  (s : Auth.GoogleAuthService) (secrets : option TokenStorage.Secret) :
  imported <> ""%string ->
  Auth.currentState s <> Auth.AUTHENTICATING ->
  Auth.currentState s <> Auth.REFRESHING ->
  Auth.tokenStorage s = {| TokenStorage.secretStorage := Some secrets |} ->
  let s1 := snd (fst (Auth.loginWithRefreshToken imported (inr response) now s)) in
  let s2 := fst (Auth.convertToManualSource s1) in
  let s3 := snd (fst (Auth.logout s1)) in
  (forall local,
     checkSync (Auth.tokenStorage s1) local
     = TokenStorage.Returns
         (if negb (hasAntigravityDb local) then TOKEN_REMOVED
          else match extracted local with
               | None => TOKEN_REMOVED
               | Some l =>
                   if (l =? "")%string then TOKEN_REMOVED
                   else if (l =? imported)%string then IN_SYNC
                   else TOKEN_CHANGED
               end)) /\
  (forall local, checkSync (Auth.tokenStorage s2) local = TokenStorage.Returns SKIP) /\
  (forall local,
     checkSync (Auth.tokenStorage s3) local
     = TokenStorage.Returns
         (if hasAntigravityDb local && truthy (extracted local)
          then LOCAL_TOKEN_AVAILABLE else SKIP)).
Proof.
  intros Hne Hauth Hrefr Hvault.
  destruct imported as [| ic irest]; [congruence |].
  unfold Auth.loginWithRefreshToken.
  destruct (Auth.currentState s) eqn:Hs; try congruence;
    unfold Auth.setState; cbn; rewrite Hvault; cbn;
    (split; [| split]); intros [db [[| lc lrest] |]]; destruct db; cbn;
    try reflexivity;
    match goal with
    | |- context [if ?b then _ else _] => destruct b; reflexivity
    end.
Qed.

Lemma checkSync_after_import_witness :
  let s1 := snd (fst (Auth.loginWithRefreshToken "1//local"
                        (inr {| Auth.access_token := "ya29.a";
                                Auth.expires_in := 3600;
                                Auth.token_type := "Bearer";
                                Auth.response_scope := "openid" |})
                        1000 (Auth.serviceIn Auth.NOT_AUTHENTICATED))) in
  checkSync (Auth.tokenStorage s1)
    {| hasAntigravityDb := true; extracted := Some "1//local"%string |}
  = TokenStorage.Returns IN_SYNC /\
  checkSync (Auth.tokenStorage s1)
    {| hasAntigravityDb := true; extracted := Some "1//other"%string |}
  = TokenStorage.Returns TOKEN_CHANGED.
Proof.
  intros s1.
  destruct (checkSync_after_import "1//local"
              {| Auth.access_token := "ya29.a"; Auth.expires_in := 3600;
                 Auth.token_type := "Bearer"; Auth.response_scope := "openid" |}
              1000 (Auth.serviceIn Auth.NOT_AUTHENTICATED) None)
    as (Hsync & _); [discriminate | discriminate | discriminate | reflexivity |].
  split; apply Hsync.
Defined.

End TokenSync.

(* ================================================================== *)
(** * Automatic port re-detection (extension.ts)                        *)
(* ================================================================== *)

Module Extension.

Definition AUTO_REDETECT_THROTTLE_MS : Z := 30000.

(** The two properties of a thrown [Error] that the extension reads. *)
Record JsError := {
  name : string;
  message : string
}.

Definition getApiMethodFromConfig (apiMethod : string)
  : Polling.QuotaApiMethod :=
  if (apiMethod =? "GOOGLE_API")%string then Polling.GOOGLE_API
  else Polling.GET_USER_STATUS.

(** [apiMethod] is [None] when no quota service exists
    ([quotaService?.getApiMethod()] is [undefined]). *)
Definition shouldAutoRedetectPort (error : JsError)
  (apiMethod : option Polling.QuotaApiMethod) : bool :=
  match apiMethod with
  | None | Some Polling.GOOGLE_API => false
  | Some Polling.GET_USER_STATUS =>
      let msg := Polling.toLowerCase (message error) in
      if (msg =? "")%string then false
      else
        (name error =? "QuotaInvalidCodeError")%string
        || Polling.includes msg "missing csrf"
        || Polling.includes msg "csrf token"
        || Polling.includes msg "connection refused"
        || Polling.includes msg "econnrefused"
        || Polling.includes msg "socket"
        || Polling.includes msg "port"
        || (Polling.includes msg "http error" && Polling.includes msg "403")
        || Polling.includes msg "invalid response code"
  end.

(** The throttled part of the error callback: whether the detectPort
    command is executed, and the new value of [lastAutoRedetectTime]. *)
Definition onError (now : Z) (error : JsError)
  (apiMethod : option Polling.QuotaApiMethod) (lastAutoRedetectTime : Z)
  : bool * Z :=
  if shouldAutoRedetectPort error apiMethod then
    if now - lastAutoRedetectTime >=? AUTO_REDETECT_THROTTLE_MS
    then (true, now)
    else (false, lastAutoRedetectTime)
  else (false, lastAutoRedetectTime).

(** The times at which detectPort is executed over a sequence of error
    callbacks. *)
Fixpoint detections
  (errors : list (Z * JsError * option Polling.QuotaApiMethod))
  (lastAutoRedetectTime : Z) : list Z :=
  match errors with
  | [] => []
  | (now, error, apiMethod) :: rest =>
      let '(detect, last) := onError now error apiMethod lastAutoRedetectTime in
      if detect then now :: detections rest last else detections rest last
  end.

Fixpoint apart (gap last : Z) (times : list Z) : Prop :=
  match times with
  | [] => True
  | t :: rest => gap <= t - last /\ apart gap t rest
  end.

(** The error a local fetch without CSRF token ends with, as the error
    callback receives it. *)
Definition missingCsrf : JsError :=
  {| name := "Error"; message := Polling.message Polling.missingCsrfToken |}.

Lemma toLowerCase_empty (s : string) :
  Polling.toLowerCase s = ""%string -> s = ""%string.
Proof. destruct s; [reflexivity | discriminate]. Qed.

(** Automatic re-detection is never asked for in cloud mode or without a
    quota service, nor for an error without message, whatever its name;
    in local mode it is asked for every invalid-code error with a message
    and for the error that a fetch without CSRF token ends with. *)
Theorem shouldAutoRedetectPort_local_only (error : JsError) :
  shouldAutoRedetectPort error None = false /\
  shouldAutoRedetectPort error (Some Polling.GOOGLE_API) = false /\
  (forall config,
     shouldAutoRedetectPort error (Some (getApiMethodFromConfig config)) = true ->
     config <> "GOOGLE_API"%string) /\
  (forall apiMethod,
     message error = ""%string -> shouldAutoRedetectPort error apiMethod = false) /\
  (name error = "QuotaInvalidCodeError"%string -> message error <> ""%string ->
   shouldAutoRedetectPort error (Some Polling.GET_USER_STATUS) = true) /\
  shouldAutoRedetectPort missingCsrf (Some Polling.GET_USER_STATUS) = true.
Proof.
  split; [reflexivity |]. split; [reflexivity |].
  split; [| split; [| split]].
  - intros config Hyes ->. cbn in Hyes. discriminate.
  - intros apiMethod Hempty. unfold shouldAutoRedetectPort. rewrite Hempty.
    destruct apiMethod as [[|] |]; reflexivity.
  - intros Hname Htext. unfold shouldAutoRedetectPort. cbv zeta.
    destruct (String.eqb_spec (Polling.toLowerCase (message error)) "") as [Hlow | _].
    + apply toLowerCase_empty in Hlow. contradiction.
    + rewrite Hname. reflexivity.
  - vm_compute. reflexivity.
Qed.

Lemma shouldAutoRedetectPort_inv (error : JsError)
  (apiMethod : option Polling.QuotaApiMethod) :
  shouldAutoRedetectPort error apiMethod = true ->
  apiMethod = Some Polling.GET_USER_STATUS /\ message error <> ""%string.
Proof.
  destruct apiMethod as [[|] |]; try discriminate.
  intros Hyes. split; [reflexivity |]. intros Hempty.
  unfold shouldAutoRedetectPort in Hyes. rewrite Hempty in Hyes. discriminate.
Qed.

(** X30: Over any sequence of error callbacks, every automatic re-detection
    happens at least 30 seconds (on the clock the callback reads) after
    the previous one, and only for an error that qualifies for it: one
    with a message, received in local mode. *)
Theorem redetections_are_throttled
  (errors : list (Z * JsError * option Polling.QuotaApiMethod)) (last : Z) :
  apart 30000 last (detections errors last) /\
  (forall t, In t (detections errors last) ->
     exists error,
       In (t, error, Some Polling.GET_USER_STATUS) errors /\
       shouldAutoRedetectPort error (Some Polling.GET_USER_STATUS) = true /\
       message error <> ""%string).
Proof.
  revert last.
  induction errors as [| [[now error] apiMethod] rest IH]; intros last;
    [split; [exact I | intros t []] |].
  cbn [detections]. unfold onError.
  assert (Hrest : forall l t, In t (detections rest l) ->
            exists e,
              In (t, e, Some Polling.GET_USER_STATUS)
                 ((now, error, apiMethod) :: rest) /\
              shouldAutoRedetectPort e (Some Polling.GET_USER_STATUS) = true /\
              message e <> ""%string).
  { intros l t Ht. destruct (proj2 (IH l) t Ht) as (e & He & Hs).
    exists e. split; [right; exact He | exact Hs]. }
  destruct (shouldAutoRedetectPort error apiMethod) eqn:Hshould;
    [| split; [apply IH | apply Hrest]].
  destruct (Z.geb_spec (now - last) AUTO_REDETECT_THROTTLE_MS) as [Hge | Hlt];
    [| split; [apply IH | apply Hrest]].
  split.
  - cbn [apart]. split; [exact Hge | apply IH].
  - intros t [<- | Ht]; [| apply (Hrest now t Ht)].
    destruct (shouldAutoRedetectPort_inv error apiMethod Hshould) as [-> Hmsg].
    exists error. split; [left; reflexivity |]. split; [exact Hshould | exact Hmsg].
Qed.

End Extension.
